(** * audiowmark: command line front end (src/audiowmark.cc)

    A shallow embedding of the command line driver of audiowmark: the
    [ArgParser] class, the option parsers [parse_shared_options] and
    [parse_get_options], the dispatch done by [main], and the small
    commands implemented in the same file ([gen_key], [test_clip],
    [test_speed], [test_gen_noise], [gentest], [cut_start],
    [test_subtract]).

    The watermarking engine itself (add_watermark, get_watermark, the
    keyed random generator, the short code, the resampler, WavData) lives
    in other translation units; calls into it are recorded as events or
    taken as section variables. *)

From Stdlib Require Import ZArith QArith Qround Qabs Qpower Lia Lqa Ascii.
From Stdlib Require Import Floats.SpecFloat.
From stdpp Require Import base list strings gmap.

(** [is_option]: a single "-" is not an option, "--foo" and "-f" are. *)
Definition is_option (arg : string) : bool :=
  match arg with
  | String c (String _ _) => bool_decide (c = "-"%char)
  | _ => false
  end.

(** ** ArgParser *)

Module ArgParser.

(** The two data members of the class. *)
Record t := mk { m_args : list string; m_command : string }.

(** [s.substr (pos)] for [pos <= s.size()]. *)
Definition substr_from (pos : nat) (s : string) : string :=
  String.substring pos (String.length s - pos) s.

(** [s.substr (0, start.size()) == start] *)
Definition starts_with (s start : string) : bool :=
  String.eqb (String.substring 0 (String.length start) s) start.

(** [v.erase (v.begin() + i, v.begin() + i + n)] *)
Definition erase (i n : nat) (v : list string) : list string :=
  take i v ++ drop (i + n) v.

(** State of the [while] loop of [parse_opt (option, out_s)]: the
    iterator [it] is an index into the vector that is being edited. *)
Record opt_loop := OptLoop {
  it : nat;
  cur_args : list string;
  out_s : string;
  found_option : bool
}.

(** One pass through the loop body, [a] being [*it]. *)
Definition parse_opt_body (option : string) (st : opt_loop) (a : string) : opt_loop :=
  let i := it st in
  let v := cur_args st in
  match String.eqb a option, v !! S i with
  | true, Some nxt =>                             (* --option foo *)
      OptLoop i (erase i 2 v) nxt true
  | _, _ =>
      if starts_with a (option +:+ "=") then      (* --option=foo *)
        OptLoop i (erase i 1 v) (substr_from (String.length option + 1) a) true
      else
        OptLoop (S i) v (out_s st) (found_option st)
  end.

(** [while (it != m_args.end())]; the loop needs at most one pass per
    argument, see [parse_opt_finished]. *)
Fixpoint parse_opt_loop (fuel : nat) (option : string) (st : opt_loop) : opt_loop :=
  match fuel with
  | O => st
  | S fuel' =>
      match cur_args st !! it st with
      | None => st
      | Some a => parse_opt_loop fuel' option (parse_opt_body option st a)
      end
  end.

(** [bool parse_opt (const string& option, string& out_s)]: the result
    is the returned flag, the final contents of [out_s] and the parser. *)
Definition parse_opt (option : string) (out : string) (ap : t) : bool * string * t :=
  let st := parse_opt_loop (length (m_args ap)) option
              (OptLoop 0 (m_args ap) out false) in
  (found_option st, out_s st, mk (cur_args st) (m_command ap)).

(** [bool parse_opt (const string& option)]: erase the first argument
    equal to [option]. *)
Definition parse_flag (option : string) (ap : t) : bool * t :=
  match list_find (λ a, a = option) (m_args ap) with
  | Some (i, _) => (true, mk (erase i 1 (m_args ap)) (m_command ap))
  | None => (false, ap)
  end.

(** [bool parse_args (size_t expected_count, vector<string>& out_args)];
    [None] stands for [false], which leaves [out_args] untouched. *)
Definition parse_args (expected_count : nat) (ap : t) : option (list string) :=
  if decide (length (m_args ap) = expected_count) then
    if forallb (λ a, negb (is_option a)) (m_args ap) then Some (m_args ap) else None
  else None.

Definition remaining_args (ap : t) : list string := m_args ap.
Definition command (ap : t) : string := m_command ap.

(** [ArgParser (int argc, char **argv)] keeps [argv[1..]]. *)
Definition init (argv : list string) : t := mk (tail argv) "".

(** [bool parse_cmd (const string& cmd)] *)
Definition parse_cmd (cmd : string) (ap : t) : bool * t :=
  match m_args ap with
  | a :: rest => if String.eqb a cmd then (true, mk rest cmd) else (false, ap)
  | [] => (false, ap)
  end.

End ArgParser.

(** ** C library: atoi *)

Module Libc.

Definition isspace (c : ascii) : bool :=
  let n := nat_of_ascii c in
  bool_decide (n = 32 ∨ 9 ≤ n ≤ 13)%nat.

Definition digit (c : ascii) : option Z :=
  let n := nat_of_ascii c in
  if bool_decide (48 ≤ n ≤ 57)%nat then Some (Z.of_nat n - 48)%Z else None.

Fixpoint skip_spaces (s : string) : string :=
  match s with
  | String c s' => if isspace c then skip_spaces s' else s
  | EmptyString => s
  end.

Fixpoint digits (acc : Z) (s : string) : Z :=
  match s with
  | String c s' =>
      match digit c with
      | Some d => digits (10 * acc + d) s'
      | None => acc
      end
  | EmptyString => acc
  end.

(** [atoi]: leading white space, an optional sign, then decimal digits.
    A value outside [int] is undefined behaviour in C; the model returns
    the mathematical value. *)
Definition atoi (s : string) : Z :=
  match skip_spaces s with
  | String "-" s' => (- digits 0 s')%Z
  | String "+" s' => digits 0 s'
  | s' => digits 0 s'
  end.

End Libc.

Definition UINT64_MAX : Z := 2 ^ 64 - 1.

(** Conversion to [size_t] / [uint64_t]. *)
Definition wrap64 (z : Z) : Z := z mod 2 ^ 64.

(** ** Floating point

    A [float] or [double] is modelled by the rational it denotes; every
    arithmetic operation is the exact operation followed by IEEE 754
    rounding to nearest, ties to even, in the format of the result.  Only
    finite values are covered (no NaN, no infinity, no overflow). *)

Module Float.

Definition pow2 (e : Z) : Q := (2 ^ e)%Q.

(** [floor (log2 x)] for [0 < x]. *)
Definition ilog2 (x : Q) : Z :=
  let k := (Z.log2 (Qnum x) - Z.log2 (Zpos (Qden x)))%Z in
  if Qle_bool (pow2 k) x then k else (k - 1)%Z.

(** Nearest integer, ties to even. *)
Definition rne (x : Q) : Z :=
  let f := Qfloor x in
  match (x - inject_Z f ?= 1 # 2)%Q with
  | Lt => f
  | Gt => (f + 1)%Z
  | Eq => if Z.even f then f else (f + 1)%Z
  end.

(** A binary format: [prec] bits of precision, [emin] the exponent of
    the least subnormal. *)
Record format := Format { prec : Z; emin : Z }.
Definition binary64 := Format 53 (-1074).
Definition binary32 := Format 24 (-149).

(** Exponent of the unit in the last place for a magnitude [x]. *)
Definition quantum (fmt : format) (x : Q) : Z :=
  Z.max (ilog2 x - (prec fmt - 1)) (emin fmt).

Definition round_mag (fmt : format) (x : Q) : Q :=
  let e := quantum fmt x in
  (inject_Z (rne (x / pow2 e)) * pow2 e)%Q.

(** Sign and magnitude, as in the IEEE encoding. *)
Definition round (fmt : format) (x : Q) : Q :=
  if Qle_bool 0 x then round_mag fmt x else (- round_mag fmt (- x))%Q.

Definition double (x : Q) : Q := round binary64 x.
Definition single (x : Q) : Q := round binary32 x.

(** Conversion of a floating point value to an integer type: the
    fractional part is discarded. *)
Definition trunc (x : Q) : Z :=
  if Qle_bool 0 x then Qfloor x else Qceiling x.

(** [printf ("%.6f")]: the decimal with six fractional digits nearest to
    the value, as a rational. *)
Definition fixed6 (x : Q) : Q := (inject_Z (rne (x * 1000000)) / 1000000)%Q.

(** The value of a finite number in the Standard Library's IEEE 754
    specification, to compare [round] with it. *)
Definition SF2Q (f : spec_float) : Q :=
  match f with
  | S754_finite s m e => (inject_Z (if s then Z.neg m else Z.pos m) * pow2 e)%Q
  | _ => 0%Q
  end.
Definition Z2SF (z : Z) : spec_float := binary_normalize 53 1024 z 0 false.

End Float.

(** ** Global state of the driver *)

(** Values held by the static members of [Params] and passed to
    [printf]-style functions. *)
Inductive value :=
| VBool (b : bool)
| VInt (z : Z)
| VFloat (q : Q)
| VStr (s : string).

(** The positional arguments handed to a command once the options are
    parsed, after [atoi] / [atof] where [main] applies them. *)
Module Cmd.
Inductive t :=
| hls_add (input_ts output_ts message_hex : string)
| hls_prepare (input_dir output_dir playlist_name audio_master : string)
| add_watermark (input_wav watermarked_wav message_hex : string)
| get_watermark (watermarked_wav message_hex : string)
| gen_key (key_file : string)
| gentest (input_wav output_wav : string)
| cut_start (input_wav output_wav cut_samples : string)
| test_subtract (input1_wav input2_wav output_wav : string)
| test_snr (orig_wav watermarked_wav : string)
| test_clip (input_wav output_wav : string) (seed seconds : Z)
| test_speed (seed : Z)
| test_gen_noise (output_wav : string) (seconds : Q) (sample_rate : Z)
| test_change_speed (input_wav output_wav : string) (speed : Q)
| test_resample (input_wav output_wav : string) (new_rate : Z).
End Cmd.

(** What a run does that is visible from outside, in program order. *)
Inductive event :=
| Printf (fmt : string) (args : list value)       (* standard output *)
| PrintUsage
| PrintUsageHls
| Error (fmt : string) (args : list value)        (* error (...) *)
| SetLogLevelWarning
| LoadGlobalKey (key_file : string)               (* Random::load_global_key *)
| SetGlobalTestKey (seed : Z)                     (* Random::set_global_test_key *)
| Run (c : Cmd.t).                                 (* the command's function is entered *)

(** [Params::name] is looked up by name; the initial store holds the
    initialisers of wmcommon.cc. *)
Record state := State {
  ap : ArgParser.t;
  params : gmap string value;
  trace : list event
}.

Definition get_int (name : string) (p : gmap string value) : Z :=
  match p !! name with Some (VInt z) => z | _ => 0%Z end.

(** A computation either returns or leaves the process through
    [exit (status)]. *)
Inductive result (A : Type) :=
| Ret (a : A)
| Exit (status : Z).
Arguments Ret {A} a.
Arguments Exit {A} status.

Definition M (A : Type) : Type := state → result A * state.

#[global] Instance M_ret : MRet M := λ A a s, (Ret a, s).
#[global] Instance M_bind : MBind M := λ A B f m s,
  match m s with
  | (Ret a, s') => f a s'
  | (Exit status, s') => (Exit status, s')
  end.

Definition exit {A} (status : Z) : M A := λ s, (Exit status, s).
Definition emit (e : event) : M unit :=
  λ s, (Ret (), State (ap s) (params s) (trace s ++ [e])).
Definition error (fmt : string) (args : list value) : M unit := emit (Error fmt args).
Definition set_param (name : string) (v : value) : M unit :=
  λ s, (Ret (), State (ap s) (<[name := v]> (params s)) (trace s)).
Definition get_param_int (name : string) : M Z :=
  λ s, (Ret (get_int name (params s)), s).
Definition when (b : bool) (m : M unit) : M unit := if b then m else mret ().

(** The [ArgParser] methods on the parser held in the state.  The value
    overloads return the parsed value when the option was found. *)
Definition parse_opt_string (opt : string) : M (option string) :=
  λ s, let '(found, out, ap') := ArgParser.parse_opt opt "" (ap s) in
       (Ret (if found then Some out else None), State ap' (params s) (trace s)).

Definition parse_flag (opt : string) : M bool :=
  λ s, let '(found, ap') := ArgParser.parse_flag opt (ap s) in
       (Ret found, State ap' (params s) (trace s)).

Definition parse_cmd (cmd : string) : M bool :=
  λ s, let '(found, ap') := ArgParser.parse_cmd cmd (ap s) in
       (Ret found, State ap' (params s) (trace s)).

(** [parse_opt (option, Params::name)] for a member whose declaration
    (int, float or string) is in wmcommon.hh: the three overloads consume
    the same arguments, and the member is kept as the argument's text. *)
Definition parse_opt_param (opt name : string) : M unit :=
  r ← parse_opt_string opt;
  match r with
  | Some text => set_param name (VStr text)
  | None => mret ()
  end.

Section Driver.

(** [atof], for finite results. *)
Variable atof : string → Q.
(** [short_code_init (size)] of shortcode.cc. *)
Variable short_code_init : Z → bool.
(** The status returned by a command. *)
Variable run : Cmd.t → Z.
(** [VERSION] of config.h. *)
Variable VERSION : string.

Definition parse_opt_int (opt : string) : M (option Z) :=
  r ← parse_opt_string opt; mret (Libc.atoi <$> r).

(** [out_f = atof (...)] narrows the double to [float]. *)
Definition parse_opt_float (opt : string) : M (option Q) :=
  r ← parse_opt_string opt; mret ((λ t, Float.single (atof t)) <$> r).

Definition key_conflict_message : string :=
  "audiowmark: watermark key can at most be set once (--key / --test-key option)\n".

Definition parse_shared_options : M unit :=
  f ← parse_opt_float "--strength";
  match f with
  | Some f => set_param "water_delta" (VFloat (Float.single (f / 1000)))
  | None => mret ()
  end;;
  s ← parse_opt_string "--key";
  match s with
  | Some s =>
      n ← get_param_int "have_key";
      set_param "have_key" (VInt (n + 1));;
      emit (LoadGlobalKey s)
  | None => mret ()
  end;;
  i ← parse_opt_int "--test-key";
  match i with
  | Some i =>
      n ← get_param_int "have_key";
      set_param "have_key" (VInt (n + 1));;
      emit (SetGlobalTestKey i)
  | None => mret ()
  end;;
  i ← parse_opt_int "--short";
  match i with
  | Some i =>
      set_param "payload_size" (VInt (wrap64 i));;
      (if short_code_init (wrap64 i) then mret ()
       else
         error "audiowmark: unsupported short payload size %zd\n" [VInt (wrap64 i)];;
         exit 1);;
      set_param "payload_short" (VBool true)
  | None => mret ()
  end;;
  parse_opt_param "--frames-per-bit" "frames_per_bit";;
  b ← parse_flag "--linear";
  when b (set_param "mix" (VBool false));;
  n ← get_param_int "have_key";
  if bool_decide (n > 1)%Z then
    error key_conflict_message [];;
    exit 1
  else mret ().

(** [parse_format], [parse_endian] and [parse_encoding]: the enumerator
    is kept by name. *)
Definition parse_format (str : string) : M value :=
  if String.eqb str "raw" then mret (VStr "Format::RAW")
  else if String.eqb str "auto" then mret (VStr "Format::AUTO")
  else error "audiowmark: unsupported format '%s'\n" [VStr str];; exit 1.

Definition parse_endian (str : string) : M value :=
  if String.eqb str "little" then mret (VStr "RawFormat::Endian::LITTLE")
  else if String.eqb str "big" then mret (VStr "RawFormat::Endian::BIG")
  else error "audiowmark: unsupported endianness '%s'\n" [VStr str];; exit 1.

Definition parse_encoding (str : string) : M value :=
  if String.eqb str "signed" then mret (VStr "RawFormat::Encoding::SIGNED")
  else if String.eqb str "unsigned" then mret (VStr "RawFormat::Encoding::UNSIGNED")
  else error "audiowmark: unsupported encoding '%s'\n" [VStr str];; exit 1.

(** [if (ap.parse_opt (option, s)) { v = parse (s); names... = v; }] *)
Definition parse_opt_with (opt : string) (parse : string → M value)
    (names : list string) : M unit :=
  r ← parse_opt_string opt;
  match r with
  | Some text =>
      v ← parse text;
      foldr (λ name k, set_param name v;; k) (mret ()) names
  | None => mret ()
  end.

Definition parse_add_options : M unit :=
  parse_opt_param "--set-input-label" "input_label";;
  parse_opt_param "--set-output-label" "output_label";;
  b ← parse_flag "--snr";
  when b (set_param "snr" (VBool true));;
  parse_opt_with "--input-format" parse_format ["input_format"];;
  parse_opt_with "--output-format" parse_format ["output_format"];;
  parse_opt_with "--format" parse_format ["output_format"; "input_format"];;
  parse_opt_with "--raw-input-bits" (λ t, mret (VInt (Libc.atoi t)))
    ["raw_input_format.bit_depth"];;
  parse_opt_with "--raw-output-bits" (λ t, mret (VInt (Libc.atoi t)))
    ["raw_output_format.bit_depth"];;
  parse_opt_with "--raw-bits" (λ t, mret (VInt (Libc.atoi t)))
    ["raw_input_format.bit_depth"; "raw_output_format.bit_depth"];;
  parse_opt_with "--raw-input-endian" parse_endian ["raw_input_format.endian"];;
  parse_opt_with "--raw-output-endian" parse_endian ["raw_output_format.endian"];;
  parse_opt_with "--raw-endian" parse_endian
    ["raw_input_format.endian"; "raw_output_format.endian"];;
  parse_opt_with "--raw-input-encoding" parse_encoding ["raw_input_format.encoding"];;
  parse_opt_with "--raw-output-encoding" parse_encoding ["raw_output_format.encoding"];;
  parse_opt_with "--raw-encoding" parse_encoding
    ["raw_input_format.encoding"; "raw_output_format.encoding"];;
  parse_opt_with "--raw-channels" (λ t, mret (VInt (Libc.atoi t)))
    ["raw_input_format.channels"; "raw_output_format.channels"];;
  parse_opt_with "--raw-rate" (λ t, mret (VInt (Libc.atoi t)))
    ["raw_input_format.sample_rate"; "raw_output_format.sample_rate"];;
  b ← parse_flag "--test-no-limiter";
  when b (set_param "test_no_limiter" (VBool true)).

(** [if (found) n++] *)
Definition incr_if (found : bool) (n : Z) : Z := if found then (n + 1)%Z else n.

Definition speed_options_message : string :=
  "audiowmark: can only use one option: --detect-speed or --detect-speed-patient or --try-speed\n".

Definition parse_get_options : M unit :=
  parse_opt_param "--test-cut" "test_cut";;
  parse_opt_param "--test-truncate" "test_truncate";;
  b ← parse_flag "--hard";
  when b (set_param "hard" (VBool true));;
  b ← parse_flag "--test-no-sync";
  when b (set_param "test_no_sync" (VBool true));;
  let speed_options := 0%Z in
  b ← parse_flag "--detect-speed";
  when b (set_param "detect_speed" (VBool true));;
  let speed_options := incr_if b speed_options in
  b ← parse_flag "--detect-speed-patient";
  when b (set_param "detect_speed_patient" (VBool true));;
  let speed_options := incr_if b speed_options in
  f ← parse_opt_float "--try-speed";
  match f with
  | Some f => set_param "try_speed" (VFloat f)
  | None => mret ()
  end;;
  let speed_options := incr_if (bool_decide (is_Some f)) speed_options in
  (if bool_decide (speed_options > 1)%Z then
     error speed_options_message [];;
     exit 1
   else mret ());;
  f ← parse_opt_float "--test-speed";
  match f with
  | Some f => set_param "test_speed" (VFloat f)
  | None => mret ()
  end;;
  s ← parse_opt_string "--json";
  match s with
  | Some s => set_param "json_output" (VStr s)
  | None => mret ()
  end.

(** [parse_positional (ap, arg_names...)] *)
Definition parse_positional (vs : list string) : M (list string) :=
  λ s,
    match ArgParser.parse_args (length vs) (ap s) with
    | Some args => (Ret args, s)
    | None =>
        let command := ArgParser.command (ap s) in
        match list_find (λ a, is_option a = true) (ArgParser.remaining_args (ap s)) with
        | Some (_, arg) =>
            (error "audiowmark: unsupported option '%s' for command '%s' (use audiowmark -h)\n"
               [VStr arg; VStr command];;
             exit 1) s
        | None =>
            (error "audiowmark: error parsing arguments for command '%s' (use audiowmark -h)\n\n"
               [VStr command];;
             let msg := foldl (λ msg s, msg +:+ " <" +:+ s +:+ ">")
                          ("usage: audiowmark " +:+ command +:+ " [options...]") vs in
             error "%s\n" [VStr msg];;
             exit 1) s
        end
    end.

(** [args[i]] on the vector returned by [parse_positional]. *)
Definition arg (i : nat) (args : list string) : string := default "" (args !! i).

(** Enter a command's function and leave [main] with its status. *)
Definition call (c : Cmd.t) : M Z := emit (Run c);; exit (run c).

(** [a || b] on two parser calls: [b] is not evaluated when [a] holds. *)
Definition or_else (a b : M bool) : M bool := x ← a; if x : bool then mret true else b.

(** [main]; its [return] statements are rendered as [exit]. *)
Definition main_global_options : M unit :=
  b ← or_else (parse_flag "--help") (parse_flag "-h");
  (if b : bool then emit PrintUsage;; exit 0 else mret ());;
  b ← parse_flag "--help-hls";
  (if b : bool then emit PrintUsageHls;; exit 0 else mret ());;
  b ← or_else (parse_flag "--version") (parse_flag "-v");
  (if b : bool then emit (Printf "audiowmark %s\n" [VStr VERSION]);; exit 0 else mret ());;
  b ← or_else (parse_flag "--quiet") (parse_flag "-q");
  when b (emit SetLogLevelWarning);;
  b ← parse_flag "--strict";
  when b (set_param "strict" (VBool true)).

(** [if (ap.parse_cmd (cmd)) { body } else rest] *)
Definition on_cmd (cmd : string) (body rest : M Z) : M Z :=
  b ← parse_cmd cmd; if b : bool then body else rest.

Definition main_commands : M Z :=
  on_cmd "hls-add" (
    parse_shared_options;;
    parse_opt_param "--bit-rate" "hls_bit_rate";;
    args ← parse_positional ["input_ts"; "output_ts"; "message_hex"];
    call (Cmd.hls_add (arg 0 args) (arg 1 args) (arg 2 args))) $
  on_cmd "hls-prepare" (
    parse_opt_param "--bit-rate" "hls_bit_rate";;
    args ← parse_positional ["input_dir"; "output_dir"; "playlist_name"; "audio_master"];
    call (Cmd.hls_prepare (arg 0 args) (arg 1 args) (arg 2 args) (arg 3 args))) $
  on_cmd "add" (
    parse_shared_options;;
    parse_add_options;;
    args ← parse_positional ["input_wav"; "watermarked_wav"; "message_hex"];
    call (Cmd.add_watermark (arg 0 args) (arg 1 args) (arg 2 args))) $
  on_cmd "get" (
    parse_shared_options;;
    parse_get_options;;
    args ← parse_positional ["watermarked_wav"];
    call (Cmd.get_watermark (arg 0 args) "")) $
  on_cmd "cmp" (
    parse_shared_options;;
    parse_get_options;;
    parse_opt_param "--expect-matches" "expect_matches";;
    args ← parse_positional ["watermarked_wav"; "message_hex"];
    call (Cmd.get_watermark (arg 0 args) (arg 1 args))) $
  on_cmd "gen-key" (
    args ← parse_positional ["key_file"];
    call (Cmd.gen_key (arg 0 args))) $
  on_cmd "gentest" (
    args ← parse_positional ["input_wav"; "output_wav"];
    call (Cmd.gentest (arg 0 args) (arg 1 args))) $
  on_cmd "cut-start" (
    args ← parse_positional ["input_wav"; "output_wav"; "cut_samples"];
    call (Cmd.cut_start (arg 0 args) (arg 1 args) (arg 2 args))) $
  on_cmd "test-subtract" (
    args ← parse_positional ["input1_wav"; "input2_wav"; "output_wav"];
    call (Cmd.test_subtract (arg 0 args) (arg 1 args) (arg 2 args))) $
  on_cmd "test-snr" (
    args ← parse_positional ["orig_wav"; "watermarked_wav"];
    call (Cmd.test_snr (arg 0 args) (arg 1 args))) $
  on_cmd "test-clip" (
    parse_shared_options;;
    args ← parse_positional ["input_wav"; "output_wav"; "seed"; "seconds"];
    call (Cmd.test_clip (arg 0 args) (arg 1 args) (Libc.atoi (arg 2 args)) (Libc.atoi (arg 3 args)))) $
  on_cmd "test-speed" (
    parse_shared_options;;
    args ← parse_positional ["seed"];
    call (Cmd.test_speed (Libc.atoi (arg 0 args)))) $
  on_cmd "test-gen-noise" (
    parse_shared_options;;
    args ← parse_positional ["output_wav"; "seconds"; "sample_rate"];
    call (Cmd.test_gen_noise (arg 0 args) (atof (arg 1 args)) (Libc.atoi (arg 2 args)))) $
  on_cmd "test-change-speed" (
    parse_shared_options;;
    args ← parse_positional ["input_wav"; "output_wav"; "speed"];
    call (Cmd.test_change_speed (arg 0 args) (arg 1 args) (atof (arg 2 args)))) $
  on_cmd "test-resample" (
    parse_shared_options;;
    args ← parse_positional ["input_wav"; "output_wav"; "new_rate"];
    call (Cmd.test_resample (arg 0 args) (arg 1 args) (Libc.atoi (arg 2 args)))) $
  λ s,
    match ArgParser.remaining_args (ap s) with
    | a :: _ =>
        ((if is_option a then
            error "audiowmark: unsupported global option '%s' (use audiowmark -h)\n" [VStr a]
          else
            error "audiowmark: unsupported command '%s' (use audiowmark -h)\n" [VStr a]);;
         exit 1) s
    | [] =>
        (error "audiowmark: error parsing commandline args (use audiowmark -h)\n" [];;
         exit 1) s
    end.

Definition main_body : M Z := main_global_options;; main_commands.

(** The exit status of the process and the final state. *)
Definition main (argv : list string) (initial_params : gmap string value) : Z * state :=
  match main_body (State (ArgParser.init argv) initial_params []) with
  | (Ret status, s) => (status, s)
  | (Exit status, s) => (status, s)
  end.

End Driver.

(** ** gen_key *)

(** The files of the machine and the paths that [fopen (path, "w")]
    cannot open. *)
Record filesystem := Filesystem {
  contents : gmap string string;
  unwritable : gset string
}.

Definition newline : string := String (ascii_of_nat 10) EmptyString.

(** [fopen (path, "w")]: the file is created or truncated. *)
Definition fopen_w (path : string) (fs : filesystem) : option filesystem :=
  if decide (path ∈ unwritable fs) then None
  else Some (Filesystem (<[path := ""]> (contents fs)) (unwritable fs)).

(** Output to a stream opened on [path]. *)
Definition fputs (path text : string) (fs : filesystem) : filesystem :=
  Filesystem (<[path := default "" (contents fs !! path) +:+ text]> (contents fs))
             (unwritable fs).

(** [gen_key (outfile)]; [key] is the string returned by
    [Random::gen_key ()].  The result is the status, the files and what
    was reported. *)
Definition gen_key (key : string) (outfile : string) (fs : filesystem)
  : Z * filesystem * list event :=
  match fopen_w outfile fs with
  | None => (1%Z, fs, [Error "audiowmark: error writing to file %s\n" [VStr outfile]])
  | Some fs' =>
      (0%Z,
       fputs outfile ("# watermarking key for audiowmark" +:+ newline +:+ newline
                      +:+ "key " +:+ key +:+ newline) fs',
       [])
  end.

(** ** Test commands on audio data *)

(** What this file uses of [WavData]. *)
Record WavData := MkWavData {
  samples : list Q;
  n_channels : Z;
  sample_rate : Z;
  bit_depth : Z
}.

Definition n_values (w : WavData) : Z := Z.of_nat (length (samples w)).

(** [w.n_values() / w.n_channels()], the number of frames. *)
Definition n_frames (w : WavData) : Z := (n_values w / wrap64 (n_channels w))%Z.

Section Commands.

(** [Random rng (seed, Random::Stream::data_up_down)]: the values of
    successive calls of [rng.random_double ()] and of [rng ()]. *)
Variable random_double : Z → nat → Q.
Variable random_u64 : Z → nat → Z.

(** [mark_sync_frame_count ()], [mark_data_frame_count ()] and
    [Params::frame_size] of wmcommon. *)
Variable mark_sync_frame_count : Z.
Variable mark_data_frame_count : Z.
Variable frame_size : Z.

(** *** test_clip *)

Definition values_per_block (in_data : WavData) : Z :=
  wrap64 ((mark_sync_frame_count + mark_data_frame_count) * frame_size
          * n_channels in_data).

(** One pass through the body of the [do] loop, for the value [u]
    drawn from the generator: [start_point] and [end_point].  The
    product [time_seconds * sample_rate] of two [int]s is taken exactly
    (C++ defines no result when it overflows) and converted to [size_t]
    by the addition. *)
Definition clip_points (in_data : WavData) (time_seconds : Z) (u : Q) : Z * Z :=
  let start_point :=
    wrap64 (Float.trunc
              (Float.double (Float.double (inject_Z (wrap64 (2 * values_per_block in_data))) * u))) in
  let start_point := (start_point / wrap64 (n_channels in_data))%Z in
  let end_point := wrap64 (start_point + time_seconds * sample_rate in_data) in
  (start_point, end_point).

(** [do { ... } while (!done)], from the [i]-th draw on; [None] when
    the loop is still running after [fuel] passes. *)
Fixpoint clip_loop (fuel : nat) (in_data : WavData) (seed time_seconds : Z) (i : nat)
  : option (Z * Z) :=
  match fuel with
  | O => None
  | S fuel' =>
      let '(start_point, end_point) :=
        clip_points in_data time_seconds (random_double seed i) in
      if (end_point <? n_frames in_data)%Z then Some (start_point, end_point)
      else clip_loop fuel' in_data seed time_seconds (S i)
  end.

(** [vector<float> (v.begin() + first, v.begin() + last)] *)
Definition slice (first last : Z) (v : list Q) : list Q :=
  take (Z.to_nat (last - first)) (drop (Z.to_nat first) v).

(** [test_clip]: [loaded] is what [in_data.load (in_file)] produced
    ([None] for an error), [saved] whether [save] succeeded.  The
    result is the status and the clip handed to [save]. *)
Definition test_clip (fuel : nat) (loaded : option WavData) (saved : bool)
    (seed time_seconds : Z) : option (Z * option WavData) :=
  match loaded with
  | None => Some (1%Z, None)
  | Some in_data =>
      match clip_loop fuel in_data seed time_seconds 0 with
      | None => None
      | Some (start_point, end_point) =>
          let out_signal :=
            slice (start_point * n_channels in_data) (end_point * n_channels in_data)
                  (samples in_data) in
          let out_wav_data :=
            MkWavData out_signal (n_channels in_data) (sample_rate in_data)
                      (bit_depth in_data) in
          Some (if saved then 0%Z else 1%Z, Some out_wav_data)
      end
  end.

(** *** test_speed *)

Definition speed_low : Q := Float.double (85 # 100).
Definition speed_high : Q := Float.double (115 # 100).

(** [rng() / double (UINT64_MAX)] *)
Definition speed_unit (seed : Z) : Q :=
  Float.double (Float.double (inject_Z (wrap64 (random_u64 seed 0)))
                / Float.double (inject_Z UINT64_MAX)).

(** [low + (rng() / double (UINT64_MAX)) * (high - low)] *)
Definition speed_factor (seed : Z) : Q :=
  Float.double (speed_low
                + Float.double (speed_unit seed * Float.double (speed_high - speed_low))).

(** [test_speed]: the status and the output; [speed_printed] is the
    number that the "%.6f" conversion writes. *)
Definition test_speed (seed : Z) : Z * list event :=
  (0%Z, [Printf "%.6f\n" [VFloat (speed_factor seed)]]).

Definition speed_printed (seed : Z) : Q := Float.fixed6 (speed_factor seed).

(** *** test_gen_noise *)

(** [size_t (rate * seconds)]: the product is a double, truncated
    towards zero; outside the range of [size_t], where C++ defines no
    result, the model wraps around. *)
Definition noise_frames (seconds : Q) (rate : Z) : Z :=
  wrap64 (Float.trunc (Float.double (inject_Z rate * seconds))).

(** [rng.random_double() * 2 - 1], stored as [float]. *)
Definition noise_sample (u : Q) : Q :=
  Float.single (Float.double (Float.double (u * 2) - 1)).

(** [test_gen_noise]: the status and the data handed to [save];
    [saved] tells whether [save] succeeded. *)
Definition test_gen_noise (saved : bool) (seconds : Q) (rate : Z) : Z * WavData :=
  let channels := 2%Z in
  let bits := 16%Z in
  let n := wrap64 (noise_frames seconds rate * channels) in
  let noise := map (λ i, noise_sample (random_double 0 i)) (seq 0 (Z.to_nat n)) in
  (if saved then 0%Z else 1%Z, MkWavData noise channels rate bits).

End Commands.

(** * Vocabulary of the properties *)

(** ** Occurrences of an option in an argument vector *)

Module ArgSpec.
Import ArgParser.

(** Position [i] of [args] holds an occurrence of the option: either
    [--option] followed by one more argument, or [--option=value]. *)
Definition occurs_at (option : string) (args : list string) (i : nat) : Prop :=
  ∃ a, args !! i = Some a ∧
       ((a = option ∧ is_Some (args !! S i)) ∨ starts_with a (option +:+ "=") = true).

(** The value that the occurrence at position [i] carries. *)
Definition value_at (option : string) (args : list string) (i : nat) : string :=
  match args !! i with
  | Some a =>
      if String.eqb a option then default "" (args !! S i)
      else substr_from (String.length option + 1) a
  | None => ""
  end.

(** Position [i] holds the last occurrence. *)
Definition last_occurrence (option : string) (args : list string) (i : nat) : Prop :=
  occurs_at option args i ∧ ∀ j, i < j → ¬ occurs_at option args j.

(** No occurrence of the form [--option value] has an occurrence as
    its value. *)
Definition no_overlap (option : string) (args : list string) : Prop :=
  ∀ i, args !! i = Some option → ¬ occurs_at option args (S i).

(** The statement about [parse_opt (option, out_s)] under test: every
    occurrence is removed, the result tells whether there was one, and
    [out_s] ends as the value of the last occurrence in the list. *)
Definition parse_opt_claim (option out : string) (ap : t) : Prop :=
  let r := parse_opt option out ap in
  (∀ i, ¬ occurs_at option (m_args r.2) i) ∧
  (r.1.1 = true ↔ ∃ i, occurs_at option (m_args ap) i) ∧
  (∀ i, last_occurrence option (m_args ap) i → r.1.2 = value_at option (m_args ap) i).

(** The arguments that the loop keeps, the last value it stores and
    whether it stores one, by recursion on the part of the vector that
    the iterator has not reached. *)
Fixpoint scan (option : string) (rest : list string) (out : string) (found : bool)
  : list string * string * bool :=
  match rest with
  | [] => ([], out, found)
  | a :: tl =>
      match String.eqb a option, tl with
      | true, nxt :: tl' => scan option tl' nxt true
      | _, _ =>
          if starts_with a (option +:+ "=") then
            scan option tl (substr_from (String.length option + 1) a) true
          else
            let '(kept, out', found') := scan option tl out found in
            (a :: kept, out', found')
      end
  end.

End ArgSpec.

(** ** What the parser finds on a command line *)

(** [parse_opt (option, out_s)] and [parse_opt (option)] on a parser:
    whether the option is found, its value, the parser left. *)
Definition given (opt : string) (a : ArgParser.t) : bool :=
  (ArgParser.parse_opt opt "" a).1.1.
Definition value_of (opt : string) (a : ArgParser.t) : string :=
  (ArgParser.parse_opt opt "" a).1.2.
Definition after (opt : string) (a : ArgParser.t) : ArgParser.t :=
  (ArgParser.parse_opt opt "" a).2.
Definition flag_given (opt : string) (a : ArgParser.t) : bool :=
  (ArgParser.parse_flag opt a).1.
Definition after_flag (opt : string) (a : ArgParser.t) : ArgParser.t :=
  (ArgParser.parse_flag opt a).2.

(** The key sources as [parse_shared_options] meets them: "--strength"
    is parsed first, then "--key", then "--test-key", then "--short". *)
Definition key_file_given (a : ArgParser.t) : bool :=
  given "--key" (after "--strength" a).
Definition test_key_given (a : ArgParser.t) : bool :=
  given "--test-key" (after "--key" (after "--strength" a)).

(** "--short" is given with a size that [short_code_init] refuses. *)
Definition short_rejected (short_code_init : Z → bool) (a : ArgParser.t) : bool :=
  let a' := after "--test-key" (after "--key" (after "--strength" a)) in
  given "--short" a' && negb (short_code_init (wrap64 (Libc.atoi (value_of "--short" a')))).

(** The parser that [parse_shared_options] leaves when it returns. *)
Definition after_shared_options (a : ArgParser.t) : ArgParser.t :=
  after_flag "--linear"
    (after "--frames-per-bit"
       (after "--short" (after "--test-key" (after "--key" (after "--strength" a))))).

(** The events of [parse_shared_options] that register keys. *)
Definition key_events (a : ArgParser.t) : list event :=
  let a1 := after "--strength" a in
  (if given "--key" a1 then [LoadGlobalKey (value_of "--key" a1)] else [])
  ++ (if given "--test-key" (after "--key" a1)
      then [SetGlobalTestKey (Libc.atoi (value_of "--test-key" (after "--key" a1)))]
      else []).

(** The commands that call [parse_shared_options]. *)
Definition shared_commands : list string :=
  ["hls-add"; "add"; "get"; "cmp"; "test-clip"; "test-speed"; "test-gen-noise";
   "test-change-speed"; "test-resample"].

(** The speed options as [parse_get_options] meets them, after
    "--test-cut", "--test-truncate", "--hard" and "--test-no-sync". *)
Definition before_speed_options (a : ArgParser.t) : ArgParser.t :=
  after_flag "--test-no-sync"
    (after_flag "--hard" (after "--test-truncate" (after "--test-cut" a))).

Definition speed_options_given (a : ArgParser.t) : Z :=
  let a4 := before_speed_options a in
  let a5 := after_flag "--detect-speed" a4 in
  let a6 := after_flag "--detect-speed-patient" a5 in
  incr_if (given "--try-speed" a6)
    (incr_if (flag_given "--detect-speed-patient" a5)
       (incr_if (flag_given "--detect-speed" a4) 0)).

(** The parser that [parse_get_options] leaves when it returns. *)
Definition after_get_options (a : ArgParser.t) : ArgParser.t :=
  after "--json"
    (after "--test-speed"
       (after "--try-speed"
          (after_flag "--detect-speed-patient"
             (after_flag "--detect-speed" (before_speed_options a))))).

(** ** Judgements on computations *)

Definition have_key (s : state) : Z := get_int "have_key" (params s).

(** From a state with parser [a] and [Params::have_key = h], the
    computation ends with [r], leaves the parser [a'] and
    [Params::have_key = h'], and appends the events [evs]. *)
Definition step {A} (m : M A) (a : ArgParser.t) (h : Z)
    (r : result A) (a' : ArgParser.t) (h' : Z) (evs : list event) : Prop :=
  ∀ s, ap s = a → have_key s = h →
       (m s).1 = r ∧ ap (m s).2 = a' ∧ have_key (m s).2 = h' ∧ trace (m s).2 = trace s ++ evs.

(** The computation only appends events, all of them in [P]. *)
Definition emits {A} (P : event → Prop) (m : M A) : Prop :=
  ∀ s, ∃ evs, trace (m s).2 = trace s ++ evs ∧ Forall P evs.

(** ** Instances used in examples *)

(** A short code for the payload sizes 12, 16 and 20. *)
Definition short_code_12_16_20 (size : Z) : bool :=
  bool_decide (size = 12 ∨ size = 16 ∨ size = 20)%Z.

(** The statement about key sources under test, on a run of [main]:
    with both sources given, the key conflict is reported, the status is
    1, and nothing else happened but the registration of the keys. *)
Definition key_conflict_claim (atof : string → Q) (short_code_init : Z → bool)
    (run : Cmd.t → Z) (VERSION : string) (argv : list string) : Prop :=
  let a := ArgParser.mk (tail (tail argv)) (default "" (argv !! 1)) in
  let r := main atof short_code_init run VERSION argv ∅ in
  key_file_given a = true → test_key_given a = true →
  r.1 = 1%Z ∧ trace r.2 = key_events a ++ [Error key_conflict_message []].

(** [Params::have_key] once "--key" and "--test-key" are parsed, from
    the value [h]. *)
Definition keys_counted (h : Z) (a : ArgParser.t) : Z :=
  let h1 := if key_file_given a then (h + 1)%Z else h in
  if test_key_given a then (h1 + 1)%Z else h1.

(** [emits], from the states with parser [a] and [Params::have_key = h]. *)
Definition emits_from {A} (P : event → Prop) (m : M A) (a : ArgParser.t) (h : Z) : Prop :=
  ∀ s, ap s = a → have_key s = h →
       ∃ evs, trace (m s).2 = trace s ++ evs ∧ Forall P evs.

(** The events other than the report of a key conflict. *)
Definition not_key_conflict (e : event) : Prop := e ≠ Error key_conflict_message [].

(** ** Embedder (section 4.3 of the specification)

    [add_watermark] and the files behind it are not part of this
    translation unit: [main] only calls it.  The definitions of this
    module follow the specification. *)

Module Embedder.

(** Modelled from the spec: the signal buffer that the core receives and
    returns (add_watermark's in-memory signal is missing), "an in-memory
    sample buffer with explicit channel count, sample rate, and bit depth". *)
Record signal := Signal {
  samples : list Q;
  channels : nat;
  rate : Z;
  bit_depth : Z
}.

(** Modelled from the spec: the frame and block geometry of FrameCodec
    (missing: wmcommon), "frame_size, sync_frame_count, data_frame_count,
    frames_per_bit". *)
Record geometry := Geometry {
  frame_size : nat;
  sync_frame_count : nat;
  data_frame_count : nat;
  frames_per_bit : nat
}.

(** Modelled from the spec: the stream identifiers that the Embedder
    draws from (missing: random.hh). *)
Inductive stream := sync | data_up_down.

(** Modelled from the spec: the two errors on which the Embedder refuses
    (missing: add_watermark). *)
Inductive error := InputTooShort | GeometryMismatch.

Section Embed.

Variable Key : Type.

(** Modelled from the spec: the Pattern (missing: KeyedRandom), "a
    deterministic function of (Key, stream, frame index)", here with the
    position inside the frame. *)
Variable pattern : Key → stream → nat → nat → Q.

(** Modelled from the spec: the per-frame loudness reference (missing:
    add_watermark). *)
Variable loudness : list Q → Q.

Variable g : geometry.

(** Modelled from the spec: a Block is [sync_frame_count] sync frames and
    [data_frame_count] data frames (missing: wmcommon). *)
Definition block_frames : nat := sync_frame_count g + data_frame_count g.

(** Modelled from the spec: the samples of one frame and of one block,
    all channels together (missing: wmcommon). *)
Definition frame_length (s : signal) : nat := frame_size g * channels s.
Definition block_length (s : signal) : nat := block_frames * frame_length s.

(** Modelled from the spec: the role of a frame, sync or data, and for a
    data frame the payload bit it carries, each bit being spread over
    [frames_per_bit] frames (missing: FrameCodec). *)
Definition role (frame : nat) : stream * nat :=
  let r := frame mod block_frames in
  if r <? sync_frame_count g then (sync, 0)
  else (data_up_down, (r - sync_frame_count g) / frames_per_bit g).

(** Modelled from the spec: the up/down scheme (missing: add_watermark);
    a sync frame does not depend on the payload. *)
Definition direction (message : list bool) (frame : nat) : Q :=
  match role frame with
  | (sync, _) => 1%Q
  | (data_up_down, bit) => if default false (message !! bit) then 1%Q else (-1)%Q
  end.

Definition frame_samples (s : signal) (frame : nat) : list Q :=
  take (frame_length s) (drop (frame * frame_length s) (samples s)).

(** Modelled from the spec: "a signed perturbation proportional to
    strength and to a per-frame loudness reference" (missing:
    add_watermark), for the sample at position [i]. *)
Definition perturbation (s : signal) (message : list bool) (k : Key) (strength : Q)
    (i : nat) : Q :=
  let frame := i / frame_length s in
  (strength * loudness (frame_samples s frame) * direction message frame
   * pattern k (role frame).1 frame (i mod frame_length s))%Q.

(** Modelled from the spec: the modulation adds the perturbation
    (missing: add_watermark). *)
Definition modulate (s : signal) (message : list bool) (k : Key) (strength : Q) : list Q :=
  imap (λ i x, x + perturbation s message k strength i)%Q (samples s).

(** Modelled from the spec: the limiter clamps the amplitude to the
    valid sample range and can be switched off (missing: the limiter of
    add_watermark). *)
Definition clamp (x : Q) : Q :=
  if Qle_bool x (-1) then (-1)%Q else if Qle_bool 1 x then 1%Q else x.
Definition limiter (enabled : bool) (l : list Q) : list Q :=
  if enabled then map clamp l else l.

(** Modelled from the spec: the payload width matches the geometry
    (missing: add_watermark). *)
Definition payload_fits (message : list bool) : bool :=
  length message * frames_per_bit g =? data_frame_count g.

(** Modelled from the spec: [embed (signal, message, key, strength)]
    (missing: add_watermark); it refuses an input shorter than one Block
    and a payload that does not match the geometry. *)
Definition embed (limit : bool) (s : signal) (message : list bool) (k : Key)
    (strength : Q) : error + signal :=
  if length (samples s) <? block_length s then inl InputTooShort
  else if negb (payload_fits message) then inl GeometryMismatch
  else inr (Signal (limiter limit (modulate s message k strength))
                   (channels s) (rate s) (bit_depth s)).

End Embed.

End Embedder.

(** The events that any part of the driver can produce. *)
Definition ordinary (P : event → Prop) : Prop :=
  (∀ fmt v args, P (Error fmt (v :: args))) ∧ (∀ c, P (Run c)).

(** The statement about [test_gen_noise] under test: two channels, 16
    bits, the requested rate, [floor (rate * seconds)] frames, and every
    sample in [-1, 1). *)
Definition test_gen_noise_claim (random_double : Z → nat → Q) (saved : bool)
    (seconds : Q) (rate : Z) : Prop :=
  let w := (test_gen_noise random_double saved seconds rate).2 in
  n_channels w = 2%Z ∧ bit_depth w = 16%Z ∧ sample_rate w = rate ∧
  n_frames w = Qfloor (Float.double (inject_Z rate * seconds)) ∧
  Forall (λ x, -1 <= x ∧ x < 1)%Q (samples w).

(** * Further vocabulary *)

(** ** Arguments that option parsing looks at *)

(** The argument is the option itself or has the form [--option=value]. *)
Definition mentions (option a : string) : Prop :=
  a = option ∨ ArgParser.starts_with a (option +:+ "=") = true.

(** No argument of the list is an option in the sense of [is_option]. *)
Definition positional (args : list string) : Prop :=
  Forall (λ a, is_option a = false) args.

(** ** Judgements on the driver *)

(** The options that the driver parses with a value, and those that it
    parses as flags. *)
Definition value_options : list string :=
  ["--strength"; "--key"; "--test-key"; "--short"; "--frames-per-bit"; "--bit-rate";
   "--set-input-label"; "--set-output-label"; "--input-format"; "--output-format";
   "--format"; "--raw-input-bits"; "--raw-output-bits"; "--raw-bits";
   "--raw-input-endian"; "--raw-output-endian"; "--raw-endian";
   "--raw-input-encoding"; "--raw-output-encoding"; "--raw-encoding";
   "--raw-channels"; "--raw-rate"; "--test-cut"; "--test-truncate"; "--try-speed";
   "--test-speed"; "--json"; "--expect-matches"].

Definition flag_options : list string :=
  ["--help"; "-h"; "--help-hls"; "--version"; "-v"; "--quiet"; "-q"; "--strict";
   "--linear"; "--snr"; "--test-no-limiter"; "--hard"; "--test-no-sync";
   "--detect-speed"; "--detect-speed-patient"].

(** The options that [main] parses before it looks for the command. *)
Definition global_flags : list string :=
  ["--help"; "-h"; "--help-hls"; "--version"; "-v"; "--quiet"; "-q"; "--strict"].

(** The arguments hold no occurrence of an option with a value and no
    flag: no call of [parse_opt] of the driver finds anything in them. *)
Definition inert (args : list string) : Prop :=
  (∀ opt, opt ∈ value_options → ∀ i, ¬ ArgSpec.occurs_at opt args i) ∧
  (∀ opt, opt ∈ flag_options → opt ∉ args).

(** The computation returns [x] and changes nothing, on every state
    whose remaining arguments are inert and in which at most one key is
    registered. *)
Definition quiet {A} (m : M A) (x : A) : Prop :=
  ∀ s, inert (ArgParser.m_args (ap s)) → (have_key s ≤ 1)%Z → m s = (Ret x, s).

(** An event other than the entry into a command. *)
Definition not_run (e : event) : Prop := ∀ c, e ≠ Run c.

(** What [main] prints on request. *)
Definition information (VERSION : string) (e : event) : Prop :=
  e = PrintUsage ∨ e = PrintUsageHls ∨ e = Printf "audiowmark %s\n" [VStr VERSION].

(** The ways in which a run of the driver ends, with its status and the
    events of the run: a command is entered last and gives the status; or
    an error is reported last and the status is 1; or the usage or the
    version is printed last and the status is 0. *)
Inductive ending (run : Cmd.t → Z) (VERSION : string) : Z → list event → Prop :=
| ending_command pre c :
    Forall not_run pre → ending run VERSION (run c) (pre ++ [Run c])
| ending_error pre fmt args :
    Forall not_run pre → ending run VERSION 1 (pre ++ [Error fmt args])
| ending_information pre e :
    Forall not_run pre → information VERSION e → ending run VERSION 0 (pre ++ [e]).

(** The computation enters no command if it returns, and ends in one of
    the three ways if it leaves the process. *)
Definition returns_or_ends {A} (run : Cmd.t → Z) (VERSION : string) (m : M A) : Prop :=
  ∀ s, ∃ evs, trace (m s).2 = trace s ++ evs ∧
       match (m s).1 with
       | Ret _ => Forall not_run evs
       | Exit status => ending run VERSION status evs
       end.

(** The computation leaves the process, in one of the three ways. *)
Definition ends {A} (run : Cmd.t → Z) (VERSION : string) (m : M A) : Prop :=
  ∀ s, ∃ evs status,
    (m s).1 = Exit status ∧ trace (m s).2 = trace s ++ evs ∧ ending run VERSION status evs.

(** The computation reports nothing if it returns; if it leaves the
    process, the status is 1 and it has reported one event, in [P]. *)
Definition fails_with {A} (P : event → Prop) (m : M A) : Prop :=
  ∀ s, match (m s).1 with
       | Ret _ => trace (m s).2 = trace s
       | Exit status => status = 1%Z ∧ ∃ e, P e ∧ trace (m s).2 = trace s ++ [e]
       end.

(** The reports of [parse_format], [parse_endian] and [parse_encoding],
    each on a value that is none of the two that the function knows. *)
Definition unsupported_value (e : event) : Prop :=
  ∃ str,
    (e = Error "audiowmark: unsupported format '%s'\n" [VStr str]
     ∧ str ∉ ["raw"; "auto"])
    ∨ (e = Error "audiowmark: unsupported endianness '%s'\n" [VStr str]
       ∧ str ∉ ["little"; "big"])
    ∨ (e = Error "audiowmark: unsupported encoding '%s'\n" [VStr str]
       ∧ str ∉ ["signed"; "unsigned"]).

(** ** The commands of [main] *)

(** Each command with the names of its positional arguments and the
    function that [main] calls on them. *)
Definition command_table (atof : string → Q)
  : list (string * list string * (list string → Cmd.t)) :=
  [("hls-add", ["input_ts"; "output_ts"; "message_hex"],
    λ args, Cmd.hls_add (arg 0 args) (arg 1 args) (arg 2 args));
   ("hls-prepare", ["input_dir"; "output_dir"; "playlist_name"; "audio_master"],
    λ args, Cmd.hls_prepare (arg 0 args) (arg 1 args) (arg 2 args) (arg 3 args));
   ("add", ["input_wav"; "watermarked_wav"; "message_hex"],
    λ args, Cmd.add_watermark (arg 0 args) (arg 1 args) (arg 2 args));
   ("get", ["watermarked_wav"],
    λ args, Cmd.get_watermark (arg 0 args) "");
   ("cmp", ["watermarked_wav"; "message_hex"],
    λ args, Cmd.get_watermark (arg 0 args) (arg 1 args));
   ("gen-key", ["key_file"],
    λ args, Cmd.gen_key (arg 0 args));
   ("gentest", ["input_wav"; "output_wav"],
    λ args, Cmd.gentest (arg 0 args) (arg 1 args));
   ("cut-start", ["input_wav"; "output_wav"; "cut_samples"],
    λ args, Cmd.cut_start (arg 0 args) (arg 1 args) (arg 2 args));
   ("test-subtract", ["input1_wav"; "input2_wav"; "output_wav"],
    λ args, Cmd.test_subtract (arg 0 args) (arg 1 args) (arg 2 args));
   ("test-snr", ["orig_wav"; "watermarked_wav"],
    λ args, Cmd.test_snr (arg 0 args) (arg 1 args));
   ("test-clip", ["input_wav"; "output_wav"; "seed"; "seconds"],
    λ args, Cmd.test_clip (arg 0 args) (arg 1 args)
              (Libc.atoi (arg 2 args)) (Libc.atoi (arg 3 args)));
   ("test-speed", ["seed"],
    λ args, Cmd.test_speed (Libc.atoi (arg 0 args)));
   ("test-gen-noise", ["output_wav"; "seconds"; "sample_rate"],
    λ args, Cmd.test_gen_noise (arg 0 args) (atof (arg 1 args)) (Libc.atoi (arg 2 args)));
   ("test-change-speed", ["input_wav"; "output_wav"; "speed"],
    λ args, Cmd.test_change_speed (arg 0 args) (arg 1 args) (atof (arg 2 args)));
   ("test-resample", ["input_wav"; "output_wav"; "new_rate"],
    λ args, Cmd.test_resample (arg 0 args) (arg 1 args) (Libc.atoi (arg 2 args)))].

(** The command words. *)
Definition commands : list string := (command_table (λ _, 0%Q)).*1.*1.

(** The commands that parse no option of their own. *)
Definition plain_commands : list string :=
  ["gen-key"; "gentest"; "cut-start"; "test-subtract"; "test-snr"].

(** The usage line that [parse_positional] builds. *)
Definition usage_line (command : string) (vs : list string) : string :=
  foldl (λ msg s, msg +:+ " <" +:+ s +:+ ">")
        ("usage: audiowmark " +:+ command +:+ " [options...]") vs.

(** ** Further commands on audio data

    For these commands, [loaded] is what [WavData::load] produced, the
    data or the message of its error, and [saved] the message of the error
    of [WavData::save], if any.  The result is the status, the data handed
    to [save] (if the command came so far) and what was printed and
    reported. *)

(** [for (size_t i = 0; i < n; i++) out.push_back (in[i + offset])], for
    indices that stay below [in.size ()]. *)
Definition copy_range (offset n : Z) (v : list Q) : list Q :=
  take (Z.to_nat n) (drop (Z.to_nat offset) v).

(** [gentest]: the first 165 seconds.  The products of [int]s are taken
    exactly (C++ defines no result when they overflow) and converted to
    [size_t]. *)
Definition gentest (loaded : string + WavData) (saved : option string)
    (infile outfile : string) : Z * option WavData * list event :=
  let banner :=
    Printf "generating test sample from '%s' to '%s'\n" [VStr infile; VStr outfile] in
  match loaded with
  | inl message =>
      (1%Z, None,
       [banner; Error "audiowmark: error loading %s: %s\n" [VStr infile; VStr message]])
  | inr wav_data =>
      let in_signal := samples wav_data in
      let offset := wrap64 (0 * n_channels wav_data * sample_rate wav_data) in
      let n_samples := wrap64 (165 * n_channels wav_data * sample_rate wav_data) in
      if (n_values wav_data <? wrap64 (offset + n_samples))%Z then
        (1%Z, None, [banner; Error "audiowmark: input file %s too short\n" [VStr infile]])
      else
        let out_signal := copy_range offset n_samples in_signal in
        let out_wav_data :=
          MkWavData out_signal (n_channels wav_data) (sample_rate wav_data)
                    (bit_depth wav_data) in
        match saved with
        | Some message =>
            (1%Z, Some out_wav_data,
             [banner; Error "audiowmark: error saving %s: %s\n" [VStr outfile; VStr message]])
        | None => (0%Z, Some out_wav_data, [banner])
        end
  end.

(** [cut_start]: the loop copies [in_signal[i]] from
    [i = start * n_channels] up to the end. *)
Definition cut_start (loaded : string + WavData) (saved : option string)
    (infile outfile start_str : string) : Z * option WavData * list event :=
  match loaded with
  | inl message =>
      (1%Z, None, [Error "audiowmark: error loading %s: %s\n" [VStr infile; VStr message]])
  | inr wav_data =>
      let start := wrap64 (Libc.atoi start_str) in
      let in_signal := samples wav_data in
      let first := wrap64 (start * wrap64 (n_channels wav_data)) in
      let out_signal := drop (Z.to_nat first) in_signal in
      let out_wav_data :=
        MkWavData out_signal (n_channels wav_data) (sample_rate wav_data)
                  (bit_depth wav_data) in
      match saved with
      | Some message =>
          (1%Z, Some out_wav_data,
           [Error "audiowmark: error saving %s: %s\n" [VStr outfile; VStr message]])
      | None => (0%Z, Some out_wav_data, [])
      end
  end.

(** What [test_subtract] writes to the log: [error (...)] and
    [warning (...)]. *)
Inductive message :=
| ErrorMessage (fmt : string) (args : list value)
| WarningMessage (fmt : string) (args : list value).

Definition is_warning (m : message) : Prop := ∃ fmt args, m = WarningMessage fmt args.

(** A command returns a status, or is aborted by a failed [assert]. *)
Inductive outcome :=
| Returned (status : Z)
| Aborted.

(** [test_subtract]: the difference of two signals, sample by sample in
    single precision, over the length of the shorter one. *)
Definition test_subtract (loaded1 loaded2 : string + WavData) (saved : option string)
    (infile1 infile2 outfile : string) : outcome * option WavData * list message :=
  match loaded1 with
  | inl message =>
      (Returned 1, None,
       [ErrorMessage "audiowmark: error loading %s: %s\n" [VStr infile1; VStr message]])
  | inr in1_data =>
      match loaded2 with
      | inl message =>
          (Returned 1, None,
           [ErrorMessage "audiowmark: error loading %s: %s\n" [VStr infile2; VStr message]])
      | inr in2_data =>
          let warnings :=
            if bool_decide (n_values in1_data ≠ n_values in2_data) then
              let l1 := n_values in1_data in
              let l2 := n_values in2_data in
              let delta := wrap64 (Z.abs (l1 - l2)) in
              [WarningMessage "audiowmark: size mismatch: %zd frames\n"
                 [VInt (delta / wrap64 (n_channels in1_data))];
               WarningMessage " - %s frames: %zd\n"
                 [VStr infile1; VInt (n_values in1_data / wrap64 (n_channels in1_data))];
               WarningMessage " - %s frames: %zd\n"
                 [VStr infile2; VInt (n_values in2_data / wrap64 (n_channels in2_data))]]
            else [] in
          if bool_decide (n_channels in1_data = n_channels in2_data) then
            let len := Z.min (n_values in1_data) (n_values in2_data) in
            let out_signal :=
              zip_with (λ x1 x2, Float.single (x1 - x2))
                       (take (Z.to_nat len) (samples in1_data))
                       (take (Z.to_nat len) (samples in2_data)) in
            let out_wav_data :=
              MkWavData out_signal (n_channels in1_data) (sample_rate in1_data)
                        (bit_depth in1_data) in
            match saved with
            | Some message =>
                (Returned 1, Some out_wav_data,
                 warnings ++ [ErrorMessage "audiowmark: error saving %s: %s\n"
                                [VStr outfile; VStr message]])
            | None => (Returned 0, Some out_wav_data, warnings)
            end
          else (Aborted, None, warnings)
      end
  end.

(** * Facts *)

(** ** Floating point *)

Module FloatFacts.
Import Float.
Local Open Scope Q_scope.

Lemma pow2_pos e : 0 < pow2 e.
Proof. apply Qpower_0_lt. reflexivity. Qed.

Lemma pow2_add a b : pow2 (a + b) == pow2 a * pow2 b.
Proof. apply Qpower_plus. discriminate. Qed.

Lemma pow2_le a b : (a <= b)%Z -> pow2 a <= pow2 b.
Proof. intros; apply Qpower_le_compat_l; [lia | discriminate]. Qed.

Lemma pow2_lt_inv a b : pow2 a < pow2 b -> (a < b)%Z.
Proof. intros; apply Qpower_lt_compat_l_inv with 2; auto. reflexivity. Qed.

Lemma pow2_Z n : (0 <= n)%Z -> pow2 n == inject_Z (2 ^ n).
Proof. intros; symmetry; apply Zpower_Qpower; auto. Qed.

Lemma pow2_succ a : pow2 (a + 1) == 2 * pow2 a.
Proof. rewrite pow2_add. unfold pow2 at 2. simpl. lra. Qed.

Lemma ilog2_spec x : 0 < x -> pow2 (ilog2 x) <= x /\ x < pow2 (ilog2 x + 1).
Proof.
  intros Hx. destruct x as [n d]. unfold ilog2. cbn [Qnum Qden].
  assert (Hn : (0 < n)%Z) by (unfold Qlt in Hx; simpl in Hx; lia).
  set (a := Z.log2 n). set (b := Z.log2 (Z.pos d)).
  destruct (Z.log2_spec n Hn) as [Ha1 Ha2]. fold a in Ha1, Ha2.
  destruct (Z.log2_spec (Z.pos d) ltac:(lia)) as [Hb1 Hb2]. fold b in Hb1, Hb2.
  assert (Ha0 : (0 <= a)%Z) by apply Z.log2_nonneg.
  assert (Hb0 : (0 <= b)%Z) by apply Z.log2_nonneg.
  assert (HA : pow2 (a - b) * inject_Z (2 ^ b) == inject_Z (2 ^ a)).
  { rewrite <- !pow2_Z by lia. rewrite <- pow2_add. replace (a - b + b)%Z with a by lia. reflexivity. }
  assert (HX : (n # d) * inject_Z (Z.pos d) == inject_Z n).
  { unfold Qeq, Qmult, inject_Z; simpl. lia. }
  assert (HD : 0 < inject_Z (Z.pos d)) by (unfold Qlt, inject_Z; simpl; lia).
  assert (HB : 0 < inject_Z (2 ^ b)) by (unfold Qlt, inject_Z; simpl; lia).
  assert (Hbd1 : inject_Z (2 ^ b) <= inject_Z (Z.pos d)) by (rewrite <- Zle_Qle; lia).
  assert (Hbd2 : inject_Z (Z.pos d) < 2 * inject_Z (2 ^ b)).
  { replace 2 with (inject_Z 2) by reflexivity. rewrite <- inject_Z_mult, <- Zlt_Qlt.
    replace (Z.succ b) with (b + 1)%Z in Hb2 by lia. rewrite Z.pow_add_r in Hb2 by lia. lia. }
  assert (Han1 : inject_Z (2 ^ a) <= inject_Z n) by (rewrite <- Zle_Qle; lia).
  assert (Han2 : inject_Z n < 2 * inject_Z (2 ^ a)).
  { replace 2 with (inject_Z 2) by reflexivity. rewrite <- inject_Z_mult, <- Zlt_Qlt.
    replace (Z.succ a) with (a + 1)%Z in Ha2 by lia. rewrite Z.pow_add_r in Ha2 by lia. lia. }
  pose proof (pow2_pos (a - b)) as HP.
  destruct (Qle_bool (pow2 (a - b)) (n # d)) eqn:E.
  - apply Qle_bool_iff in E. split; [exact E|].
    rewrite pow2_succ.
    apply Qnot_le_lt. intros Hc. nra.
  - assert (E' : (n # d) < pow2 (a - b)).
    { apply Qnot_le_lt. intros Hc. apply Qle_bool_iff in Hc. congruence. }
    replace (a - b - 1 + 1)%Z with (a - b)%Z by lia. split; [|exact E'].
    assert (H2 : pow2 (a - b) == 2 * pow2 (a - b - 1)).
    { rewrite <- pow2_succ. replace (a - b - 1 + 1)%Z with (a - b)%Z by lia. reflexivity. }
    apply Qnot_lt_le. intros Hc. nra.
Qed.

Lemma ilog2_mono x y : 0 < x -> x <= y -> (ilog2 x <= ilog2 y)%Z.
Proof.
  intros Hx Hxy.
  destruct (ilog2_spec x Hx) as [H1 _].
  destruct (ilog2_spec y ltac:(lra)) as [_ H2].
  assert (H : pow2 (ilog2 x) < pow2 (ilog2 y + 1)) by lra.
  apply pow2_lt_inv in H. lia.
Qed.

Lemma rne_bounds x : (Qfloor x <= rne x <= Qfloor x + 1)%Z.
Proof.
  unfold rne. destruct (x - inject_Z (Qfloor x) ?= 1 # 2); [destruct (Z.even _)| |]; lia.
Qed.

Lemma rne_mono x y : x <= y -> (rne x <= rne y)%Z.
Proof.
  intros Hxy. pose proof (Qfloor_resp_le _ _ Hxy) as Hf.
  destruct (Z.eq_dec (Qfloor x) (Qfloor y)) as [E|NE].
  - unfold rne. rewrite <- E.
    destruct (Qcompare_spec (x - inject_Z (Qfloor x)) (1 # 2)) as [H1|H1|H1];
    destruct (Qcompare_spec (y - inject_Z (Qfloor x)) (1 # 2)) as [H2|H2|H2];
    try destruct (Z.even (Qfloor x)); try lia; exfalso; lra.
  - pose proof (rne_bounds x). pose proof (rne_bounds y). lia.
Qed.

Lemma rne_inject_Z n : rne (inject_Z n) = n.
Proof.
  unfold rne. rewrite Qfloor_Z.
  destruct (Qcompare_spec (inject_Z n - inject_Z n) (1 # 2)) as [H|H|H];
    [exfalso; lra | reflexivity | exfalso; lra].
Qed.

Lemma rne_comp x y : x == y -> rne x = rne y.
Proof.
  intros E. apply Z.le_antisymm; apply rne_mono; lra.
Qed.

Section Rounding.
Variable fmt : format.
Hypothesis prec_pos : (1 <= prec fmt)%Z.

Lemma round_mag_nonneg x : 0 <= x -> 0 <= round_mag fmt x.
Proof.
  intros Hx. unfold round_mag.
  pose proof (pow2_pos (quantum fmt x)) as HP.
  assert (H : (0 <= rne (x / pow2 (quantum fmt x)))%Z).
  { rewrite <- (rne_inject_Z 0). apply rne_mono. apply Qle_shift_div_l; [exact HP |].
    change (inject_Z 0) with 0. lra. }
  rewrite Zle_Qle in H; change (inject_Z 0) with 0 in H. nra.
Qed.

Lemma quantum_mono x y : 0 < x -> x <= y -> (quantum fmt x <= quantum fmt y)%Z.
Proof. intros Hx Hxy. unfold quantum. pose proof (ilog2_mono x y Hx Hxy). lia. Qed.

Lemma round_mag_mono x y : 0 <= x -> x <= y -> round_mag fmt x <= round_mag fmt y.
Proof.
  intros Hx0 Hxy.
  destruct (Qlt_le_dec 0 x) as [Hx|Hx].
  2:{ assert (E : x == 0) by lra.
      assert (R : round_mag fmt x == 0).
      { unfold round_mag. rewrite (rne_comp _ (inject_Z 0)).
        - rewrite rne_inject_Z. change (inject_Z 0) with 0. lra.
        - change (inject_Z 0) with 0. unfold Qdiv.
          rewrite (Qmult_comp _ _ E _ _ (Qeq_refl _)). lra. }
      rewrite R. apply round_mag_nonneg. lra. }
  pose proof (quantum_mono x y Hx Hxy) as Hq.
  assert (Qx : quantum fmt x = Z.max (ilog2 x - (prec fmt - 1)) (emin fmt)) by reflexivity.
  assert (Qy : quantum fmt y = Z.max (ilog2 y - (prec fmt - 1)) (emin fmt)) by reflexivity.
  unfold round_mag.
  set (ex := quantum fmt x) in *. set (ey := quantum fmt y) in *.
  pose proof (pow2_pos ex) as Pex. pose proof (pow2_pos ey) as Pey.
  destruct (Z.eq_dec ex ey) as [E|NE].
  - rewrite <- E.
    assert (H : (rne (x / pow2 ex) <= rne (y / pow2 ex))%Z).
    { apply rne_mono. apply Qle_shift_div_l; [exact Pex|].
      unfold Qdiv. rewrite <- Qmult_assoc, (Qmult_comm (/ _)), Qmult_inv_r; lra. }
    rewrite Zle_Qle in H; change (inject_Z 0) with 0 in H. nra.
  - set (p := prec fmt) in *.
    assert (Hey : ey = (ilog2 y - (p - 1))%Z) by lia.
    assert (Hex : (ilog2 x - (p - 1) <= ex)%Z) by lia.
    destruct (ilog2_spec x Hx) as [_ Hx2].
    destruct (ilog2_spec y ltac:(lra)) as [Hy1 _].
    (* upper bound for the rounding of x *)
    assert (U : inject_Z (rne (x / pow2 ex)) * pow2 ex <= pow2 (p + ex)).
    { assert (H : (rne (x / pow2 ex) <= 2 ^ p)%Z).
      { rewrite <- (rne_inject_Z (2 ^ p)). apply rne_mono.
        apply Qle_shift_div_r; [exact Pex|].
        rewrite <- pow2_Z by lia. rewrite <- pow2_add.
        pose proof (pow2_le (ilog2 x + 1) (p + ex) ltac:(lia)). lra. }
      rewrite Zle_Qle in H; change (inject_Z 0) with 0 in H. rewrite pow2_add. rewrite (pow2_Z p) by lia. nra. }
    assert (L : pow2 (ilog2 y) <= inject_Z (rne (y / pow2 ey)) * pow2 ey).
    { assert (H : (2 ^ (p - 1) <= rne (y / pow2 ey))%Z).
      { rewrite <- (rne_inject_Z (2 ^ (p - 1))). apply rne_mono.
        apply Qle_shift_div_l; [exact Pey|].
        rewrite <- pow2_Z by lia. rewrite <- pow2_add.
        replace (p - 1 + ey)%Z with (ilog2 y) by lia. exact Hy1. }
      rewrite Zle_Qle in H; change (inject_Z 0) with 0 in H.
      replace (ilog2 y) with (p - 1 + ey)%Z by lia.
      rewrite pow2_add. rewrite (pow2_Z (p - 1)) by lia. nra. }
    pose proof (pow2_le (p + ex) (ilog2 y) ltac:(lia)). lra.
Qed.

Lemma round_mono x y : x <= y -> round fmt x <= round fmt y.
Proof.
  intros Hxy. unfold round.
  destruct (Qle_bool 0 x) eqn:Ex; destruct (Qle_bool 0 y) eqn:Ey.
  - apply Qle_bool_iff in Ex. apply round_mag_mono; auto.
  - apply Qle_bool_iff in Ex.
    assert (~ 0 <= y) by (intros Hc; apply Qle_bool_iff in Hc; congruence). lra.
  - assert (~ 0 <= x) by (intros Hc; apply Qle_bool_iff in Hc; congruence).
    apply Qle_bool_iff in Ey.
    pose proof (round_mag_nonneg (- x) ltac:(lra)).
    pose proof (round_mag_nonneg y Ey). lra.
  - assert (~ 0 <= x) by (intros Hc; apply Qle_bool_iff in Hc; congruence).
    assert (~ 0 <= y) by (intros Hc; apply Qle_bool_iff in Hc; congruence).
    pose proof (round_mag_mono (- y) (- x) ltac:(lra) ltac:(lra)). lra.
Qed.
End Rounding.

Lemma double_mono x y : x <= y -> double x <= double y.
Proof. apply round_mono. simpl. lia. Qed.

Lemma single_mono x y : x <= y -> single x <= single y.
Proof. apply round_mono. simpl. lia. Qed.

Lemma trunc_nonneg x : 0 <= x -> trunc x = Qfloor x.
Proof. intros H. unfold trunc. apply Qle_bool_iff in H. by rewrite H. Qed.

Lemma trunc_mono_nonneg x y : 0 <= x -> x <= y -> (trunc x <= trunc y)%Z.
Proof.
  intros Hx Hxy. rewrite !trunc_nonneg by lra. by apply Qfloor_resp_le.
Qed.
End FloatFacts.

(** *** [Float.round] against the Standard Library's IEEE 754 operations

    The constants and operations of [test_speed] and [test_gen_noise],
    computed by [SFdiv], [SFsub], [SFadd], [SFmul] and [binary_normalize]
    of [SpecFloat], give the same rationals. *)

Example double_of_uint64_max :
  Qeq_bool (Float.double (inject_Z UINT64_MAX)) (Float.SF2Q (Float.Z2SF UINT64_MAX)) = true.
Proof. vm_compute. reflexivity. Qed.

Example double_of_decimal_literals :
  Qeq_bool speed_low
    (Float.SF2Q (SFdiv 53 1024 (Float.Z2SF 85) (Float.Z2SF 100))) = true ∧
  Qeq_bool speed_high
    (Float.SF2Q (SFdiv 53 1024 (Float.Z2SF 115) (Float.Z2SF 100))) = true.
Proof. split; vm_compute; reflexivity. Qed.

Example double_operations :
  let low := SFdiv 53 1024 (Float.Z2SF 85) (Float.Z2SF 100) in
  let high := SFdiv 53 1024 (Float.Z2SF 115) (Float.Z2SF 100) in
  let third := SFdiv 53 1024 (Float.Z2SF 1) (Float.Z2SF 3) in
  let d := SFsub 53 1024 high low in
  Qeq_bool (Float.double (speed_high - speed_low)) (Float.SF2Q d) = true ∧
  Qeq_bool (Float.double (Float.SF2Q third * Float.SF2Q d))
           (Float.SF2Q (SFmul 53 1024 third d)) = true ∧
  Qeq_bool (Float.double (Float.SF2Q low + Float.SF2Q (SFmul 53 1024 third d)))
           (Float.SF2Q (SFadd 53 1024 low (SFmul 53 1024 third d))) = true ∧
  Qeq_bool (Float.double (-(1 # 3)))
           (Float.SF2Q (SFdiv 53 1024 (Float.Z2SF (-1)) (Float.Z2SF 3))) = true.
Proof. repeat split; vm_compute; reflexivity. Qed.

Example double_subnormal :
  let third := SFdiv 53 1024 (Float.Z2SF 1) (Float.Z2SF 3) in
  let tiny := S754_finite false 1 (-1070) in
  Qeq_bool (Float.double (Float.SF2Q third * Float.SF2Q tiny))
           (Float.SF2Q (SFmul 53 1024 third tiny)) = true.
Proof. vm_compute. reflexivity. Qed.

Example single_of_double :
  Qeq_bool (Float.single (1 - (1 # 2) ^ 52))
           (Float.SF2Q (binary_normalize 24 128 (2 ^ 52 - 1) (-52) false)) = true ∧
  Qeq_bool (Float.single (Float.double (1 # 10)))
           (Float.SF2Q (binary_normalize 24 128 3602879701896397 (-55) false)) = true.
Proof. split; vm_compute; reflexivity. Qed.

(** ** ArgParser *)

Module ArgParserFacts.
Import ArgParser ArgSpec.

Lemma erase_middle (pre mid post : list string) :
  erase (length pre) (length mid) (pre ++ mid ++ post) = pre ++ post.
Proof.
  unfold erase. rewrite take_app_length.
  rewrite drop_app_add'; [|done]. by rewrite drop_app_length.
Qed.

Lemma parse_opt_loop_scan option fuel : ∀ rest pre out found,
  length rest ≤ fuel →
  parse_opt_loop fuel option (OptLoop (length pre) (pre ++ rest) out found)
  = let '(kept, out', found') := scan option rest out found in
    OptLoop (length (pre ++ kept)) (pre ++ kept) out' found'.
Proof.
  induction fuel as [|fuel IH]; intros rest pre out found Hlen.
  - destruct rest; [|simpl in Hlen; lia]. simpl. by rewrite app_nil_r.
  - destruct rest as [|a tl].
    + simpl. rewrite app_nil_r.
      rewrite lookup_ge_None_2; [done | lia].
    + cbn [parse_opt_loop cur_args it].
      rewrite list_lookup_middle; [|done].
      unfold parse_opt_body. cbn [cur_args it out_s found_option].
      assert (Hnext : (pre ++ a :: tl) !! S (length pre) = tl !! 0).
      { rewrite lookup_app_r; [|lia].
        replace (S (length pre) - length pre) with 1 by lia. done. }
      rewrite Hnext. simpl in Hlen.
      assert (Hadv : ∀ o f,
        parse_opt_loop fuel option (OptLoop (S (length pre)) (pre ++ a :: tl) o f)
        = let '(kept, out', found') := scan option tl o f in
          OptLoop (length (pre ++ a :: kept)) (pre ++ a :: kept) out' found').
      { intros o f.
        replace (S (length pre)) with (length (pre ++ [a])) by (rewrite length_app; simpl; lia).
        replace (pre ++ a :: tl) with ((pre ++ [a]) ++ tl) by (by rewrite <- app_assoc).
        rewrite IH by lia. destruct (scan option tl o f) as [[k o'] f'].
        by rewrite <- app_assoc. }
      assert (Hdel1 : erase (length pre) 1 (pre ++ a :: tl) = pre ++ tl).
      { apply (erase_middle pre [a] tl). }
      cbn [scan].
      destruct (String.eqb a option) eqn:Ea; destruct tl as [|nxt tl']; cbn [lookup list_lookup].
      * destruct (starts_with a (option +:+ "=")).
        -- rewrite Hdel1. rewrite IH by (simpl; lia). done.
        -- rewrite Hadv. simpl. done.
      * assert (Hdel2 : erase (length pre) 2 (pre ++ a :: nxt :: tl') = pre ++ tl').
        { apply (erase_middle pre [a; nxt] tl'). }
        rewrite Hdel2. rewrite IH by (simpl in *; lia). done.
      * destruct (starts_with a (option +:+ "=")).
        -- rewrite Hdel1. rewrite IH by (simpl; lia). done.
        -- rewrite Hadv. simpl. done.
      * destruct (starts_with a (option +:+ "=")).
        -- rewrite Hdel1. rewrite IH by (simpl in *; lia). done.
        -- rewrite Hadv. destruct (scan option (nxt :: tl') out found) as [[k o'] f']. done.
Qed.

Lemma parse_opt_scan option out ap :
  parse_opt option out ap
  = let '(kept, out', found') := scan option (m_args ap) out false in
    (found', out', mk kept (m_command ap)).
Proof.
  unfold parse_opt.
  pose proof (parse_opt_loop_scan option (length (m_args ap)) (m_args ap) [] out false) as H.
  simpl in H. rewrite H by lia.
  by destruct (scan option (m_args ap) out false) as [[k o'] f'].
Qed.

Lemma occurs_at_cons option a l i :
  occurs_at option (a :: l) (S i) ↔ occurs_at option l i.
Proof. done. Qed.

Lemma no_overlap_cons option a l : no_overlap option (a :: l) → no_overlap option l.
Proof. intros H i Hi. rewrite <- (occurs_at_cons option a). by apply (H (S i)). Qed.

Lemma length_append (s1 s2 : string) :
  String.length (s1 +:+ s2) = String.length s1 + String.length s2.
Proof. induction s1 as [|c s1 IH]; simpl; [done | by rewrite IH]. Qed.

Lemma length_substring_le (s : string) : ∀ n m,
  String.length (String.substring n m s) ≤ String.length s.
Proof.
  induction s as [|c s IH]; intros [|n] [|m]; simpl; try lia.
  - specialize (IH 0 m). lia.
  - specialize (IH n 0). lia.
  - specialize (IH n (S m)). lia.
Qed.

Lemma starts_with_option option : starts_with option (option +:+ "=") = false.
Proof.
  unfold starts_with. apply String.eqb_neq. intros E.
  apply (f_equal String.length) in E. revert E.
  rewrite length_append. simpl.
  pose proof (length_substring_le option 0 (String.length option + 1)).
  lia.
Qed.

(** A list induction that follows the three moves of the loop. *)
Lemma scan_ind option (P : list string → Prop) :
  P [] →
  (∀ nxt tl, P tl → P (option :: nxt :: tl)) →
  (∀ a tl, starts_with a (option +:+ "=") = true → P tl → P (a :: tl)) →
  (∀ a tl, (a ≠ option ∨ tl = []) → starts_with a (option +:+ "=") = false →
           P tl → P (a :: tl)) →
  ∀ l, P l.
Proof.
  intros Hnil Hpair Heq Hkeep l.
  assert (H : ∀ n l, length l ≤ n → P l).
  { clear l. induction n as [|n IH]; intros l Hl.
    - destruct l; [done | simpl in Hl; lia].
    - destruct l as [|a tl]; [done|]. simpl in Hl.
      destruct (starts_with a (option +:+ "=")) eqn:Es.
      + destruct (String.eqb_spec a option) as [->|Hne].
        * by rewrite starts_with_option in Es.
        * apply Heq; [done | apply IH; lia].
      + destruct (String.eqb_spec a option) as [->|Hne].
        * destruct tl as [|nxt tl'].
          -- apply Hkeep; [by right | done | done].
          -- apply Hpair. apply IH. simpl in Hl. lia.
        * apply Hkeep; [by left | done | apply IH; lia]. }
  by apply (H (length l)).
Qed.

Lemma scan_pair option nxt tl out found :
  scan option (option :: nxt :: tl) out found = scan option tl nxt true.
Proof. simpl. by rewrite String.eqb_refl. Qed.

Lemma scan_eq option a tl out found :
  starts_with a (option +:+ "=") = true →
  scan option (a :: tl) out found
  = scan option tl (substr_from (String.length option + 1) a) true.
Proof.
  intros Hs. cbn [scan]. rewrite Hs.
  destruct (String.eqb_spec a option) as [->|_]; [|done].
  by rewrite starts_with_option in Hs.
Qed.

Lemma scan_keep option a tl out found :
  (a ≠ option ∨ tl = []) → starts_with a (option +:+ "=") = false →
  scan option (a :: tl) out found
  = let '(kept, out', found') := scan option tl out found in (a :: kept, out', found').
Proof.
  intros Hk Hs. cbn [scan]. rewrite Hs.
  destruct (String.eqb_spec a option) as [->|_]; [|done].
  destruct Hk as [ | ->]; done.
Qed.

Lemma not_occurs_at_head option a tl :
  (a ≠ option ∨ tl = []) → starts_with a (option +:+ "=") = false →
  ¬ occurs_at option (a :: tl) 0.
Proof.
  intros Hk Hs (b & Hb & [[Hb1 Hn]|Hb']); simpl in Hb; simplify_eq.
  - destruct Hk as [ | Hk]; [done|]. subst tl. by destruct Hn.
  - congruence.
Qed.

Lemma scan_kept_clean option l : ∀ out found i,
  ¬ occurs_at option (scan option l out found).1.1 i.
Proof.
  induction l as [|nxt tl IH|a tl Hs IH|a tl Hk Hs IH] using (scan_ind option);
    intros out found i.
  - simpl. by intros (a & Ha & _).
  - rewrite scan_pair. apply IH.
  - rewrite scan_eq by done. apply IH.
  - rewrite scan_keep by done.
    specialize (IH out found).
    destruct (scan option tl out found) as [[kept o] f] eqn:E. simpl in *.
    destruct i as [|i].
    + apply not_occurs_at_head; [|done].
      destruct Hk as [ | ->]; [by left|]. right. simpl in E. by simplify_eq.
    + rewrite occurs_at_cons. apply IH.
Qed.

Lemma scan_found_true option l : ∀ out, (scan option l out true).2 = true.
Proof.
  induction l as [|nxt tl IH|a tl Hs IH|a tl Hk Hs IH] using (scan_ind option); intros out.
  - done.
  - rewrite scan_pair. apply IH.
  - rewrite scan_eq by done. apply IH.
  - rewrite scan_keep by done. specialize (IH out).
    by destruct (scan option tl out true) as [[kept o] f].
Qed.

Lemma scan_found option l : ∀ out found,
  (scan option l out found).2 = true ↔ found = true ∨ ∃ i, occurs_at option l i.
Proof.
  induction l as [|nxt tl IH|a tl Hs IH|a tl Hk Hs IH] using (scan_ind option);
    intros out found.
  - simpl. split; [by left|]. intros [|(i & a & Ha & _)]; done.
  - rewrite scan_pair, scan_found_true. split; [|done]. intros _. right.
    exists 0, option. split; [done|]. left. split; [done|]. by eexists.
  - rewrite scan_eq, scan_found_true by done. split; [|done]. intros _. right.
    exists 0, a. split; [done|]. by right.
  - rewrite scan_keep by done. specialize (IH out found).
    destruct (scan option tl out found) as [[kept o] f]. simpl in *. rewrite IH.
    split; (intros [|[i Hi]]; [by left|right]).
    + exists (S i). by rewrite occurs_at_cons.
    + destruct i as [|i]; [by apply not_occurs_at_head in Hi|].
      exists i. by rewrite <- (occurs_at_cons option a).
Qed.

Lemma scan_none option l : ∀ out found,
  (∀ i, ¬ occurs_at option l i) → scan option l out found = (l, out, found).
Proof.
  induction l as [|nxt tl IH|a tl Hs IH|a tl Hk Hs IH] using (scan_ind option);
    intros out found Hno.
  - done.
  - exfalso. apply (Hno 0). exists option. split; [done|]. left. split; [done|]. by eexists.
  - exfalso. apply (Hno 0). exists a. split; [done|]. by right.
  - rewrite scan_keep by done. rewrite IH; [done|].
    intros i Hi. apply (Hno (S i)). by rewrite occurs_at_cons.
Qed.

Lemma scan_out option l : ∀ out found i,
  no_overlap option l →
  occurs_at option l i → (∀ j, i < j → ¬ occurs_at option l j) →
  (scan option l out found).1.2 = value_at option l i.
Proof.
  induction l as [|nxt tl IH|a tl Hs IH|a tl Hk Hs IH] using (scan_ind option);
    intros out found i Hov Hi Hlast.
  - by destruct Hi as (a & Ha & _).
  - rewrite scan_pair.
    destruct i as [|[|i]].
    + rewrite scan_none.
      * unfold value_at. simpl. by rewrite String.eqb_refl.
      * intros j Hj. apply (Hlast (S (S j))); [lia|]. by rewrite !occurs_at_cons.
    + exfalso. by apply (Hov 0).
    + apply IH.
      * by do 2 apply no_overlap_cons in Hov.
      * by rewrite !occurs_at_cons in Hi.
      * intros j Hj. rewrite <- (occurs_at_cons option nxt), <- (occurs_at_cons option option).
        apply Hlast. lia.
  - rewrite scan_eq by done.
    destruct i as [|i].
    + rewrite scan_none.
      * unfold value_at. simpl.
        destruct (String.eqb_spec a option) as [->|_]; [|done].
        by rewrite starts_with_option in Hs.
      * intros j Hj. apply (Hlast (S j)); [lia|]. by rewrite occurs_at_cons.
    + apply IH.
      * by apply no_overlap_cons in Hov.
      * by rewrite occurs_at_cons in Hi.
      * intros j Hj. rewrite <- (occurs_at_cons option a). apply Hlast. lia.
  - rewrite scan_keep by done.
    destruct i as [|i]; [by apply not_occurs_at_head in Hi|].
    specialize (IH out found i (no_overlap_cons _ _ _ Hov)).
    destruct (scan option tl out found) as [[kept o] f]. simpl in *.
    apply IH.
    + by rewrite occurs_at_cons in Hi.
    + intros j Hj. rewrite <- (occurs_at_cons option a). apply Hlast. lia.
Qed.

Lemma scan_sublist option l : ∀ out found,
  sublist (scan option l out found).1.1 l.
Proof.
  induction l as [|nxt tl IH|a tl Hs IH|a tl Hk Hs IH] using (scan_ind option);
    intros out found.
  - done.
  - rewrite scan_pair. do 2 apply sublist_cons. apply IH.
  - rewrite scan_eq by done. apply sublist_cons. apply IH.
  - rewrite scan_keep by done. specialize (IH out found).
    destruct (scan option tl out found) as [[kept o] f]. simpl in *.
    by apply sublist_skip.
Qed.

Lemma parse_opt_finished option out ap :
  let st := parse_opt_loop (length (m_args ap)) option (OptLoop 0 (m_args ap) out false) in
  cur_args st !! it st = None.
Proof.
  pose proof (parse_opt_loop_scan option (length (m_args ap)) (m_args ap) [] out false) as H.
  simpl in *. rewrite H by lia.
  destruct (scan option (m_args ap) out false) as [[k o'] f']. simpl.
  by apply lookup_ge_None_2.
Qed.

Lemma given_occurs option ap :
  given option ap = true ↔ ∃ i, occurs_at option (m_args ap) i.
Proof.
  unfold given. rewrite parse_opt_scan.
  pose proof (scan_found option (m_args ap) "" false) as H.
  destruct (scan option (m_args ap) "" false) as [[k o'] f']. simpl in *.
  rewrite H. split; [intros [|]; done | by right].
Qed.

Lemma flag_given_elem option ap : flag_given option ap = true ↔ option ∈ m_args ap.
Proof.
  unfold flag_given, parse_flag.
  destruct (list_find _ _) as [[i x]|] eqn:E; simpl.
  - apply list_find_Some in E as (Hi & -> & _).
    split; [intros _|done]. by eapply list_elem_of_lookup_2.
  - split; [done|]. intros Hin.
    eapply list_find_None in E. rewrite Forall_forall in E. by apply E in Hin.
Qed.



End ArgParserFacts.

(** ** The driver *)

Section StepRules.
Context {A B : Type}.

Lemma bind_run (m : M A) (f : A → M B) s :
  (m ≫= f) s = match m s with
               | (Ret a, s') => f a s'
               | (Exit status, s') => (Exit status, s')
               end.
Proof. done. Qed.

Lemma step_bind (m : M A) (f : A → M B) a h x a1 h1 evs1 r a2 h2 evs2 :
  step m a h (Ret x) a1 h1 evs1 →
  step (f x) a1 h1 r a2 h2 evs2 →
  step (m ≫= f) a h r a2 h2 (evs1 ++ evs2).
Proof.
  intros H1 H2 s Ha Hh. rewrite bind_run.
  destruct (H1 s Ha Hh) as (Hr & Ha1 & Hh1 & Ht1).
  destruct (m s) as [r1 s1]. simpl in *. subst r1.
  destruct (H2 s1 Ha1 Hh1) as (Hr2 & Ha2 & Hh2 & Ht2).
  rewrite Ht2, Ht1, <- app_assoc. done.
Qed.

Lemma step_bind_exit (m : M A) (f : A → M B) a h status a1 h1 evs1 :
  step m a h (Exit status) a1 h1 evs1 →
  step (m ≫= f) a h (Exit status) a1 h1 evs1.
Proof.
  intros H1 s Ha Hh. rewrite bind_run.
  destruct (H1 s Ha Hh) as (Hr & Ha1 & Hh1 & Ht1).
  destruct (m s) as [r1 s1]. simpl in *. by subst r1.
Qed.

Lemma step_eq (m : M A) a h r a' h' evs r0 a0 h0 evs0 :
  step m a h r a' h' evs → r = r0 → a' = a0 → h' = h0 → evs = evs0 →
  step m a h r0 a0 h0 evs0.
Proof. by intros H <- <- <- <-. Qed.

Lemma step_ret (x : A) a h : step (mret x) a h (Ret x) a h [].
Proof. intros s Ha Hh. by rewrite app_nil_r. Qed.

Lemma step_exit status a h : step (exit (A := A) status) a h (Exit status) a h [].
Proof. intros s Ha Hh. by rewrite app_nil_r. Qed.
End StepRules.

Lemma have_key_insert_ne name v p :
  name ≠ "have_key" → get_int "have_key" (<[name := v]> p) = get_int "have_key" p.
Proof. intros H. unfold get_int. by rewrite lookup_insert_ne. Qed.

Lemma step_emit e a h : step (emit e) a h (Ret ()) a h [e].
Proof. intros s Ha Hh. done. Qed.

Lemma step_error fmt args a h : step (error fmt args) a h (Ret ()) a h [Error fmt args].
Proof. apply step_emit. Qed.

Lemma step_set_param name v a h :
  name ≠ "have_key" → step (set_param name v) a h (Ret ()) a h [].
Proof.
  intros Hne s Ha Hh. unfold have_key. simpl.
  by rewrite have_key_insert_ne, app_nil_r.
Qed.

Lemma step_set_have_key z a h : step (set_param "have_key" (VInt z)) a h (Ret ()) a z [].
Proof.
  intros s Ha Hh. unfold have_key, get_int. simpl.
  by rewrite lookup_insert_eq, app_nil_r.
Qed.

Lemma step_get_have_key a h : step (get_param_int "have_key") a h (Ret h) a h [].
Proof. intros s Ha Hh. simpl. rewrite app_nil_r. unfold have_key in Hh. by rewrite Hh. Qed.

Lemma step_parse_opt_string opt a h :
  step (parse_opt_string opt) a h
       (Ret (if given opt a then Some (value_of opt a) else None)) (after opt a) h [].
Proof.
  intros s Ha Hh. unfold parse_opt_string, given, value_of, after. subst a.
  destruct (ArgParser.parse_opt opt "" (ap s)) as [[[] o] a']; simpl; by rewrite app_nil_r.
Qed.

Lemma step_parse_flag opt a h :
  step (parse_flag opt) a h (Ret (flag_given opt a)) (after_flag opt a) h [].
Proof.
  intros s Ha Hh. unfold parse_flag, flag_given, after_flag. subst a.
  destruct (ArgParser.parse_flag opt (ap s)) as [[] a']; simpl; by rewrite app_nil_r.
Qed.

Lemma step_when_set (b : bool) name v a h :
  name ≠ "have_key" → step (when b (set_param name v)) a h (Ret ()) a h [].
Proof. intros Hne. destruct b; [by apply step_set_param | apply step_ret]. Qed.

Lemma step_set_some {A} (o : option A) name (f : A → value) a h :
  name ≠ "have_key" →
  step (match o with Some v => set_param name (f v) | None => mret () end) a h (Ret ()) a h [].
Proof. intros Hne. destruct o; [by apply step_set_param | apply step_ret]. Qed.

Lemma step_parse_opt_param opt name a h :
  name ≠ "have_key" → step (parse_opt_param opt name) a h (Ret ()) (after opt a) h [].
Proof.
  intros Hne. unfold parse_opt_param.
  eapply step_eq; [eapply step_bind; [apply step_parse_opt_string|]|..]; try done.
  by apply (step_set_some _ name (λ t, VStr t)).
Qed.

Lemma step_count_key {A} (b : bool) (x : A) (e : A → event) a h :
  step (match (if b then Some x else None) with
        | Some v =>
            n ← get_param_int "have_key";
            set_param "have_key" (VInt (n + 1));;
            emit (e v)
        | None => mret ()
        end) a h (Ret ()) a (if b then h + 1 else h)%Z (if b then [e x] else []).
Proof.
  destruct b; [|apply step_ret].
  eapply step_eq; [eapply step_bind; [apply step_get_have_key|];
                   eapply step_bind; [apply step_set_have_key|]; apply step_emit|..]; done.
Qed.

Lemma is_Some_if {A} (g : bool) (x : A) :
  bool_decide (is_Some (if g then Some x else None)) = g.
Proof. destruct g; [by apply bool_decide_eq_true_2 | by apply bool_decide_eq_false_2, is_Some_None]. Qed.

Lemma step_parse_cmd cmd x rest c0 h :
  step (parse_cmd cmd) (ArgParser.mk (x :: rest) c0) h
       (Ret (String.eqb x cmd))
       (if String.eqb x cmd then ArgParser.mk rest cmd else ArgParser.mk (x :: rest) c0) h [].
Proof.
  intros s Ha Hh. unfold parse_cmd, ArgParser.parse_cmd. rewrite Ha. simpl.
  destruct (String.eqb x cmd); simpl; by rewrite app_nil_r.
Qed.

Section DriverFacts.
Variable atof : string → Q.
Variable short_code_init : Z → bool.
Variable run : Cmd.t → Z.
Variable VERSION : string.

Lemma step_parse_opt_float opt a h :
  step (parse_opt_float atof opt) a h
       (Ret (if given opt a then Some (Float.single (atof (value_of opt a))) else None))
       (after opt a) h [].
Proof.
  unfold parse_opt_float.
  eapply step_eq; [eapply step_bind; [apply step_parse_opt_string|apply step_ret]|..]; try done.
  by destruct (given opt a).
Qed.

Lemma step_parse_opt_int opt a h :
  step (parse_opt_int opt) a h
       (Ret (if given opt a then Some (Libc.atoi (value_of opt a)) else None))
       (after opt a) h [].
Proof.
  unfold parse_opt_int.
  eapply step_eq; [eapply step_bind; [apply step_parse_opt_string|apply step_ret]|..]; try done.
  by destruct (given opt a).
Qed.

Ltac step_prim :=
  first [ apply step_parse_opt_float | apply step_parse_opt_int
        | apply step_parse_opt_string | apply step_parse_flag
        | apply step_parse_opt_param; done
        | apply step_set_some; done | apply step_when_set; done
        | apply step_count_key
        | apply step_set_param; done
        | apply step_error | apply step_emit | apply step_get_have_key ].

Ltac step_hyp :=
  match goal with
  | H : given _ _ = _ |- _ => rewrite H
  | H : flag_given _ _ = _ |- _ => rewrite H
  | H : short_code_init _ = _ |- _ => rewrite H
  | H : bool_decide _ = _ |- _ => rewrite H
  | |- context [bool_decide (is_Some (if ?g then Some _ else None))] =>
      rewrite (is_Some_if g)
  end.

Ltac step_go :=
  repeat first
    [ step_prim
    | apply step_ret
    | apply step_exit
    | step_hyp
    | eapply step_bind; [solve [step_go] | cbv beta zeta]
    | eapply step_bind_exit; solve [step_go] ].

Lemma parse_shared_options_step a h :
  step (parse_shared_options atof short_code_init) a h
    (if short_rejected short_code_init a then Exit 1
     else if bool_decide (keys_counted h a > 1)%Z then Exit 1 else Ret ())
    (if short_rejected short_code_init a
     then after "--short" (after "--test-key" (after "--key" (after "--strength" a)))
     else after_shared_options a)
    (keys_counted h a)
    (key_events a ++
     (if short_rejected short_code_init a then
        [Error "audiowmark: unsupported short payload size %zd\n"
           [VInt (wrap64 (Libc.atoi (value_of "--short"
                    (after "--test-key" (after "--key" (after "--strength" a))))))]]
      else if bool_decide (keys_counted h a > 1)%Z
           then [Error key_conflict_message []] else [])).
Proof.
  unfold parse_shared_options, short_rejected, keys_counted, key_events,
    key_file_given, test_key_given, after_shared_options.
  set (a1 := after "--strength" a).
  set (a2 := after "--key" a1).
  set (a3 := after "--test-key" a2).
  destruct (given "--short" a3) eqn:E4; cbn [andb negb].
  1: destruct (short_code_init _) eqn:E5; cbn [andb negb].
  1,3: destruct (bool_decide _) eqn:E6.
  all: unfold a3, a2, a1 in *.
  all: (eapply step_eq; [solve [step_go]|..]); try done.
  all: simpl; rewrite ?app_nil_r, <- ?app_assoc; try done.
  all: try by step_hyp.
Qed.

Lemma parse_get_options_step a h :
  step (parse_get_options atof) a h
    (if bool_decide (speed_options_given a > 1)%Z then Exit 1 else Ret ())
    (if bool_decide (speed_options_given a > 1)%Z
     then after "--try-speed"
            (after_flag "--detect-speed-patient"
               (after_flag "--detect-speed" (before_speed_options a)))
     else after_get_options a)
    h
    (if bool_decide (speed_options_given a > 1)%Z
     then [Error speed_options_message []] else []).
Proof.
  unfold parse_get_options, speed_options_given, after_get_options, before_speed_options.
  destruct (bool_decide _) eqn:E.
  all: (eapply step_eq; [solve [step_go]|..]); done.
Qed.
End DriverFacts.

Section EmitsRules.
Context {A B : Type} (P : event → Prop).

Lemma emits_bind (m : M A) (f : A → M B) :
  emits P m → (∀ x, emits P (f x)) → emits P (m ≫= f).
Proof.
  intros Hm Hf s. rewrite bind_run.
  destruct (Hm s) as (evs1 & Ht1 & HP1).
  destruct (m s) as [[x|status] s1]; simpl in *.
  - destruct (Hf x s1) as (evs2 & Ht2 & HP2).
    exists (evs1 ++ evs2). rewrite Ht2, Ht1, <- app_assoc. split; [done|].
    by apply Forall_app.
  - by exists evs1.
Qed.

Lemma emits_ret (x : A) : emits P (mret x).
Proof. intros s. exists []. by rewrite app_nil_r. Qed.

Lemma emits_exit status : emits P (exit (A := A) status).
Proof. intros s. exists []. by rewrite app_nil_r. Qed.

Lemma emits_from_emits (m : M A) a h : emits P m → emits_from P m a h.
Proof. intros H s _ _. apply H. Qed.

Lemma emits_from_bind (m : M A) (f : A → M B) a h x a1 h1 evs1 :
  step m a h (Ret x) a1 h1 evs1 → Forall P evs1 →
  emits_from P (f x) a1 h1 → emits_from P (m ≫= f) a h.
Proof.
  intros Hm HP1 Hf s Ha Hh. rewrite bind_run.
  destruct (Hm s Ha Hh) as (Hr & Ha1 & Hh1 & Ht1).
  destruct (m s) as [r1 s1]. simpl in *. subst r1.
  destruct (Hf s1 Ha1 Hh1) as (evs2 & Ht2 & HP2).
  exists (evs1 ++ evs2). rewrite Ht2, Ht1, <- app_assoc. split; [done|].
  by apply Forall_app.
Qed.

Lemma emits_from_bind_exit (m : M A) (f : A → M B) a h status a1 h1 evs1 :
  step m a h (Exit status) a1 h1 evs1 → Forall P evs1 →
  emits_from P (m ≫= f) a h.
Proof.
  intros Hm HP1 s Ha Hh. rewrite bind_run.
  destruct (Hm s Ha Hh) as (Hr & Ha1 & Hh1 & Ht1).
  destruct (m s) as [r1 s1]. simpl in *. subst r1. by exists evs1.
Qed.
End EmitsRules.

Section EmitsPrims.
Context (P : event → Prop).

Lemma emits_emit e : P e → emits P (emit e).
Proof. intros He s. exists [e]. split; [done|]. by apply Forall_singleton. Qed.

Lemma emits_error fmt args : P (Error fmt args) → emits P (error fmt args).
Proof. apply emits_emit. Qed.

Lemma emits_set_param name v : emits P (set_param name v).
Proof. intros s. exists []. by rewrite app_nil_r. Qed.

Lemma emits_get_param_int name : emits P (get_param_int name).
Proof. intros s. exists []. by rewrite app_nil_r. Qed.

Lemma emits_parse_opt_string opt : emits P (parse_opt_string opt).
Proof.
  intros s. exists []. unfold parse_opt_string.
  destruct (ArgParser.parse_opt opt "" (ap s)) as [[f o] a']. simpl. by rewrite app_nil_r.
Qed.

Lemma emits_parse_flag opt : emits P (parse_flag opt).
Proof.
  intros s. exists []. unfold parse_flag.
  destruct (ArgParser.parse_flag opt (ap s)) as [f a']. simpl. by rewrite app_nil_r.
Qed.

Lemma emits_parse_cmd cmd : emits P (parse_cmd cmd).
Proof.
  intros s. exists []. unfold parse_cmd.
  destruct (ArgParser.parse_cmd cmd (ap s)) as [f a']. simpl. by rewrite app_nil_r.
Qed.

Lemma emits_when (b : bool) m : emits P m → emits P (when b m).
Proof. intros H. destruct b; [done | apply emits_ret]. Qed.
End EmitsPrims.

Ltac emits_step :=
  first
    [ apply emits_ret | apply emits_exit
    | apply emits_set_param | apply emits_get_param_int
    | apply emits_parse_opt_string | apply emits_parse_flag | apply emits_parse_cmd
    | apply emits_emit; done | apply emits_error; done
    | apply emits_when
    | apply emits_bind; [|intros ?]
    | match goal with
      | |- emits _ (match ?x with _ => _ end) => destruct x
      | |- emits _ (if ?x then _ else _) => destruct x
      end ].

Ltac emits_go := repeat emits_step.

Section DriverEmits.
Variable atof : string → Q.
Variable short_code_init : Z → bool.
Variable run : Cmd.t → Z.
Variable VERSION : string.
Variable P : event → Prop.
Hypothesis P_error_args : ∀ fmt v args, P (Error fmt (v :: args)).
Hypothesis P_speed : P (Error speed_options_message []).
Hypothesis P_run : ∀ c, P (Run c).

Lemma emits_parse_opt_param opt name : emits P (parse_opt_param opt name).
Proof. unfold parse_opt_param. emits_go. Qed.

Lemma emits_parse_opt_with opt parse names :
  (∀ t, emits P (parse t)) → emits P (parse_opt_with opt parse names).
Proof.
  intros Hp. unfold parse_opt_with. emits_go; [apply Hp|].
  induction names as [|n names IH]; simpl; emits_go. apply IH.
Qed.

Lemma emits_parse_format str : emits P (parse_format str).
Proof.
  unfold parse_format.
  repeat first [apply emits_error; apply P_error_args | progress emits_go].
Qed.

Lemma emits_parse_endian str : emits P (parse_endian str).
Proof.
  unfold parse_endian.
  repeat first [apply emits_error; apply P_error_args | progress emits_go].
Qed.

Lemma emits_parse_encoding str : emits P (parse_encoding str).
Proof.
  unfold parse_encoding.
  repeat first [apply emits_error; apply P_error_args | progress emits_go].
Qed.

Lemma emits_parse_add_options : emits P (parse_add_options).
Proof.
  unfold parse_add_options.
  repeat first
    [ apply emits_parse_opt_param
    | apply emits_parse_format | apply emits_parse_endian | apply emits_parse_encoding
    | apply emits_parse_opt_with; intros ?; cbv beta
    | progress emits_go ].
Qed.

Lemma emits_parse_get_options : emits P (parse_get_options atof).
Proof.
  unfold parse_get_options, parse_opt_float.
  repeat first [ apply emits_parse_opt_param | apply emits_error; apply P_speed
               | progress emits_go ].
Qed.

Lemma emits_parse_positional vs : emits P (parse_positional vs).
Proof.
  intros s. unfold parse_positional.
  destruct (ArgParser.parse_args _ _).
  - exists []. by rewrite app_nil_r.
  - assert (H : ∀ (m : M (list string)), emits P m → ∃ evs,
                trace (m s).2 = trace s ++ evs ∧ Forall P evs) by (intros m Hm; apply Hm).
    destruct (list_find _ _) as [[i x]|]; apply H.
    + repeat first [apply emits_error; apply P_error_args | progress emits_go].
    + repeat first [apply emits_error; apply P_error_args | progress emits_go].
Qed.

Lemma emits_call c : emits P (call run c).
Proof. unfold call. repeat first [apply emits_emit; apply P_run | progress emits_go]. Qed.
End DriverEmits.

Lemma parse_cmd_run cmd x rest s :
  ArgParser.m_args (ap s) = x :: rest →
  parse_cmd cmd s
  = (Ret (String.eqb x cmd),
     if String.eqb x cmd then State (ArgParser.mk rest cmd) (params s) (trace s) else s).
Proof.
  intros Hs. unfold parse_cmd, ArgParser.parse_cmd. rewrite Hs.
  destruct (String.eqb x cmd); [done|]. by destruct s.
Qed.

Ltac eval_eqb :=
  repeat match goal with
         | |- context [String.eqb ?x ?y] =>
             let b := eval vm_compute in (String.eqb x y) in
             change (String.eqb x y) with b
         end.

Section MainFacts.
Variable atof : string → Q.
Variable short_code_init : Z → bool.
Variable run : Cmd.t → Z.
Variable VERSION : string.

(** The events that only [parse_shared_options] and the like can
    produce are excluded by these three conditions. *)

Ltac emits_rest :=
  repeat first
    [ apply emits_parse_opt_param | apply emits_parse_add_options
    | apply emits_parse_get_options | apply emits_parse_positional | apply emits_call
    | emits_step ];
  try done.

Ltac run_cmds Hs :=
  unfold main_commands, on_cmd;
  repeat (rewrite bind_run, (parse_cmd_run _ _ _ _ Hs); eval_eqb; cbv beta iota).

(** For the commands that parse the shared options, [main] parses
    them first, on the arguments that follow the command. *)
Lemma main_commands_shared cmd rest :
  cmd ∈ shared_commands →
  ∃ k : M Z,
    (∀ P, ordinary P → P (Error speed_options_message []) → emits P k) ∧
    ∀ s, ArgParser.m_args (ap s) = cmd :: rest →
         main_commands atof short_code_init run s
         = (parse_shared_options atof short_code_init;; k)
             (State (ArgParser.mk rest cmd) (params s) (trace s)).
Proof.
  unfold shared_commands. intros Hin.
  repeat (apply elem_of_cons in Hin as [->|Hin]); [..|by apply elem_of_nil in Hin].
  all: eexists; split; [|intros s Hs; run_cmds Hs; reflexivity].
  all: intros P (HP1 & HP3) HP2; emits_rest.
Qed.

Lemma main_commands_get_cmp cmd rest :
  cmd ∈ ["get"; "cmp"] →
  ∃ k : M Z,
    (∀ P, ordinary P → emits P k) ∧
    ∀ s, ArgParser.m_args (ap s) = cmd :: rest →
         main_commands atof short_code_init run s
         = (parse_shared_options atof short_code_init;; parse_get_options atof;; k)
             (State (ArgParser.mk rest cmd) (params s) (trace s)).
Proof.
  intros Hin.
  repeat (apply elem_of_cons in Hin as [->|Hin]); [..|by apply elem_of_nil in Hin].
  all: eexists; split; [|intros s Hs; run_cmds Hs; reflexivity].
  all: intros P (HP1 & HP3); emits_rest.
Qed.

Lemma bind_exit_at {A B} (m : M A) (f : A → M B) s status :
  (m s).1 = Exit status → (m ≫= f) s = (Exit status, (m s).2).
Proof. rewrite bind_run. destruct (m s) as [r s']. simpl. by intros ->. Qed.

Lemma bind_ret_at {A B} (m : M A) (f : A → M B) s x :
  (m s).1 = Ret x → (m ≫= f) s = f x (m s).2.
Proof. rewrite bind_run. destruct (m s) as [r s']. simpl. by intros ->. Qed.

Lemma step_at {A} (m : M A) s r a' h' evs :
  step m (ap s) (have_key s) r a' h' evs →
  (m s).1 = r ∧ ap (m s).2 = a' ∧ have_key (m s).2 = h' ∧ trace (m s).2 = trace s ++ evs.
Proof. intros H. by apply H. Qed.

Lemma Forall_key_events P a :
  (∀ f, P (LoadGlobalKey f)) → (∀ n, P (SetGlobalTestKey n)) → Forall P (key_events a).
Proof.
  intros H1 H2. unfold key_events. apply Forall_app.
  split; [destruct (given "--key" _)|destruct (given "--test-key" _)];
    try apply Forall_nil_2; by apply Forall_singleton.
Qed.


End MainFacts.




(** Closed comparisons of rationals, by evaluation. *)
Ltac qle_compute := apply Qle_bool_iff; vm_compute; reflexivity.
Ltac qeq_compute := apply Qeq_bool_iff; vm_compute; reflexivity.

Lemma wrap64_range z : (0 <= wrap64 z < 2 ^ 64)%Z.
Proof. unfold wrap64. apply Z.mod_pos_bound. lia. Qed.

Lemma wrap64_small z : (0 <= z < 2 ^ 64)%Z → wrap64 z = z.
Proof. intros H. unfold wrap64. by apply Z.mod_small. Qed.

(** ** test_speed *)

Section TestSpeed.
Import Float FloatFacts.
Variable random_u64 : Z → nat → Z.
Local Open Scope Q_scope.

Lemma speed_unit_range seed : 0 <= speed_unit random_u64 seed <= 1.
Proof.
  unfold speed_unit.
  set (r := wrap64 (random_u64 seed 0)).
  assert (Hr : (0 <= r <= UINT64_MAX)%Z).
  { pose proof (wrap64_range (random_u64 seed 0)). unfold UINT64_MAX. fold r in H. lia. }
  set (x := double (inject_Z r)).
  assert (Hx : 0 <= x <= 18446744073709551616).
  { split.
    - apply Qle_trans with (double 0); [qle_compute|].
      apply double_mono. change 0 with (inject_Z 0). rewrite <- Zle_Qle. lia.
    - apply Qle_trans with (double (inject_Z UINT64_MAX)); [|qle_compute].
      apply double_mono. rewrite <- Zle_Qle. lia. }
  assert (Hm : double (inject_Z UINT64_MAX) == 18446744073709551616) by qeq_compute.
  set (m := double (inject_Z UINT64_MAX)) in *.
  split.
  - apply Qle_trans with (double 0); [qle_compute|].
    apply double_mono. apply Qle_shift_div_l; lra.
  - apply Qle_trans with (double 1); [|qle_compute].
    apply double_mono. apply Qle_shift_div_r; lra.
Qed.

Lemma speed_factor_range seed :
  speed_low <= speed_factor random_u64 seed <= speed_high.
Proof.
  unfold speed_factor.
  pose proof (speed_unit_range seed) as Hu.
  set (u := speed_unit random_u64 seed) in *.
  set (d := double (speed_high - speed_low)).
  assert (Hd : 0 <= d) by qle_compute.
  assert (Hp : 0 <= double (u * d) <= double d).
  { split.
    - apply Qle_trans with (double 0); [qle_compute|]. apply double_mono. nra.
    - apply double_mono. nra. }
  split.
  - apply Qle_trans with (double (speed_low + 0)); [qle_compute|].
    apply double_mono. lra.
  - apply Qle_trans with (double (speed_low + double d)); [|qle_compute].
    apply double_mono. lra.
Qed.

(** C7: for every seed, [test_speed] returns 0 and prints, with six
    decimals, the factor [low + u * (high - low)] computed in double
    precision for a [u] between 0 and 1; the factor lies between the
    doubles 0.85 and 1.15, and the printed number between 0.85 and
    1.15. *)
Theorem test_speed_range (seed : Z) :
  test_speed random_u64 seed
  = (0%Z, [Printf "%.6f\n" [VFloat (speed_factor random_u64 seed)]]) ∧
  (∃ u, 0 <= u <= 1 ∧
        speed_factor random_u64 seed
        = double (speed_low + double (u * double (speed_high - speed_low)))) ∧
  speed_low <= speed_factor random_u64 seed <= speed_high ∧
  85 # 100 <= speed_printed random_u64 seed <= 115 # 100.
Proof.
  split; [reflexivity|]. split.
  { exists (speed_unit random_u64 seed). split; [apply speed_unit_range | reflexivity]. }
  pose proof (speed_factor_range seed) as Hv. split; [exact Hv|].
  unfold speed_printed, fixed6.
  set (v := speed_factor random_u64 seed) in *.
  assert (Hn : (850000 <= rne (v * 1000000) <= 1150000)%Z).
  { split.
    - replace 850000%Z with (rne (speed_low * 1000000)) by (vm_compute; reflexivity).
      apply rne_mono. lra.
    - replace 1150000%Z with (rne (speed_high * 1000000)) by (vm_compute; reflexivity).
      apply rne_mono. lra. }
  destruct Hn as [Hn1 Hn2]. rewrite Zle_Qle in Hn1, Hn2.
  split.
  - apply Qle_shift_div_l; [reflexivity|].
    eapply Qle_trans; [|exact Hn1]. qle_compute.
  - apply Qle_shift_div_r; [reflexivity|].
    eapply Qle_trans; [exact Hn2|]. qle_compute.
Qed.
End TestSpeed.

(** ** gen_key *)

(** C5: when the output file can be opened, [gen_key] leaves in it the
    comment line, an empty line and the line "key K", each ended by a
    newline, touches no other file, reports nothing and returns 0; when it
    cannot be opened, [gen_key] reports the error, returns 1 and leaves
    every file as it was. *)
Theorem gen_key_writes_key (key outfile : string) (fs : filesystem) :
  (outfile ∉ unwritable fs →
   gen_key key outfile fs
   = (0%Z,
      Filesystem (<[outfile := "# watermarking key for audiowmark" +:+ newline +:+ newline
                               +:+ "key " +:+ key +:+ newline]> (contents fs))
                 (unwritable fs),
      [])) ∧
  (outfile ∈ unwritable fs →
   gen_key key outfile fs
   = (1%Z, fs, [Error "audiowmark: error writing to file %s\n" [VStr outfile]])).
Proof.
  unfold gen_key, fopen_w, fputs. split; intros H.
  - rewrite decide_False by done. cbn [contents unwritable].
    by rewrite lookup_insert_eq, insert_insert_eq.
  - by rewrite decide_True.
Qed.

Lemma gen_key_writes_key_witness :
  let fs := Filesystem {["old.key" := "stale"]} {["/proc/key"]} in
  gen_key "0123456789abcdef0123456789abcdef" "old.key" fs
  = (0%Z,
     Filesystem (<["old.key" := "# watermarking key for audiowmark" +:+ newline +:+ newline
                               +:+ "key 0123456789abcdef0123456789abcdef" +:+ newline]>
                   {["old.key" := "stale"]})
                {["/proc/key"]},
     []) ∧
  gen_key "0123456789abcdef0123456789abcdef" "/proc/key" fs
  = (1%Z, fs, [Error "audiowmark: error writing to file %s\n" [VStr "/proc/key"]]).
Proof.
  intros fs. split.
  - apply (gen_key_writes_key "0123456789abcdef0123456789abcdef" "old.key" fs).
    vm_compute. intros H. discriminate H.
  - apply (gen_key_writes_key "0123456789abcdef0123456789abcdef" "/proc/key" fs).
    vm_compute. reflexivity.
Defined.

(** ** test_clip *)

Lemma wrap64_neg z : (- 2 ^ 64 <= z < 0)%Z → wrap64 z = (z + 2 ^ 64)%Z.
Proof.
  intros H. unfold wrap64.
  rewrite <- (Z.mod_add z 1 (2 ^ 64)) by lia.
  rewrite Z.mod_small; lia.
Qed.

Section TestClip.
Import Float FloatFacts.
Variable random_double : Z → nat → Q.
Variable mark_sync_frame_count mark_data_frame_count frame_size : Z.
Variable in_data : WavData.
Variable seed time_seconds : Z.

(** The generator yields values in [0, 1). *)
Hypothesis random_double_range : ∀ i, (0 <= random_double seed i < 1)%Q.
(** The values of a block are counted without overflow. *)
Hypothesis block_size :
  (0 <= (mark_sync_frame_count + mark_data_frame_count) * frame_size * n_channels in_data
   < 2 ^ 62)%Z.
(** The ranges of the types: [int] for the channel count, the sample
    rate and the duration, and the size of a vector. *)
Hypothesis channels_range : (0 < n_channels in_data < 2 ^ 31)%Z.
Hypothesis sample_rate_range : (- 2 ^ 31 <= sample_rate in_data < 2 ^ 31)%Z.
Hypothesis time_seconds_range : (- 2 ^ 31 <= time_seconds < 2 ^ 31)%Z.
Hypothesis n_values_range : (n_values in_data < 2 ^ 63)%Z.

Lemma T_range : (- 2 ^ 62 <= (time_seconds * sample_rate in_data) <= 2 ^ 62)%Z.
Proof. nia. Qed.

Lemma n_frames_range : (0 <= n_frames in_data < 2 ^ 63)%Z.
Proof.
  unfold n_frames. rewrite wrap64_small by lia.
  assert (0 <= n_values in_data)%Z by (unfold n_values; lia).
  split; [apply Z.div_pos; lia|].
  apply Z.le_lt_trans with (n_values in_data); [|lia].
  apply Z.div_le_upper_bound; [lia|]. nia.
Qed.

Lemma start_point_range u :
  (0 <= u < 1)%Q → (0 <= (clip_points mark_sync_frame_count mark_data_frame_count frame_size in_data time_seconds u).1 <= 2 ^ 63)%Z.
Proof.
  intros Hu. unfold clip_points, values_per_block. cbn [fst].
  set (raw := ((mark_sync_frame_count + mark_data_frame_count) * frame_size
               * n_channels in_data)%Z) in *.
  rewrite (wrap64_small raw) by lia.
  rewrite (wrap64_small (2 * raw)) by lia.
  rewrite (wrap64_small (n_channels in_data)) by lia.
  set (x := double (inject_Z (2 * raw))).
  assert (Hx : (0 <= x <= 9223372036854775808)%Q).
  { split.
    - apply Qle_trans with (double 0); [qle_compute|].
      apply double_mono. change 0%Q with (inject_Z 0). rewrite <- Zle_Qle. lia.
    - apply Qle_trans with (double (inject_Z (2 ^ 63))); [|qle_compute].
      apply double_mono. rewrite <- Zle_Qle. lia. }
  set (y := double (x * u)).
  assert (Hy : (0 <= y <= 9223372036854775808)%Q).
  { split.
    - apply Qle_trans with (double 0); [qle_compute|]. apply double_mono. nra.
    - apply Qle_trans with (double 9223372036854775808); [|qle_compute].
      apply double_mono. nra. }
  assert (Ht : (0 <= trunc y <= 2 ^ 63)%Z).
  { rewrite trunc_nonneg by lra. split.
    - rewrite <- (Qfloor_Z 0). apply Qfloor_resp_le. change (inject_Z 0) with 0%Q. lra.
    - rewrite <- (Qfloor_Z (2 ^ 63)). apply Qfloor_resp_le.
      eapply Qle_trans; [apply Hy|]. qle_compute. }
  rewrite (wrap64_small (trunc y)) by lia.
  split; [apply Z.div_pos; lia|].
  apply Z.div_le_upper_bound; [lia|]. nia.
Qed.

Lemma end_point_eq u : (clip_points mark_sync_frame_count mark_data_frame_count frame_size in_data time_seconds u).2 = wrap64 ((clip_points mark_sync_frame_count mark_data_frame_count frame_size in_data time_seconds u).1 + (time_seconds * sample_rate in_data)).
Proof. reflexivity. Qed.

(** Past the end of the input, or wrapped around, the clip is refused. *)
Lemma clip_accepted u :
  (0 <= u < 1)%Q → ((clip_points mark_sync_frame_count mark_data_frame_count frame_size in_data time_seconds u).2 < n_frames in_data)%Z →
  ((clip_points mark_sync_frame_count mark_data_frame_count frame_size in_data time_seconds u).2 = (clip_points mark_sync_frame_count mark_data_frame_count frame_size in_data time_seconds u).1 + (time_seconds * sample_rate in_data) ∧ 0 <= (clip_points mark_sync_frame_count mark_data_frame_count frame_size in_data time_seconds u).1 + (time_seconds * sample_rate in_data) < n_frames in_data)%Z.
Proof.
  intros Hu. rewrite end_point_eq.
  pose proof (start_point_range u Hu) as Hs.
  pose proof T_range. pose proof n_frames_range.
  destruct (Z.lt_ge_cases ((clip_points mark_sync_frame_count mark_data_frame_count frame_size in_data time_seconds u).1 + (time_seconds * sample_rate in_data)) 0) as [Hneg|Hpos].
  - rewrite wrap64_neg by lia. lia.
  - rewrite wrap64_small by lia. lia.
Qed.

Lemma clip_refused u :
  (0 <= u < 1)%Q → (n_frames in_data <= (time_seconds * sample_rate in_data))%Z →
  ((clip_points mark_sync_frame_count mark_data_frame_count frame_size in_data time_seconds u).2 <? n_frames in_data)%Z = false.
Proof.
  intros Hu HT. apply Z.ltb_ge. rewrite end_point_eq.
  pose proof (start_point_range u Hu) as Hs.
  pose proof T_range. pose proof n_frames_range.
  rewrite wrap64_small by lia. lia.
Qed.

Lemma clip_loop_exit fuel : ∀ i start_point end_point,
  clip_loop random_double mark_sync_frame_count mark_data_frame_count frame_size fuel in_data seed time_seconds i = Some (start_point, end_point) →
  ∃ j, (i ≤ j)%nat ∧ clip_points mark_sync_frame_count mark_data_frame_count frame_size in_data time_seconds (random_double seed j) = (start_point, end_point) ∧
       (end_point = start_point + (time_seconds * sample_rate in_data) ∧ 0 <= start_point + (time_seconds * sample_rate in_data) < n_frames in_data)%Z.
Proof.
  induction fuel as [|fuel IH]; intros i s e; [done|].
  cbn [clip_loop].
  destruct (clip_points mark_sync_frame_count mark_data_frame_count frame_size in_data time_seconds (random_double seed i)) as [s' e'] eqn:Ep.
  destruct (e' <? n_frames in_data)%Z eqn:Elt.
  - intros [= <- <-]. exists i. split; [done|]. split; [done|].
    apply Z.ltb_lt in Elt.
    pose proof (clip_accepted (random_double seed i) (random_double_range i)) as H.
    rewrite Ep in H. by apply H.
  - intros H. apply IH in H as (j & Hj & H). exists j. split; [lia | done].
Qed.

Lemma clip_loop_forever fuel : ∀ i,
  (n_frames in_data <= (time_seconds * sample_rate in_data))%Z → clip_loop random_double mark_sync_frame_count mark_data_frame_count frame_size fuel in_data seed time_seconds i = None.
Proof.
  induction fuel as [|fuel IH]; intros i HT; [done|].
  cbn [clip_loop].
  pose proof (clip_refused (random_double seed i) (random_double_range i) HT) as H.
  destruct (clip_points mark_sync_frame_count mark_data_frame_count frame_size in_data time_seconds (random_double seed i)) as [s' e']. cbn [snd] in H. rewrite H.
  by apply IH.
Qed.

(** C9: whenever the loop of [test_clip] ends, it is on a draw whose
    start point satisfies [start_point + time_seconds * sample_rate <
    frames]; when the input has at most [time_seconds * sample_rate]
    frames, no number of passes ends the loop, and [test_clip] does not
    return. *)
Theorem test_clip_loop_exit_condition :
  (∀ fuel start_point end_point,
     clip_loop random_double mark_sync_frame_count mark_data_frame_count frame_size fuel in_data seed time_seconds 0 = Some (start_point, end_point) →
     ∃ j, clip_points mark_sync_frame_count mark_data_frame_count frame_size in_data time_seconds (random_double seed j) = (start_point, end_point) ∧
          (end_point = start_point + (time_seconds * sample_rate in_data) ∧ start_point + (time_seconds * sample_rate in_data) < n_frames in_data)%Z) ∧
  ((n_frames in_data <= (time_seconds * sample_rate in_data))%Z →
   ∀ fuel saved,
     clip_loop random_double mark_sync_frame_count mark_data_frame_count frame_size fuel in_data seed time_seconds 0 = None ∧
     test_clip random_double mark_sync_frame_count mark_data_frame_count frame_size
               fuel (Some in_data) saved seed time_seconds = None).
Proof.
  split.
  - intros fuel s e H. apply clip_loop_exit in H as (j & _ & Hp & He & Hr).
    exists j. split; [done|]. split; [done|lia].
  - intros HT fuel saved.
    pose proof (clip_loop_forever fuel 0 HT) as H. split; [exact H|].
    unfold test_clip. by rewrite H.
Qed.
End TestClip.

Lemma test_clip_loop_exit_condition_witness :
  let in_data := MkWavData [0; 0; 0; 0]%Q 2 44100 16 in
  clip_loop (λ _ _, 1 # 2)%Q 510 2226 1024 25 in_data 7 1 0 = None ∧
  test_clip (λ _ _, 1 # 2)%Q 510 2226 1024 25 (Some in_data) true 7 1 = None.
Proof.
  intros in_data.
  apply (test_clip_loop_exit_condition (λ _ _, 1 # 2)%Q 510 2226 1024 in_data 7 1).
  - intros i. split; [discriminate | reflexivity].
  - vm_compute. split; [discriminate | reflexivity].
  - vm_compute. split; reflexivity.
  - vm_compute. split; [discriminate | reflexivity].
  - vm_compute. split; [discriminate | reflexivity].
  - vm_compute. reflexivity.
  - vm_compute. discriminate.
Defined.

(** ** test_gen_noise *)

Section TestGenNoise.
Import Float FloatFacts.
Variable random_double : Z → nat → Q.

Lemma noise_sample_range u : (0 <= u < 1)%Q → (-1 <= noise_sample u <= 1)%Q.
Proof.
  intros Hu. unfold noise_sample.
  assert (H2 : (0 <= double (u * 2) <= 2)%Q).
  { split.
    - apply Qle_trans with (double 0); [qle_compute|]. apply double_mono. lra.
    - apply Qle_trans with (double 2); [|qle_compute]. apply double_mono. lra. }
  assert (H1 : (-1 <= double (double (u * 2) - 1) <= 1)%Q).
  { split.
    - apply Qle_trans with (double (-1)); [qle_compute|]. apply double_mono. lra.
    - apply Qle_trans with (double 1); [|qle_compute]. apply double_mono. lra. }
  split.
  - apply Qle_trans with (single (-1)); [qle_compute|]. apply single_mono. lra.
  - apply Qle_trans with (single 1); [|qle_compute]. apply single_mono. lra.
Qed.

(** C6 (amended): when the generator yields values in [0, 1) and
    [rate * seconds], computed in double precision, is at least 0 and
    below 2^63, the signal of [test_gen_noise] has two channels, 16 bits,
    the requested rate and [floor (rate * seconds)] frames; its samples are
    the first draws of the generator seeded with 0, mapped to [2 u - 1] and
    stored in single precision, and each lies in [-1, 1]. *)
Theorem test_gen_noise_signal (saved : bool) (seconds : Q) (rate : Z) :
  (∀ i, 0 <= random_double 0 i < 1)%Q →
  (0 <= double (inject_Z rate * seconds) < 9223372036854775808)%Q →
  let w := (test_gen_noise random_double saved seconds rate).2 in
  let frames := Qfloor (double (inject_Z rate * seconds)) in
  n_channels w = 2%Z ∧ bit_depth w = 16%Z ∧ sample_rate w = rate ∧
  n_frames w = frames ∧
  samples w = map (λ i, noise_sample (random_double 0 i))
                  (seq 0 (Z.to_nat (2 * frames))) ∧
  Forall (λ x, -1 <= x <= 1)%Q (samples w).
Proof.
  intros Hu Hx w frames.
  assert (Hf : (0 <= frames < 2 ^ 63)%Z).
  { unfold frames. split.
    - rewrite <- (Qfloor_Z 0). apply Qfloor_resp_le. change (inject_Z 0) with 0%Q. lra.
    - rewrite Zlt_Qlt. eapply Qle_lt_trans; [apply Qfloor_le|].
      eapply Qlt_le_trans; [apply Hx|]. qle_compute. }
  assert (Hn : noise_frames seconds rate = frames).
  { unfold noise_frames. rewrite trunc_nonneg by lra. by apply wrap64_small; lia. }
  subst w. unfold test_gen_noise. cbn [snd n_channels bit_depth sample_rate samples].
  rewrite Hn. rewrite (wrap64_small (frames * 2)) by lia.
  replace (frames * 2)%Z with (2 * frames)%Z by lia.
  split_and!; try done.
  - unfold n_frames, n_values. cbn [samples n_channels].
    rewrite length_map, length_seq, Z2Nat.id by lia.
    rewrite (wrap64_small 2) by lia. rewrite Z.mul_comm. by apply Z.div_mul.
  - apply Forall_map, Forall_forall. intros i _. by apply noise_sample_range.
Qed.
End TestGenNoise.

(** C6, as stated, fails.  Three inputs: a duration of 2^63 seconds at
    rate 1, for which the sample count wraps around to 0; a duration of
    -1/2 second, which is truncated to 0 frames and not floored to -1; and
    a generator that yields 1 - 2^-53, for which the stored sample is 1. *)
Lemma test_gen_noise_counterexample :
  ¬ test_gen_noise_claim (λ _ _, 1 # 2)%Q true 9223372036854775808 1 ∧
  ¬ test_gen_noise_claim (λ _ _, 1 # 2)%Q true (- 1 # 2) 1 ∧
  ¬ test_gen_noise_claim (λ _ _, 1 - (1 # 2) ^ 53)%Q true 1 1.
Proof.
  split_and!.
  - intros (_ & _ & _ & H & _). vm_compute in H. discriminate H.
  - intros (_ & _ & _ & H & _). vm_compute in H. discriminate H.
  - intros (_ & _ & _ & _ & H).
    apply Forall_cons in H as [[_ H] _]. vm_compute in H. discriminate H.
Qed.

Lemma test_gen_noise_signal_witness :
  let w := (test_gen_noise (λ _ _, 1 # 2)%Q true (1 # 10) 44100).2 in
  let frames := Qfloor (Float.double (inject_Z 44100 * (1 # 10))) in
  n_channels w = 2%Z ∧ bit_depth w = 16%Z ∧ sample_rate w = 44100%Z ∧
  n_frames w = frames ∧
  samples w = map (λ i, noise_sample ((λ _ _, 1 # 2)%Q 0%Z i))
                  (seq 0 (Z.to_nat (2 * frames))) ∧
  Forall (λ x, -1 <= x <= 1)%Q (samples w).
Proof.
  apply (test_gen_noise_signal (λ _ _, 1 # 2)%Q true (1 # 10) 44100).
  - intros i. split; [discriminate | reflexivity].
  - split; [apply Qle_bool_iff | apply Qlt_alt]; vm_compute; reflexivity.
Defined.

(** ** Embedder *)

Module EmbedderFacts.
Import Embedder.



End EmbedderFacts.

(** ** ArgParser, continued *)

Module ArgParserMore.
Import ArgParser ArgSpec ArgParserFacts.

Lemma substring_0_append (start rest : string) :
  String.substring 0 (String.length start) (start +:+ rest) = start.
Proof. induction start as [|c start IH]; simpl; [by destruct rest | by rewrite IH]. Qed.

Lemma substring_0_eq (start : string) : ∀ s,
  String.substring 0 (String.length start) s = start → ∃ rest, s = start +:+ rest.
Proof.
  induction start as [|c start IH]; intros s H; simpl in *.
  - by exists s.
  - destruct s as [|c' s]; [done|]. simpl in H. injection H as -> H.
    apply IH in H as [rest ->]. by exists rest.
Qed.

Lemma starts_with_iff (s start : string) :
  starts_with s start = true ↔ ∃ rest, s = start +:+ rest.
Proof.
  unfold starts_with. rewrite String.eqb_eq. split.
  - apply substring_0_eq.
  - intros [rest ->]. apply substring_0_append.
Qed.

Lemma substring_all (s : string) : String.substring 0 (String.length s) s = s.
Proof. induction s as [|c s IH]; simpl; [done | by rewrite IH]. Qed.

Lemma substr_from_append (start rest : string) :
  substr_from (String.length start) (start +:+ rest) = rest.
Proof.
  unfold substr_from. rewrite length_append.
  replace (String.length start + String.length rest - String.length start)
    with (String.length rest) by lia.
  induction start as [|c start IH]; simpl; [apply substring_all | done].
Qed.

Lemma append_assoc (a b c : string) : (a +:+ b) +:+ c = a +:+ (b +:+ c).
Proof.
  induction a as [|x a IH]; [done|].
  change (String x ((a +:+ b) +:+ c) = String x (a +:+ (b +:+ c))). by rewrite IH.
Qed.

Lemma mentions_is_option (option a : string) :
  is_option option = true → mentions option a → is_option a = true.
Proof.
  intros Ho [->|Hs]; [done|].
  apply starts_with_iff in Hs as [rest ->].
  destruct option as [|c [|c' o]]; done.
Qed.

Lemma positional_no_mention (option : string) (l : list string) :
  is_option option = true → positional l → Forall (λ a, ¬ mentions option a) l.
Proof.
  intros Ho Hp. eapply Forall_impl; [exact Hp|]. intros a Ha Hm. simpl in Ha.
  apply (mentions_is_option _ _ Ho) in Hm. congruence.
Qed.

Lemma no_mention_no_occurrence (option : string) (l : list string) :
  Forall (λ a, ¬ mentions option a) l → ∀ i, ¬ occurs_at option l i.
Proof.
  intros Hl i (a & Ha & H). rewrite Forall_forall in Hl.
  apply (Hl a); [by eapply list_elem_of_lookup_2|].
  destruct H as [[-> _]|H]; [by left | by right].
Qed.

Lemma scan_no_mention (option : string) (l : list string) out found :
  Forall (λ a, ¬ mentions option a) l → scan option l out found = (l, out, found).
Proof. intros H. by apply scan_none, no_mention_no_occurrence. Qed.

Lemma scan_app_skip (option : string) (pre l : list string) out found :
  Forall (λ a, ¬ mentions option a) pre →
  scan option (pre ++ l) out found
  = let '(kept, out', found') := scan option l out found in (pre ++ kept, out', found').
Proof.
  induction pre as [|a pre IH]; intros Hpre.
  - simpl. by destruct (scan option l out found) as [[k o] f].
  - apply Forall_cons in Hpre as [Ha Hpre]. rewrite <- app_comm_cons.
    rewrite scan_keep.
    + rewrite IH by done. by destruct (scan option l out found) as [[k o] f].
    + left. intros ->. apply Ha. by left.
    + apply not_true_is_false. intros Hs. apply Ha. by right.
Qed.

Lemma parse_opt_positional (option out : string) (ap : t) :
  is_option option = true → positional (m_args ap) →
  parse_opt option out ap = (false, out, ap).
Proof.
  intros Ho Hp. rewrite parse_opt_scan, scan_no_mention; [by destruct ap|].
  by apply positional_no_mention.
Qed.

Lemma list_find_first (option : string) (pre post : list string) :
  option ∉ pre →
  list_find (λ a, a = option) (pre ++ option :: post) = Some (length pre, option).
Proof.
  intros Hpre. apply list_find_Some. split; [by apply list_lookup_middle|].
  split; [done|]. intros j y Hj Hlt ->.
  rewrite lookup_app_l in Hj by done. apply Hpre. by eapply list_elem_of_lookup_2.
Qed.

Lemma parse_flag_absent (option : string) (ap : t) :
  option ∉ m_args ap → parse_flag option ap = (false, ap).
Proof.
  intros Hn. unfold parse_flag.
  destruct (list_find _ _) as [[i x]|] eqn:E; [|done].
  apply list_find_Some in E as (Hi & -> & _).
  exfalso. apply Hn. by eapply list_elem_of_lookup_2.
Qed.

Lemma parse_flag_positional (option : string) (ap : t) :
  is_option option = true → positional (m_args ap) → parse_flag option ap = (false, ap).
Proof.
  intros Ho Hp. apply parse_flag_absent. intros Hin.
  unfold positional in Hp. rewrite Forall_forall in Hp. apply Hp in Hin. congruence.
Qed.


(** X2: [parse_opt (option)] erases the first argument equal to the
    option and no other: a second copy stays in the list.  Without such an
    argument it returns false and leaves the parser as it was. *)
Theorem parse_flag_first (option : string) (ap : t) :
  (option ∉ m_args ap → parse_flag option ap = (false, ap)) ∧
  (∀ pre post, m_args ap = pre ++ option :: post → option ∉ pre →
     parse_flag option ap = (true, mk (pre ++ post) (m_command ap))).
Proof.
  split; [apply parse_flag_absent|].
  intros pre post Hargs Hpre. unfold parse_flag.
  rewrite Hargs, list_find_first by done.
  pose proof (erase_middle pre [option] post) as H. simpl in H. by rewrite H.
Qed.

Lemma parse_flag_first_witness :
  parse_flag "--hard" (mk ["in.wav"; "--hard"; "--json"; "--hard"] "get")
  = (true, mk ["in.wav"; "--json"; "--hard"] "get").
Proof.
  apply (proj2 (parse_flag_first "--hard" (mk ["in.wav"; "--hard"; "--json"; "--hard"] "get"))
           ["in.wav"] ["--json"; "--hard"]).
  - reflexivity.
  - intros H. apply list_elem_of_singleton in H. discriminate H.
Defined.

(** X3: an option given once, in either form and at any position among
    arguments that do not mention it, is extracted exactly: [parse_opt]
    returns true, [out_s] is the value (whatever it is, the empty string or
    another option included), and the other arguments are left in their
    order. *)
Theorem parse_opt_extracts (option out v c : string) (pre post : list string) :
  Forall (λ a, ¬ mentions option a) pre →
  Forall (λ a, ¬ mentions option a) post →
  parse_opt option out (mk (pre ++ [option; v] ++ post) c) = (true, v, mk (pre ++ post) c) ∧
  parse_opt option out (mk (pre ++ [option +:+ "=" +:+ v] ++ post) c)
  = (true, v, mk (pre ++ post) c).
Proof.
  intros Hpre Hpost. split; rewrite parse_opt_scan; cbn [m_args m_command].
  - rewrite scan_app_skip by done. cbn [app]. rewrite scan_pair.
    by rewrite scan_no_mention.
  - rewrite scan_app_skip by done. cbn [app].
    rewrite <- (append_assoc option "=" v).
    rewrite scan_eq by (apply starts_with_iff; by exists v).
    rewrite scan_no_mention by done.
    replace (String.length option + 1) with (String.length (option +:+ "="))
      by (rewrite length_append; simpl; lia).
    by rewrite substr_from_append.
Qed.

Lemma parse_opt_extracts_witness :
  parse_opt "--key" "old" (mk (["in.wav"] ++ ["--key"; ""] ++ ["out.wav"]) "add")
  = (true, "", mk (["in.wav"] ++ ["out.wav"]) "add") ∧
  parse_opt "--key" "old" (mk (["in.wav"] ++ ["--key" +:+ "=" +:+ ""] ++ ["out.wav"]) "add")
  = (true, "", mk (["in.wav"] ++ ["out.wav"]) "add").
Proof.
  apply (parse_opt_extracts "--key" "old" "" "add" ["in.wav"] ["out.wav"]).
  - apply Forall_singleton. intros [H|H]; discriminate H.
  - apply Forall_singleton. intros [H|H]; discriminate H.
Defined.

(** X20: [parse_opt (option, out_s)] is idempotent: on the parser
    that a first call leaves, a second call for the same option finds
    nothing, returns false and changes neither [out_s] nor the parser. *)
Theorem parse_opt_idempotent (option out out' : string) (ap : t) :
  let ap' := (parse_opt option out ap).2 in
  parse_opt option out' ap' = (false, out', ap').
Proof.
  cbv zeta. rewrite (parse_opt_scan option out ap).
  pose proof (scan_kept_clean option (m_args ap) out false) as Hclean.
  destruct (scan option (m_args ap) out false) as [[kept o] f]. cbn [fst snd] in *.
  rewrite parse_opt_scan. cbn [m_args m_command].
  by rewrite scan_none.
Qed.

End ArgParserMore.

(** ** The driver on positional arguments *)

Lemma state_eta (s : state) : State (ap s) (params s) (trace s) = s.
Proof. by destruct s. Qed.

Section QuietRules.
Context {A B : Type}.

Lemma quiet_bind (m : M A) (f : A → M B) x y :
  quiet m x → quiet (f x) y → quiet (m ≫= f) y.
Proof. intros Hm Hf s Hp Hk. rewrite bind_run, (Hm s Hp Hk). by apply Hf. Qed.

Lemma quiet_ret (x : A) : quiet (mret x) x.
Proof. by intros s _ _. Qed.
End QuietRules.

Lemma parse_opt_none (opt out : string) (a : ArgParser.t) :
  (∀ i, ¬ ArgSpec.occurs_at opt (ArgParser.m_args a) i) →
  ArgParser.parse_opt opt out a = (false, out, a).
Proof.
  intros H. rewrite ArgParserFacts.parse_opt_scan, ArgParserFacts.scan_none by done.
  by destruct a.
Qed.

Lemma quiet_parse_opt_string opt :
  opt ∈ value_options → quiet (parse_opt_string opt) None.
Proof.
  intros Ho s [Hv _] _. unfold parse_opt_string.
  rewrite parse_opt_none by by apply Hv. by rewrite state_eta.
Qed.

Lemma quiet_parse_flag opt : opt ∈ flag_options → quiet (parse_flag opt) false.
Proof.
  intros Ho s [_ Hf] _. unfold parse_flag.
  rewrite ArgParserMore.parse_flag_absent by by apply Hf. by rewrite state_eta.
Qed.

Lemma quiet_parse_opt_param opt name :
  opt ∈ value_options → quiet (parse_opt_param opt name) ().
Proof.
  intros Ho. unfold parse_opt_param.
  eapply quiet_bind; [by apply quiet_parse_opt_string | apply quiet_ret].
Qed.

Lemma quiet_parse_opt_with opt parse names :
  opt ∈ value_options → quiet (parse_opt_with opt parse names) ().
Proof.
  intros Ho. unfold parse_opt_with.
  eapply quiet_bind; [by apply quiet_parse_opt_string | apply quiet_ret].
Qed.

Lemma quiet_parse_opt_int opt : opt ∈ value_options → quiet (parse_opt_int opt) None.
Proof.
  intros Ho. unfold parse_opt_int.
  eapply quiet_bind; [by apply quiet_parse_opt_string | apply quiet_ret].
Qed.

Lemma quiet_parse_opt_float atof opt :
  opt ∈ value_options → quiet (parse_opt_float atof opt) None.
Proof.
  intros Ho. unfold parse_opt_float.
  eapply quiet_bind; [by apply quiet_parse_opt_string | apply quiet_ret].
Qed.

Lemma quiet_key_check :
  quiet (n ← get_param_int "have_key";
         if bool_decide (n > 1)%Z then error key_conflict_message [];; exit 1 else mret ()) ().
Proof.
  intros s _ Hk. rewrite bind_run. unfold get_param_int. cbv beta iota.
  unfold have_key in Hk. by rewrite bool_decide_eq_false_2 by lia.
Qed.

(** Closed decisions, by evaluation. *)
Ltac eval_decide :=
  repeat match goal with
         | |- context [bool_decide ?P] =>
             let b := eval vm_compute in (bool_decide P) in
             match b with
             | true => change (bool_decide P) with true
             | false => change (bool_decide P) with false
             end
         end.

(** Closed propositions with a decision procedure, by evaluation. *)
Ltac decide_closed := apply (bool_decide_unpack _); vm_compute; exact I.

Ltac quiet_prim :=
  first [ apply quiet_key_check
        | apply quiet_parse_opt_string; decide_closed
        | apply quiet_parse_flag; decide_closed
        | apply quiet_parse_opt_param; decide_closed
        | apply quiet_parse_opt_with; decide_closed
        | apply quiet_parse_opt_int; decide_closed
        | apply quiet_parse_opt_float; decide_closed
        | apply quiet_ret ].

Ltac quiet_go :=
  repeat first
    [ quiet_prim
    | eapply quiet_bind; [solve [quiet_go] | cbv beta iota zeta delta [when incr_if]; eval_decide;
                                            cbv beta iota ] ].

Section QuietDriver.
Variable atof : string → Q.
Variable short_code_init : Z → bool.

Lemma quiet_parse_shared_options : quiet (parse_shared_options atof short_code_init) ().
Proof. unfold parse_shared_options. quiet_go. Qed.

Lemma quiet_parse_add_options : quiet parse_add_options ().
Proof. unfold parse_add_options. quiet_go. Qed.

Lemma quiet_parse_get_options : quiet (parse_get_options atof) ().
Proof. unfold parse_get_options. quiet_go. Qed.

Lemma quiet_main_global_options VERSION : quiet (main_global_options VERSION) ().
Proof. unfold main_global_options, or_else. quiet_go. Qed.

End QuietDriver.

(** ** Inert arguments *)

Lemma known_options_are_options :
  Forall (λ opt, is_option opt = true) (value_options ++ flag_options).
Proof. decide_closed. Qed.

Lemma value_option_is_option opt : opt ∈ value_options → is_option opt = true.
Proof.
  intros H. pose proof known_options_are_options as Hall.
  rewrite Forall_forall in Hall. apply Hall, elem_of_app. by left.
Qed.

Lemma flag_option_is_option opt : opt ∈ flag_options → is_option opt = true.
Proof.
  intros H. pose proof known_options_are_options as Hall.
  rewrite Forall_forall in Hall. apply Hall, elem_of_app. by right.
Qed.

Lemma inert_no_mention (args : list string) :
  (∀ opt, opt ∈ value_options → Forall (λ a, ¬ mentions opt a) args) →
  (∀ opt, opt ∈ flag_options → opt ∉ args) → inert args.
Proof.
  intros Hv Hf. split; [|done].
  intros opt Ho. by apply ArgParserMore.no_mention_no_occurrence, Hv.
Qed.

Lemma positional_inert (args : list string) : positional args → inert args.
Proof.
  intros Hp. apply inert_no_mention.
  - intros opt Ho. apply ArgParserMore.positional_no_mention; [|done].
    by apply value_option_is_option.
  - intros opt Ho Hin. apply flag_option_is_option in Ho.
    unfold positional in Hp. rewrite Forall_forall in Hp. apply Hp in Hin. congruence.
Qed.

Lemma inert_cons (a : string) (args : list string) :
  is_option a = false → inert args → inert (a :: args).
Proof.
  intros Ha [Hv Hf]. split.
  - intros opt Ho [|i] Hi.
    + destruct Hi as (b & [= <-] & H).
      assert (Hm : mentions opt a) by (destruct H as [[-> _]|H]; [by left | by right]).
      apply (ArgParserMore.mentions_is_option opt a) in Hm; [congruence|].
      by apply value_option_is_option.
    + by apply (Hv opt Ho i).
  - intros opt Ho Hin. apply elem_of_cons in Hin as [->|Hin]; [|by apply (Hf opt Ho)].
    apply flag_option_is_option in Ho. congruence.
Qed.

(** ** parse_positional *)

Lemma parse_positional_ok vs s :
  length (ArgParser.m_args (ap s)) = length vs → positional (ArgParser.m_args (ap s)) →
  parse_positional vs s = (Ret (ArgParser.m_args (ap s)), s).
Proof.
  intros Hlen Hp. unfold parse_positional, ArgParser.parse_args.
  rewrite decide_True by done.
  assert (H : forallb (λ a, negb (is_option a)) (ArgParser.m_args (ap s)) = true).
  { apply forallb_forall. intros a Ha. unfold positional in Hp. rewrite Forall_forall in Hp.
    rewrite Hp; [done|]. by apply list_elem_of_In. }
  by rewrite H.
Qed.

Lemma parse_args_option n a (pre post : list string) ap :
  ArgParser.m_args ap = pre ++ a :: post → is_option a = true →
  ArgParser.parse_args n ap = None.
Proof.
  intros Hargs Ha. unfold ArgParser.parse_args. destruct (decide _); [|done].
  assert (H : forallb (λ a, negb (is_option a)) (ArgParser.m_args ap) = false).
  { apply not_true_is_false. rewrite forallb_forall. intros H.
    specialize (H a). rewrite Ha in H. apply Is_true_true in H; [done|].
    rewrite Hargs. apply in_or_app. right. by left. }
  by rewrite H.
Qed.

Lemma parse_positional_option vs s pre a post :
  ArgParser.m_args (ap s) = pre ++ a :: post → positional pre → is_option a = true →
  parse_positional vs s
  = (Exit 1,
     State (ap s) (params s)
       (trace s ++ [Error "audiowmark: unsupported option '%s' for command '%s' (use audiowmark -h)\n"
                      [VStr a; VStr (ArgParser.m_command (ap s))]])).
Proof.
  intros Hargs Hp Ha. unfold parse_positional.
  rewrite (parse_args_option _ a pre post) by done.
  unfold ArgParser.remaining_args, ArgParser.command.
  assert (H : list_find (λ a, is_option a = true) (ArgParser.m_args (ap s))
              = Some (length pre, a)).
  { rewrite Hargs.
    apply list_find_Some. split; [by apply list_lookup_middle|]. split; [done|].
    intros j y Hj Hlt Hy. rewrite lookup_app_l in Hj by done.
    unfold positional in Hp. rewrite Forall_forall in Hp.
    rewrite Hp in Hy; [done|]. by eapply list_elem_of_lookup_2. }
  by rewrite H.
Qed.

Lemma parse_positional_count vs s :
  length (ArgParser.m_args (ap s)) ≠ length vs → positional (ArgParser.m_args (ap s)) →
  parse_positional vs s
  = (Exit 1,
     State (ap s) (params s)
       (trace s ++ [Error "audiowmark: error parsing arguments for command '%s' (use audiowmark -h)\n\n"
                      [VStr (ArgParser.m_command (ap s))];
                    Error "%s\n" [VStr (usage_line (ArgParser.m_command (ap s)) vs)]])).
Proof.
  intros Hlen Hp. unfold parse_positional, ArgParser.parse_args.
  rewrite decide_False by done.
  assert (H : list_find (λ a, is_option a = true) (ArgParser.remaining_args (ap s)) = None).
  { apply list_find_None. eapply Forall_impl; [exact Hp|]. intros a Ha. simpl in *. congruence. }
  rewrite H. unfold error, emit, exit. rewrite !bind_run. cbn [ap params trace].
  by rewrite <- app_assoc.
Qed.

(** X4: [parse_positional] returns the remaining arguments only when
    their number is the number of names and none of them is an option, and
    then it changes and reports nothing.  Otherwise it leaves the process
    with status 1: when an argument is an option, after reporting the first
    such argument as unsupported; when only the number is wrong, after
    reporting the command and its usage line. *)
Theorem parse_positional_outcome (vs : list string) (s : state) :
  let args := ArgParser.m_args (ap s) in
  let command := ArgParser.m_command (ap s) in
  (length args = length vs → positional args → parse_positional vs s = (Ret args, s)) ∧
  (∀ pre a post, args = pre ++ a :: post → positional pre → is_option a = true →
     parse_positional vs s
     = (Exit 1,
        State (ap s) (params s)
          (trace s ++ [Error "audiowmark: unsupported option '%s' for command '%s' (use audiowmark -h)\n"
                         [VStr a; VStr command]]))) ∧
  (length args ≠ length vs → positional args →
     parse_positional vs s
     = (Exit 1,
        State (ap s) (params s)
          (trace s ++ [Error "audiowmark: error parsing arguments for command '%s' (use audiowmark -h)\n\n"
                         [VStr command];
                       Error "%s\n" [VStr (usage_line command vs)]]))).
Proof.
  cbv zeta. split_and!.
  - apply parse_positional_ok.
  - intros pre a post. apply parse_positional_option.
  - apply parse_positional_count.
Qed.

Lemma parse_positional_outcome_witness :
  let s := State (ArgParser.mk ["in.wav"; "--bogus"; "-"] "get") ∅ [] in
  parse_positional ["watermarked_wav"] s
  = (Exit 1,
     State (ap s) ∅
       [Error "audiowmark: unsupported option '%s' for command '%s' (use audiowmark -h)\n"
          [VStr "--bogus"; VStr "get"]]).
Proof.
  intros s.
  apply (proj1 (proj2 (parse_positional_outcome ["watermarked_wav"] s)) ["in.wav"] "--bogus" ["-"]).
  - reflexivity.
  - apply Forall_singleton. reflexivity.
  - reflexivity.
Defined.

(** ** Dispatch *)

Lemma parse_cmd_nil cmd s :
  ArgParser.m_args (ap s) = [] → parse_cmd cmd s = (Ret false, s).
Proof.
  intros Hs. unfold parse_cmd, ArgParser.parse_cmd. rewrite Hs. by rewrite state_eta.
Qed.

Lemma parse_cmd_other cmd x rest s :
  ArgParser.m_args (ap s) = x :: rest → x ≠ cmd → parse_cmd cmd s = (Ret false, s).
Proof.
  intros Hs Hne. rewrite (parse_cmd_run _ _ _ _ Hs).
  apply String.eqb_neq in Hne. by rewrite Hne.
Qed.

Ltac run_cmds Hs :=
  unfold main_commands, on_cmd;
  repeat (rewrite bind_run, (parse_cmd_run _ _ _ _ Hs); eval_eqb; cbv beta iota).

Ltac run_quiet Hp Hk :=
  repeat (rewrite bind_run;
          first [ rewrite (quiet_parse_shared_options _ _ _ Hp Hk)
                | rewrite (quiet_parse_add_options _ Hp Hk)
                | rewrite (quiet_parse_get_options _ _ Hp Hk)
                | rewrite (quiet_parse_opt_param "--bit-rate" "hls_bit_rate"
                             ltac:(decide_closed) _ Hp Hk)
                | rewrite (quiet_parse_opt_param "--expect-matches" "expect_matches"
                             ltac:(decide_closed) _ Hp Hk) ];
          cbv beta iota).

Section Dispatch.
Variable atof : string → Q.
Variable short_code_init : Z → bool.
Variable run : Cmd.t → Z.
Variable VERSION : string.

Lemma command_table_positional cmd names enter :
  (cmd, names, enter) ∈ command_table atof → is_option cmd = false.
Proof.
  unfold command_table. intros Hin.
  repeat (apply elem_of_cons in Hin as [[= -> _ _]|Hin]; [reflexivity|]).
  by apply elem_of_nil in Hin.
Qed.

(** With inert arguments after the command word, [main] comes to
    [parse_positional] with these arguments, having changed nothing else. *)
Lemma main_commands_inert cmd names enter args s :
  (cmd, names, enter) ∈ command_table atof →
  ArgParser.m_args (ap s) = cmd :: args → inert args → (have_key s ≤ 1)%Z →
  main_commands atof short_code_init run s
  = (found ← parse_positional names; call run (enter found))
      (State (ArgParser.mk args cmd) (params s) (trace s)).
Proof.
  unfold command_table. intros Hin Hs Hp Hk.
  assert (Hp' : inert
                  (ArgParser.m_args (ap (State (ArgParser.mk args cmd) (params s) (trace s)))))
    by done.
  assert (Hk' : (have_key (State (ArgParser.mk args cmd) (params s) (trace s)) ≤ 1)%Z)
    by done.
  repeat (apply elem_of_cons in Hin as [Heq|Hin];
          [injection Heq as -> -> ->; run_cmds Hs; run_quiet Hp' Hk'; reflexivity|]).
  by apply elem_of_nil in Hin.
Qed.

Lemma main_inert cmd names enter args prog p :
  (cmd, names, enter) ∈ command_table atof → inert args →
  (get_int "have_key" p ≤ 1)%Z →
  main_body atof short_code_init run VERSION (State (ArgParser.init (prog :: cmd :: args)) p [])
  = (found ← parse_positional names; call run (enter found))
      (State (ArgParser.mk args cmd) p []).
Proof.
  intros Hin Hp Hk. unfold main_body. rewrite bind_run.
  rewrite quiet_main_global_options.
  - by rewrite (main_commands_inert cmd names enter args).
  - apply inert_cons; [by eapply command_table_positional | done].
  - done.
Qed.

Lemma main_positional cmd names enter args prog p :
  (cmd, names, enter) ∈ command_table atof → positional args →
  (get_int "have_key" p ≤ 1)%Z →
  main_body atof short_code_init run VERSION (State (ArgParser.init (prog :: cmd :: args)) p [])
  = (found ← parse_positional names; call run (enter found))
      (State (ArgParser.mk args cmd) p []).
Proof. intros Hin Hp Hk. apply main_inert; [done | by apply positional_inert | done]. Qed.

(** X5: every command, called with exactly its positional arguments
    and no option, is entered with these arguments, in the order given; the
    parameters are untouched, nothing is reported, and the status of the
    process is the status of the command. *)
Theorem main_enters_command (cmd prog : string) (names args : list string)
    (enter : list string → Cmd.t) (p : gmap string value) :
  (cmd, names, enter) ∈ command_table atof →
  length args = length names → positional args → (get_int "have_key" p ≤ 1)%Z →
  main atof short_code_init run VERSION (prog :: cmd :: args) p
  = (run (enter args), State (ArgParser.mk args cmd) p [Run (enter args)]).
Proof.
  intros Hin Hlen Hp Hk. unfold main.
  rewrite (main_positional cmd names enter) by done.
  rewrite bind_run, parse_positional_ok by done. done.
Qed.

(** X6: every command, called with positional arguments only but not
    with the number that it expects, is not entered: [main] reports the
    command, then its usage line with the names of the arguments, and
    returns 1. *)
Theorem main_rejects_argument_count (cmd prog : string) (names args : list string)
    (enter : list string → Cmd.t) (p : gmap string value) :
  (cmd, names, enter) ∈ command_table atof →
  length args ≠ length names → positional args → (get_int "have_key" p ≤ 1)%Z →
  main atof short_code_init run VERSION (prog :: cmd :: args) p
  = (1%Z,
     State (ArgParser.mk args cmd) p
       [Error "audiowmark: error parsing arguments for command '%s' (use audiowmark -h)\n\n"
          [VStr cmd];
        Error "%s\n" [VStr (usage_line cmd names)]]).
Proof.
  intros Hin Hlen Hp Hk. unfold main.
  rewrite (main_positional cmd names enter) by done.
  rewrite bind_run, parse_positional_count by done. done.
Qed.


(** X8: when the first argument left after the global options is not a
    command word, or when no argument is left, [main] reports it and
    leaves with status 1: an option is reported as an unsupported global
    option (so the options of a command cannot precede the command),
    anything else as an unsupported command. *)
Theorem main_commands_unknown (s : state) :
  (ArgParser.m_args (ap s) = [] →
   main_commands atof short_code_init run s
   = (Exit 1,
      State (ap s) (params s)
        (trace s ++ [Error "audiowmark: error parsing commandline args (use audiowmark -h)\n" []])))
  ∧
  (∀ a rest, ArgParser.m_args (ap s) = a :: rest → a ∉ commands →
   main_commands atof short_code_init run s
   = (Exit 1,
      State (ap s) (params s)
        (trace s ++ [Error (if is_option a
                            then "audiowmark: unsupported global option '%s' (use audiowmark -h)\n"
                            else "audiowmark: unsupported command '%s' (use audiowmark -h)\n")
                       [VStr a]]))).
Proof.
  split.
  - intros Hs. unfold main_commands, on_cmd.
    repeat (rewrite bind_run, (parse_cmd_nil _ _ Hs); cbv beta iota).
    unfold ArgParser.remaining_args. by rewrite Hs.
  - intros a rest Hs Hn. unfold commands in Hn. cbn in Hn.
    repeat (apply not_elem_of_cons in Hn as [? Hn]).
    unfold main_commands, on_cmd.
    repeat (rewrite bind_run, (parse_cmd_other _ _ _ _ Hs) by done; cbv beta iota).
    unfold ArgParser.remaining_args. rewrite Hs. by destruct (is_option a).
Qed.

Lemma value_options_not_prefixed :
  Forall (λ o, Forall (λ opt, ArgParser.starts_with o (opt +:+ "=") = false) value_options)
         value_options.
Proof. decide_closed. Qed.

Lemma value_options_not_flags : Forall (λ o, o ∉ flag_options) value_options.
Proof. decide_closed. Qed.

Lemma inert_unknown_option (pre post : list string) (o : string) :
  positional pre → positional post →
  Forall (λ opt, ¬ mentions opt o) value_options → o ∉ flag_options →
  inert (pre ++ o :: post).
Proof.
  intros Hpre Hpost Hv Hf. apply inert_no_mention.
  - intros opt Ho. apply Forall_app. split; [|apply Forall_cons; split].
    + apply ArgParserMore.positional_no_mention; [by apply value_option_is_option | done].
    + rewrite Forall_forall in Hv. by apply Hv.
    + apply ArgParserMore.positional_no_mention; [by apply value_option_is_option | done].
  - intros opt Ho Hin.
    assert (Hopt : is_option opt = true) by by apply flag_option_is_option.
    unfold positional in Hpre, Hpost. rewrite Forall_forall in Hpre, Hpost.
    apply elem_of_app in Hin as [Hin|Hin]; [apply Hpre in Hin; congruence|].
    apply elem_of_cons in Hin as [->|Hin]; [done|]. apply Hpost in Hin. congruence.
Qed.

Lemma inert_missing_value (pos : list string) (o : string) :
  positional pos → o ∈ value_options → inert (pos ++ [o]).
Proof.
  intros Hpos Ho. split.
  - intros opt Hopt i (a & Ha & H).
    destruct (decide (i < length pos)) as [Hlt|Hge].
    + rewrite lookup_app_l in Ha by done.
      assert (Hm : mentions opt a) by (destruct H as [[-> _]|H]; [by left | by right]).
      apply (ArgParserMore.mentions_is_option opt a) in Hm;
        [|by apply value_option_is_option].
      unfold positional in Hpos. rewrite Forall_forall in Hpos.
      rewrite Hpos in Hm; [done|]. by eapply list_elem_of_lookup_2.
    + rewrite lookup_app_r in Ha by lia.
      destruct (i - length pos) as [|k] eqn:Ek; [|done]. injection Ha as <-.
      destruct H as [[_ Hnext]|Hs].
      * rewrite lookup_app_r in Hnext by lia.
        replace (S i - length pos) with 1 in Hnext by lia. by destruct Hnext.
      * pose proof value_options_not_prefixed as Hall.
        rewrite Forall_forall in Hall. specialize (Hall o Ho).
        rewrite Forall_forall in Hall. specialize (Hall opt Hopt). congruence.
  - intros opt Hopt Hin.
    apply elem_of_app in Hin as [Hin|Hin].
    + apply flag_option_is_option in Hopt.
      unfold positional in Hpos. rewrite Forall_forall in Hpos. apply Hpos in Hin. congruence.
    + apply list_elem_of_singleton in Hin as ->.
      pose proof value_options_not_flags as Hall. rewrite Forall_forall in Hall.
      by apply (Hall o Ho).
Qed.

(** X21: for every command, an option that the driver does not know,
    given among positional arguments, is reported as unsupported for the
    command, and the process leaves with status 1 without entering the
    command or changing a parameter. *)
Theorem main_rejects_unknown_option (cmd prog o : string) (names pre post : list string)
    (enter : list string → Cmd.t) (p : gmap string value) :
  (cmd, names, enter) ∈ command_table atof →
  positional pre → positional post → is_option o = true →
  Forall (λ opt, ¬ mentions opt o) value_options → o ∉ flag_options →
  (get_int "have_key" p ≤ 1)%Z →
  main atof short_code_init run VERSION (prog :: cmd :: pre ++ o :: post) p
  = (1%Z,
     State (ArgParser.mk (pre ++ o :: post) cmd) p
       [Error "audiowmark: unsupported option '%s' for command '%s' (use audiowmark -h)\n"
          [VStr o; VStr cmd]]).
Proof.
  intros Hin Hpre Hpost Ho Hv Hf Hk. unfold main.
  rewrite (main_inert cmd names enter) by (try apply inert_unknown_option; done).
  rewrite bind_run. by rewrite (parse_positional_option _ _ pre o post).
Qed.

(** X22: for every command, an option that takes a value, given as the
    last argument and so without its value, is not consumed: it is
    reported as unsupported for the command, and the process leaves with
    status 1 without entering the command. *)
Theorem main_rejects_missing_value (cmd prog o : string) (names pos : list string)
    (enter : list string → Cmd.t) (p : gmap string value) :
  (cmd, names, enter) ∈ command_table atof →
  positional pos → o ∈ value_options → (get_int "have_key" p ≤ 1)%Z →
  main atof short_code_init run VERSION (prog :: cmd :: pos ++ [o]) p
  = (1%Z,
     State (ArgParser.mk (pos ++ [o]) cmd) p
       [Error "audiowmark: unsupported option '%s' for command '%s' (use audiowmark -h)\n"
          [VStr o; VStr cmd]]).
Proof.
  intros Hin Hpos Ho Hk. unfold main.
  rewrite (main_inert cmd names enter) by (try apply inert_missing_value; done).
  rewrite bind_run. rewrite (parse_positional_option _ _ pos o []); [done..|].
  by apply value_option_is_option.
Qed.

End Dispatch.

Lemma main_enters_command_witness :
  main (λ _, 0%Q) short_code_12_16_20 (λ _, 0%Z) "0.9.0"
       ["audiowmark"; "cmp"; "marked.wav"; "0123456789abcdef0123456789abcdef"] ∅
  = (0%Z,
     State (ArgParser.mk ["marked.wav"; "0123456789abcdef0123456789abcdef"] "cmp") ∅
       [Run (Cmd.get_watermark "marked.wav" "0123456789abcdef0123456789abcdef")]).
Proof.
  apply (main_enters_command (λ _, 0%Q) short_code_12_16_20 (λ _, 0%Z) "0.9.0"
           "cmp" "audiowmark" ["watermarked_wav"; "message_hex"]
           ["marked.wav"; "0123456789abcdef0123456789abcdef"]
           (λ args, Cmd.get_watermark (arg 0 args) (arg 1 args))).
  - unfold command_table. do 4 (apply elem_of_cons; right). apply elem_of_cons. left. reflexivity.
  - reflexivity.
  - repeat constructor.
  - vm_compute. discriminate.
Defined.

Lemma main_rejects_argument_count_witness :
  main (λ _, 0%Q) short_code_12_16_20 (λ _, 0%Z) "0.9.0"
       ["audiowmark"; "gen-key"] ∅
  = (1%Z,
     State (ArgParser.mk [] "gen-key") ∅
       [Error "audiowmark: error parsing arguments for command '%s' (use audiowmark -h)\n\n"
          [VStr "gen-key"];
        Error "%s\n" [VStr (usage_line "gen-key" ["key_file"])]]).
Proof.
  apply (main_rejects_argument_count (λ _, 0%Q) short_code_12_16_20 (λ _, 0%Z) "0.9.0"
           "gen-key" "audiowmark" ["key_file"] [] (λ args, Cmd.gen_key (arg 0 args))).
  - unfold command_table. do 5 (apply elem_of_cons; right). apply elem_of_cons. left. reflexivity.
  - discriminate.
  - constructor.
  - vm_compute. discriminate.
Defined.


Lemma main_commands_unknown_witness :
  let s := State (ArgParser.mk ["--key"; "k.txt"; "get"; "in.wav"] "") ∅ [] in
  main_commands (λ _, 0%Q) short_code_12_16_20 (λ _, 0%Z) s
  = (Exit 1,
     State (ap s) ∅
       ([] ++ [Error "audiowmark: unsupported global option '%s' (use audiowmark -h)\n"
                 [VStr "--key"]])).
Proof.
  intros s.
  apply (proj2 (main_commands_unknown (λ _, 0%Q) short_code_12_16_20 (λ _, 0%Z) s)
           "--key" ["k.txt"; "get"; "in.wav"]).
  - reflexivity.
  - vm_compute. intros H.
    repeat (apply elem_of_cons in H as [H|H]; [discriminate H|]).
    by apply elem_of_nil in H.
Defined.

Lemma main_rejects_unknown_option_witness :
  main (λ _, 0%Q) short_code_12_16_20 (λ _, 0%Z) "0.9.0"
       ("audiowmark" :: "get" :: ["in.wav"] ++ "--detect-speed=1" :: []) ∅
  = (1%Z,
     State (ArgParser.mk (["in.wav"] ++ "--detect-speed=1" :: []) "get") ∅
       [Error "audiowmark: unsupported option '%s' for command '%s' (use audiowmark -h)\n"
          [VStr "--detect-speed=1"; VStr "get"]]).
Proof.
  apply (main_rejects_unknown_option (λ _, 0%Q) short_code_12_16_20 (λ _, 0%Z) "0.9.0"
           "get" "audiowmark" "--detect-speed=1" ["watermarked_wav"] ["in.wav"] []
           (λ args, Cmd.get_watermark (arg 0 args) "")).
  - unfold command_table. do 3 (apply elem_of_cons; right). apply elem_of_cons. left. reflexivity.
  - repeat constructor.
  - constructor.
  - reflexivity.
  - unfold mentions. apply (bool_decide_unpack _). vm_compute. exact I.
  - apply (bool_decide_unpack _). vm_compute. exact I.
  - vm_compute. discriminate.
Defined.

Lemma main_rejects_missing_value_witness :
  main (λ _, 0%Q) short_code_12_16_20 (λ _, 0%Z) "0.9.0"
       ("audiowmark" :: "get" :: ["in.wav"] ++ ["--key"]) ∅
  = (1%Z,
     State (ArgParser.mk (["in.wav"] ++ ["--key"]) "get") ∅
       [Error "audiowmark: unsupported option '%s' for command '%s' (use audiowmark -h)\n"
          [VStr "--key"; VStr "get"]]).
Proof.
  apply (main_rejects_missing_value (λ _, 0%Q) short_code_12_16_20 (λ _, 0%Z) "0.9.0"
           "get" "audiowmark" "--key" ["watermarked_wav"] ["in.wav"]
           (λ args, Cmd.get_watermark (arg 0 args) "")).
  - unfold command_table. do 3 (apply elem_of_cons; right). apply elem_of_cons. left. reflexivity.
  - repeat constructor.
  - apply (bool_decide_unpack _). vm_compute. exact I.
  - vm_compute. discriminate.
Defined.

(** ** Global options *)

Lemma parse_flag_absent_run opt s :
  opt ∉ ArgParser.m_args (ap s) → parse_flag opt s = (Ret false, s).
Proof.
  intros H. unfold parse_flag.
  rewrite ArgParserMore.parse_flag_absent by done. by rewrite state_eta.
Qed.

Lemma parse_flag_present_run opt s :
  opt ∈ ArgParser.m_args (ap s) →
  ∃ a', parse_flag opt s = (Ret true, State a' (params s) (trace s)).
Proof.
  intros H. apply ArgParserFacts.flag_given_elem in H. unfold flag_given in H.
  unfold parse_flag. destruct (ArgParser.parse_flag opt (ap s)) as [found a'].
  simpl in H. subst found. by exists a'.
Qed.

Lemma ret_run {A} (x : A) (s : state) : (mret x : M A) s = (Ret x, s).
Proof. done. Qed.

Lemma or_else_present o1 o2 s :
  o1 ∈ ArgParser.m_args (ap s) ∨ o2 ∈ ArgParser.m_args (ap s) →
  ∃ a', or_else (parse_flag o1) (parse_flag o2) s = (Ret true, State a' (params s) (trace s)).
Proof.
  intros H. unfold or_else. rewrite bind_run.
  destruct (decide (o1 ∈ ArgParser.m_args (ap s))) as [H1|H1].
  - destruct (parse_flag_present_run o1 s H1) as [a' ->]. by exists a'.
  - rewrite parse_flag_absent_run by done. destruct H as [H|H]; [done|].
    by apply parse_flag_present_run.
Qed.

Lemma or_else_absent o1 o2 s :
  o1 ∉ ArgParser.m_args (ap s) → o2 ∉ ArgParser.m_args (ap s) →
  or_else (parse_flag o1) (parse_flag o2) s = (Ret false, s).
Proof.
  intros H1 H2. unfold or_else. rewrite bind_run.
  rewrite parse_flag_absent_run by done. by apply parse_flag_absent_run.
Qed.

Section GlobalOptions.
Variable atof : string → Q.
Variable short_code_init : Z → bool.
Variable run : Cmd.t → Z.
Variable VERSION : string.

(** X9: "--help" or "-h" anywhere on the command line makes [main]
    print the usage and return 0, whatever else is given; failing these,
    "--help-hls" prints the HLS usage; failing these, "--version" or "-v"
    prints the version.  In each case nothing else is printed or reported,
    no parameter is set and no command is entered. *)
Theorem main_information_options (argv : list string) (p : gmap string value) :
  let args := tail argv in
  let r := main atof short_code_init run VERSION argv p in
  ("--help" ∈ args ∨ "-h" ∈ args →
   r.1 = 0%Z ∧ trace r.2 = [PrintUsage] ∧ params r.2 = p) ∧
  ("--help" ∉ args → "-h" ∉ args → "--help-hls" ∈ args →
   r.1 = 0%Z ∧ trace r.2 = [PrintUsageHls] ∧ params r.2 = p) ∧
  ("--help" ∉ args → "-h" ∉ args → "--help-hls" ∉ args →
   "--version" ∈ args ∨ "-v" ∈ args →
   r.1 = 0%Z ∧ trace r.2 = [Printf "audiowmark %s\n" [VStr VERSION]] ∧ params r.2 = p).
Proof.
  intros args r. subst r. unfold main, main_body, main_global_options.
  set (s0 := State (ArgParser.init argv) p []).
  assert (Hargs : ArgParser.m_args (ap s0) = args) by done.
  assert (Htrace : trace s0 = []) by done.
  assert (Hparams : params s0 = p) by done.
  clearbody s0 args. rewrite <- Hargs. split_and!.
  - intros H.
    destruct (or_else_present "--help" "-h" s0 H) as [a' E].
    rewrite !bind_run, E. cbv beta iota. rewrite !bind_run. simpl.
    by rewrite Htrace.
  - intros H1 H2 H3.
    rewrite !bind_run, or_else_absent by done. cbv beta iota.
    rewrite !bind_run, ret_run. cbv beta iota.
    destruct (parse_flag_present_run "--help-hls" s0 H3) as [a' E].
    rewrite !bind_run, E. cbv beta iota. rewrite !bind_run. simpl.
    by rewrite Htrace.
  - intros H1 H2 H3 H4.
    rewrite !bind_run, or_else_absent by done. cbv beta iota.
    rewrite !bind_run, ret_run. cbv beta iota.
    rewrite !bind_run, parse_flag_absent_run by done. cbv beta iota.
    rewrite !bind_run, ret_run. cbv beta iota.
    destruct (or_else_present "--version" "-v" s0 H4) as [a' E].
    rewrite !bind_run, E. cbv beta iota. rewrite !bind_run. simpl.
    by rewrite Htrace.
Qed.

Lemma not_global_flag (flag : string) (l : list string) :
  flag ∈ global_flags → Forall (λ a, a ∉ global_flags) l → flag ∉ l.
Proof.
  intros Hf Hl Hin. rewrite Forall_forall in Hl. by apply (Hl flag).
Qed.

Lemma not_elem_of_middle (flag a : string) (pre post : list string) :
  flag ≠ a → flag ∉ pre ++ post → flag ∉ pre ++ a :: post.
Proof.
  intros Hne Hn Hin. apply Hn.
  apply elem_of_app in Hin as [Hin|Hin]; apply elem_of_app; [by left|].
  apply elem_of_cons in Hin as [?|Hin]; [done | by right].
Qed.

Lemma parse_flag_first_run (opt c : string) (pre post : list string) p t :
  opt ∉ pre →
  parse_flag opt (State (ArgParser.mk (pre ++ opt :: post) c) p t)
  = (Ret true, State (ArgParser.mk (pre ++ post) c) p t).
Proof.
  intros Hpre. unfold parse_flag, ArgParser.parse_flag. cbn [ap ArgParser.m_args].
  rewrite ArgParserMore.list_find_first by done.
  pose proof (ArgParserFacts.erase_middle pre [opt] post) as H. simpl in H. by rewrite H.
Qed.

Ltac absent_flag Hrest :=
  first [ apply not_elem_of_middle; [discriminate|] | idtac ];
  apply not_global_flag; [decide_closed | exact Hrest].

Ltac run_absent Hrest :=
  rewrite !bind_run;
  first [ rewrite or_else_absent by absent_flag Hrest
        | rewrite parse_flag_absent_run by absent_flag Hrest ];
  cbv beta iota delta [when]; rewrite !bind_run, ret_run; cbv beta iota.

Lemma main_global_options_strict (c : string) (pre post : list string) p t :
  Forall (λ a, a ∉ global_flags) (pre ++ post) →
  main_global_options VERSION (State (ArgParser.mk (pre ++ "--strict" :: post) c) p t)
  = (Ret (), State (ArgParser.mk (pre ++ post) c) (<["strict" := VBool true]> p) t).
Proof.
  intros Hrest. unfold main_global_options.
  do 4 run_absent Hrest.
  rewrite !bind_run, parse_flag_first_run; [done|].
  intros Hin. apply (not_global_flag "--strict" (pre ++ post)); [decide_closed|done|].
  apply elem_of_app. by left.
Qed.

Lemma main_global_options_none (s : state) :
  Forall (λ a, a ∉ global_flags) (ArgParser.m_args (ap s)) →
  main_global_options VERSION s = (Ret (), s).
Proof.
  intros Hrest. unfold main_global_options.
  do 4 run_absent Hrest.
  rewrite !bind_run, parse_flag_absent_run by absent_flag Hrest. done.
Qed.

Lemma main_global_options_quiet (flag c : string) (pre post : list string) p t :
  flag = "--quiet" ∨ flag = "-q" →
  Forall (λ a, a ∉ global_flags) (pre ++ post) →
  main_global_options VERSION (State (ArgParser.mk (pre ++ flag :: post) c) p t)
  = (Ret (), State (ArgParser.mk (pre ++ post) c) p (t ++ [SetLogLevelWarning])).
Proof.
  intros Hflag Hrest.
  assert (Hpre : flag ∉ pre).
  { intros Hin. apply (not_global_flag flag (pre ++ post)); [|done|apply elem_of_app; by left].
    destruct Hflag as [-> | ->]; decide_closed. }
  unfold main_global_options.
  destruct Hflag as [-> | ->].
  - do 3 run_absent Hrest.
    rewrite !bind_run. unfold or_else at 1. rewrite bind_run.
    rewrite parse_flag_first_run by done. cbv beta iota.
    rewrite ret_run. cbv beta iota delta [when].
    rewrite !bind_run. unfold emit at 1. cbv beta iota. cbn [ap params trace].
    rewrite !bind_run, parse_flag_absent_run by absent_flag Hrest. done.
  - do 3 run_absent Hrest.
    rewrite !bind_run. unfold or_else at 1. rewrite bind_run.
    rewrite parse_flag_absent_run by absent_flag Hrest. cbv beta iota.
    rewrite parse_flag_first_run by done. cbv beta iota delta [when].
    rewrite !bind_run. unfold emit at 1. cbv beta iota. cbn [ap params trace].
    rewrite !bind_run, parse_flag_absent_run by absent_flag Hrest. done.
Qed.

(** X23: "--strict" has the same effect wherever it stands on the
    command line, before the command, after it or among its arguments:
    [main] runs as it does without it, from parameters in which
    [Params::strict] is true.  In the same way "-q" can stand for
    "--quiet" at any position. *)
Theorem main_global_flags_anywhere (prog : string) (pre post : list string)
    (p : gmap string value) :
  Forall (λ a, a ∉ global_flags) (pre ++ post) →
  main atof short_code_init run VERSION (prog :: pre ++ "--strict" :: post) p
  = main atof short_code_init run VERSION (prog :: pre ++ post) (<["strict" := VBool true]> p)
  ∧
  main atof short_code_init run VERSION (prog :: pre ++ "-q" :: post) p
  = main atof short_code_init run VERSION (prog :: pre ++ "--quiet" :: post) p.
Proof.
  intros Hrest.
  unfold main, main_body, ArgParser.init. cbn [tail].
  split.
  - rewrite bind_run, main_global_options_strict by done.
    by rewrite bind_run, main_global_options_none by done.
  - rewrite bind_run, (main_global_options_quiet "-q") by (done || by right).
    by rewrite bind_run, (main_global_options_quiet "--quiet") by (done || by left).
Qed.

End GlobalOptions.

Lemma main_information_options_witness :
  let r := main (λ _, 0%Q) short_code_12_16_20 (λ _, 0%Z) "0.9.0"
             ["audiowmark"; "add"; "--key"; "a"; "--test-key"; "1"; "-h"; "--version"] ∅ in
  r.1 = 0%Z ∧ trace r.2 = [PrintUsage] ∧ params r.2 = ∅.
Proof.
  apply (main_information_options (λ _, 0%Q) short_code_12_16_20 (λ _, 0%Z) "0.9.0"
           ["audiowmark"; "add"; "--key"; "a"; "--test-key"; "1"; "-h"; "--version"] ∅).
  right. simpl. do 5 (apply elem_of_cons; right). apply elem_of_cons. left. reflexivity.
Defined.

Lemma main_global_flags_anywhere_witness :
  main (λ _, 0%Q) short_code_12_16_20 (λ _, 0%Z) "0.9.0"
       ("audiowmark" :: ["get"; "in.wav"] ++ "--strict" :: ["--key"; "k.txt"]) ∅
  = main (λ _, 0%Q) short_code_12_16_20 (λ _, 0%Z) "0.9.0"
         ("audiowmark" :: ["get"; "in.wav"] ++ ["--key"; "k.txt"])
         (<["strict" := VBool true]> ∅)
  ∧
  main (λ _, 0%Q) short_code_12_16_20 (λ _, 0%Z) "0.9.0"
       ("audiowmark" :: ["get"; "in.wav"] ++ "-q" :: ["--key"; "k.txt"]) ∅
  = main (λ _, 0%Q) short_code_12_16_20 (λ _, 0%Z) "0.9.0"
         ("audiowmark" :: ["get"; "in.wav"] ++ "--quiet" :: ["--key"; "k.txt"]) ∅.
Proof.
  apply (main_global_flags_anywhere (λ _, 0%Q) short_code_12_16_20 (λ _, 0%Z) "0.9.0"
           "audiowmark" ["get"; "in.wav"] ["--key"; "k.txt"] ∅).
  apply (bool_decide_unpack _). vm_compute. exact I.
Defined.

(** ** How a run ends *)

Section EndingRules.
Variable run : Cmd.t → Z.
Variable VERSION : string.

Lemma ending_prepend pre status evs :
  Forall not_run pre → ending run VERSION status evs → ending run VERSION status (pre ++ evs).
Proof.
  intros Hpre [pre' c H|pre' fmt args H|pre' e H Hi]; rewrite app_assoc.
  - apply ending_command. by apply Forall_app.
  - apply ending_error. by apply Forall_app.
  - apply ending_information; [by apply Forall_app | done].
Qed.

Lemma ends_returns_or_ends {A} (m : M A) : ends run VERSION m → returns_or_ends run VERSION m.
Proof.
  intros H s. destruct (H s) as (evs & status & Hr & Ht & He).
  exists evs. split; [done|]. by rewrite Hr.
Qed.

Lemma roe_bind {A B} (m : M A) (f : A → M B) :
  returns_or_ends run VERSION m → (∀ x, returns_or_ends run VERSION (f x)) →
  returns_or_ends run VERSION (m ≫= f).
Proof.
  intros Hm Hf s. rewrite bind_run.
  destruct (Hm s) as (evs1 & Ht1 & H1).
  destruct (m s) as [[x|status] s1]; simpl in *.
  - destruct (Hf x s1) as (evs2 & Ht2 & H2).
    exists (evs1 ++ evs2). rewrite Ht2, Ht1, <- app_assoc. split; [done|].
    destruct (f x s1) as [[y|status] s2]; simpl in *.
    + by apply Forall_app.
    + by apply ending_prepend.
  - by exists evs1.
Qed.

Lemma ends_bind {A B} (m : M A) (f : A → M B) :
  returns_or_ends run VERSION m → (∀ x, ends run VERSION (f x)) →
  ends run VERSION (m ≫= f).
Proof.
  intros Hm Hf s. rewrite bind_run.
  destruct (Hm s) as (evs1 & Ht1 & H1).
  destruct (m s) as [[x|status] s1]; simpl in *.
  - destruct (Hf x s1) as (evs2 & status & Hr & Ht2 & H2).
    exists (evs1 ++ evs2), status. rewrite Ht2, Ht1, <- app_assoc.
    split_and!; [done..|]. by apply ending_prepend.
  - by exists evs1, status.
Qed.

Lemma roe_silent {A} (m : M A) :
  (∀ s, ∃ x s', m s = (Ret x, s') ∧ trace s' = trace s) → returns_or_ends run VERSION m.
Proof.
  intros H s. destruct (H s) as (x & s' & -> & Ht). exists []. simpl.
  by rewrite Ht, app_nil_r.
Qed.

Lemma roe_ret {A} (x : A) : returns_or_ends run VERSION (mret x).
Proof. apply roe_silent. intros s. by exists x, s. Qed.

Lemma roe_set_param name v : returns_or_ends run VERSION (set_param name v).
Proof. apply roe_silent. intros s. by eexists _, _. Qed.

Lemma roe_get_param_int name : returns_or_ends run VERSION (get_param_int name).
Proof. apply roe_silent. intros s. by eexists _, _. Qed.

Lemma roe_parse_opt_string opt : returns_or_ends run VERSION (parse_opt_string opt).
Proof.
  apply roe_silent. intros s. unfold parse_opt_string.
  destruct (ArgParser.parse_opt opt "" (ap s)) as [[f o] a']. by eexists _, _.
Qed.

Lemma roe_parse_flag opt : returns_or_ends run VERSION (parse_flag opt).
Proof.
  apply roe_silent. intros s. unfold parse_flag.
  destruct (ArgParser.parse_flag opt (ap s)) as [f a']. by eexists _, _.
Qed.

Lemma roe_parse_cmd cmd : returns_or_ends run VERSION (parse_cmd cmd).
Proof.
  apply roe_silent. intros s. unfold parse_cmd.
  destruct (ArgParser.parse_cmd cmd (ap s)) as [f a']. by eexists _, _.
Qed.

Lemma roe_emit e : not_run e → returns_or_ends run VERSION (emit e).
Proof. intros He s. exists [e]. split; [done|]. by apply Forall_singleton. Qed.

Lemma roe_when (b : bool) m :
  returns_or_ends run VERSION m → returns_or_ends run VERSION (when b m).
Proof. intros H. destruct b; [done | apply roe_ret]. Qed.

Lemma ends_error_exit {A} fmt args : ends run VERSION (error fmt args;; exit (A := A) 1).
Proof.
  intros s. exists [Error fmt args], 1%Z. split_and!; [done..|].
  by apply (ending_error _ _ []).
Qed.

Lemma ends_information_exit {A} e :
  information VERSION e → ends run VERSION (emit e;; exit (A := A) 0).
Proof.
  intros He s. exists [e], 0%Z. split_and!; [done..|].
  by apply (ending_information _ _ []).
Qed.

Lemma ends_call c : ends run VERSION (call run c).
Proof.
  intros s. exists [Run c], (run c). split_and!; [done..|].
  by apply (ending_command _ _ []).
Qed.

Lemma roe_parse_positional vs : returns_or_ends run VERSION (parse_positional vs).
Proof.
  intros s. unfold parse_positional.
  destruct (ArgParser.parse_args _ _).
  - exists []. simpl. by rewrite app_nil_r.
  - assert (H : ∀ (m : M (list string)), returns_or_ends run VERSION m → ∃ evs,
                trace (m s).2 = trace s ++ evs ∧
                match (m s).1 with
                | Ret _ => Forall not_run evs
                | Exit status => ending run VERSION status evs
                end) by (intros m Hm; apply Hm).
    destruct (list_find _ _) as [[i x]|]; apply H.
    + apply ends_returns_or_ends, ends_error_exit.
    + apply roe_bind; [apply roe_emit; by intros c|intros _].
      apply ends_returns_or_ends, ends_error_exit.
Qed.

End EndingRules.

Ltac roe_step :=
  first
    [ apply roe_ret | apply roe_set_param | apply roe_get_param_int
    | apply roe_parse_opt_string | apply roe_parse_flag | apply roe_parse_cmd
    | apply roe_parse_positional
    | apply roe_emit; by intros ?
    | apply roe_when
    | apply ends_returns_or_ends, ends_error_exit
    | apply ends_returns_or_ends, ends_information_exit;
        unfold information; by auto
    | apply ends_error_exit
    | apply ends_information_exit; unfold information; by auto
    | apply ends_call
    | apply roe_bind; [|intros ?]
    | apply ends_bind; [|intros ?]
    | match goal with
      | |- returns_or_ends _ _ (match ?x with _ => _ end) => destruct x
      | |- returns_or_ends _ _ (if ?x then _ else _) => destruct x
      | |- ends _ _ (match ?x with _ => _ end) => destruct x
      | |- ends _ _ (if ?x then _ else _) => destruct x
      end ].

Section Ending.
Variable atof : string → Q.
Variable short_code_init : Z → bool.
Variable run : Cmd.t → Z.
Variable VERSION : string.

Lemma roe_parse_opt_param opt name : returns_or_ends run VERSION (parse_opt_param opt name).
Proof. unfold parse_opt_param. repeat roe_step. Qed.

Lemma roe_parse_opt_with opt parse names :
  (∀ t, returns_or_ends run VERSION (parse t)) →
  returns_or_ends run VERSION (parse_opt_with opt parse names).
Proof.
  intros Hp. unfold parse_opt_with. repeat roe_step; [apply Hp|].
  induction names as [|n names IH]; simpl; repeat roe_step. apply IH.
Qed.

Lemma roe_parse_shared_options :
  returns_or_ends run VERSION (parse_shared_options atof short_code_init).
Proof.
  unfold parse_shared_options, parse_opt_float, parse_opt_int.
  repeat first [apply roe_parse_opt_param | roe_step].
Qed.

Lemma roe_parse_add_options : returns_or_ends run VERSION parse_add_options.
Proof.
  unfold parse_add_options.
  repeat first
    [ apply roe_parse_opt_param
    | apply roe_parse_opt_with; intros ?; cbv beta; unfold parse_format, parse_endian, parse_encoding
    | roe_step ].
Qed.

Lemma roe_parse_get_options : returns_or_ends run VERSION (parse_get_options atof).
Proof.
  unfold parse_get_options, parse_opt_float.
  repeat first [apply roe_parse_opt_param | roe_step].
Qed.

Lemma roe_main_global_options : returns_or_ends run VERSION (main_global_options VERSION).
Proof. unfold main_global_options, or_else. repeat roe_step. Qed.

Lemma ends_main_commands : ends run VERSION (main_commands atof short_code_init run).
Proof.
  unfold main_commands, on_cmd.
  repeat first
    [ apply roe_parse_opt_param | apply roe_parse_shared_options
    | apply roe_parse_add_options | apply roe_parse_get_options
    | roe_step ].
  intros s. destruct (ArgParser.remaining_args (ap s)) as [|a rest].
  - apply ends_error_exit.
  - destruct (is_option a); apply ends_error_exit.
Qed.

(** X10: every run of [main] ends in one of three ways, with no other
    command entered before: a command is entered last, and its status is
    the status of the process; or an error is reported last, and the status
    is 1; or the usage or the version is printed last, and the status is
    0.  So [main] never fails without a report and never enters two
    commands. *)
Theorem main_ending (argv : list string) (p : gmap string value) :
  let r := main atof short_code_init run VERSION argv p in
  ending run VERSION r.1 (trace r.2).
Proof.
  intros r. subst r. unfold main, main_body.
  set (s0 := State (ArgParser.init argv) p []).
  assert (H : ends run VERSION
                (main_global_options VERSION;; main_commands atof short_code_init run)).
  { apply ends_bind; [apply roe_main_global_options | intros _; apply ends_main_commands]. }
  destruct (H s0) as (evs & status & Hr & Ht & He).
  destruct ((main_global_options VERSION;; main_commands atof short_code_init run) s0)
    as [r s1]. simpl in *. subst r. simpl. by rewrite Ht.
Qed.

End Ending.

(** ** Options of add *)

Section FailsRules.
Variable P : event → Prop.

Lemma fails_bind {A B} (m : M A) (f : A → M B) :
  fails_with P m → (∀ x, fails_with P (f x)) → fails_with P (m ≫= f).
Proof.
  intros Hm Hf s. rewrite bind_run. specialize (Hm s).
  destruct (m s) as [[x|status] s1]; simpl in *; [|done].
  specialize (Hf x s1). destruct (f x s1) as [[y|status] s2]; simpl in *.
  - by rewrite Hf.
  - destruct Hf as (-> & e & He & Ht). split; [done|]. exists e. by rewrite Ht, Hm.
Qed.

Lemma fails_silent {A} (m : M A) :
  (∀ s, ∃ x s', m s = (Ret x, s') ∧ trace s' = trace s) → fails_with P m.
Proof. intros H s. by destruct (H s) as (x & s' & -> & Ht). Qed.

Lemma fails_ret {A} (x : A) : fails_with P (mret x).
Proof. apply fails_silent. intros s. by exists x, s. Qed.

Lemma fails_set_param name v : fails_with P (set_param name v).
Proof. apply fails_silent. intros s. by eexists _, _. Qed.

Lemma fails_parse_opt_string opt : fails_with P (parse_opt_string opt).
Proof.
  apply fails_silent. intros s. unfold parse_opt_string.
  destruct (ArgParser.parse_opt opt "" (ap s)) as [[f o] a']. by eexists _, _.
Qed.

Lemma fails_parse_flag opt : fails_with P (parse_flag opt).
Proof.
  apply fails_silent. intros s. unfold parse_flag.
  destruct (ArgParser.parse_flag opt (ap s)) as [f a']. by eexists _, _.
Qed.

Lemma fails_when (b : bool) m : fails_with P m → fails_with P (when b m).
Proof. intros H. destruct b; [done | apply fails_ret]. Qed.

Lemma fails_error_exit {A} fmt args :
  P (Error fmt args) → fails_with P (error fmt args;; exit (A := A) 1).
Proof. intros H s. split; [done|]. by exists (Error fmt args). Qed.

Lemma fails_parse_opt_param opt name : fails_with P (parse_opt_param opt name).
Proof.
  unfold parse_opt_param. apply fails_bind; [apply fails_parse_opt_string|].
  intros [t|]; [apply fails_set_param | apply fails_ret].
Qed.

Lemma fails_parse_opt_with opt parse names :
  (∀ t, fails_with P (parse t)) → fails_with P (parse_opt_with opt parse names).
Proof.
  intros Hp. unfold parse_opt_with. apply fails_bind; [apply fails_parse_opt_string|].
  intros [t|]; [|apply fails_ret].
  apply fails_bind; [apply Hp|]. intros v.
  induction names as [|n names IH]; simpl; [apply fails_ret|].
  apply fails_bind; [apply fails_set_param | by intros _].
Qed.

End FailsRules.

Lemma not_elem_of_pair (str a b : string) :
  String.eqb str a = false → String.eqb str b = false → str ∉ [a; b].
Proof.
  intros Ha Hb Hin. apply String.eqb_neq in Ha, Hb.
  apply elem_of_cons in Hin as [?|Hin]; [done|].
  by apply list_elem_of_singleton in Hin.
Qed.

Lemma fails_parse_format str : fails_with unsupported_value (parse_format str).
Proof.
  unfold parse_format.
  destruct (String.eqb str "raw") eqn:E1; [apply fails_ret|].
  destruct (String.eqb str "auto") eqn:E2; [apply fails_ret|].
  apply fails_error_exit. exists str. left. split; [done|]. by apply not_elem_of_pair.
Qed.

Lemma fails_parse_endian str : fails_with unsupported_value (parse_endian str).
Proof.
  unfold parse_endian.
  destruct (String.eqb str "little") eqn:E1; [apply fails_ret|].
  destruct (String.eqb str "big") eqn:E2; [apply fails_ret|].
  apply fails_error_exit. exists str. right. left. split; [done|]. by apply not_elem_of_pair.
Qed.

Lemma fails_parse_encoding str : fails_with unsupported_value (parse_encoding str).
Proof.
  unfold parse_encoding.
  destruct (String.eqb str "signed") eqn:E1; [apply fails_ret|].
  destruct (String.eqb str "unsigned") eqn:E2; [apply fails_ret|].
  apply fails_error_exit. exists str. right. right. split; [done|]. by apply not_elem_of_pair.
Qed.

(** X11: [parse_add_options] reports nothing when it returns; when it
    leaves the process, the status is 1 and it has reported exactly one
    thing: an unsupported format (other than "raw" and "auto"), endianness
    (other than "little" and "big") or encoding (other than "signed" and
    "unsigned"). *)
Theorem parse_add_options_failure : fails_with unsupported_value parse_add_options.
Proof.
  unfold parse_add_options.
  repeat first
    [ apply fails_parse_opt_param | apply fails_parse_flag
    | apply fails_when; apply fails_set_param
    | apply fails_parse_opt_with; intros ?; cbv beta;
        first [apply fails_parse_format | apply fails_parse_endian
              | apply fails_parse_encoding | apply fails_ret]
    | apply fails_bind; [|intros ?] ].
Qed.

(** ** Shared options *)

(** X12: from a state without a key, [parse_shared_options] with a
    "--short" size that the short code refuses registers the keys given,
    reports the size and leaves with status 1; when it returns, the short
    size was not refused, the keys given were registered in order, their
    number is [Params::have_key], and it is at most 1. *)
Theorem parse_shared_options_outcome (atof : string → Q) (short_code_init : Z → bool)
    (s : state) :
  have_key s = 0%Z →
  let a := ap s in
  let r := parse_shared_options atof short_code_init s in
  (short_rejected short_code_init a = true →
   r.1 = Exit 1 ∧
   trace r.2
   = trace s ++ key_events a
     ++ [Error "audiowmark: unsupported short payload size %zd\n"
           [VInt (wrap64 (Libc.atoi (value_of "--short"
                    (after "--test-key" (after "--key" (after "--strength" a))))))]]) ∧
  (r.1 = Ret () →
   short_rejected short_code_init a = false ∧
   ap r.2 = after_shared_options a ∧
   trace r.2 = trace s ++ key_events a ∧
   have_key r.2 = Z.of_nat (length (key_events a)) ∧
   (have_key r.2 ≤ 1)%Z).
Proof.
  intros Hh a r.
  destruct (parse_shared_options_step atof short_code_init a 0%Z s eq_refl Hh)
    as (Hr & Ha & Hk & Ht).
  fold r in Hr, Ha, Hk, Ht.
  assert (Hcount : keys_counted 0 a = Z.of_nat (length (key_events a))).
  { unfold keys_counted, key_events, key_file_given, test_key_given.
    destruct (given "--key" _), (given "--test-key" _); done. }
  split.
  - intros Hs. rewrite Hs in Hr, Ht. done.
  - intros Hret. rewrite Hret in Hr.
    destruct (short_rejected short_code_init a); [done|].
    destruct (bool_decide (keys_counted 0 a > 1)%Z) eqn:E; [done|].
    apply bool_decide_eq_false in E. rewrite app_nil_r in Ht.
    split_and!; try done; lia.
Qed.

Lemma parse_shared_options_outcome_witness :
  let s := State (ArgParser.mk ["--key"; "k.txt"; "--test-key"; "1"; "--short=-1"; "in.wav"] "get")
                 ∅ [] in
  let r := parse_shared_options (λ _, 0%Q) short_code_12_16_20 s in
  r.1 = Exit 1 ∧
  trace r.2
  = [] ++ [LoadGlobalKey "k.txt"; SetGlobalTestKey 1]
    ++ [Error "audiowmark: unsupported short payload size %zd\n" [VInt 18446744073709551615]].
Proof.
  intros s.
  apply (parse_shared_options_outcome (λ _, 0%Q) short_code_12_16_20 s); reflexivity.
Defined.

(** ** A key on the command line *)

Lemma parse_opt_string_none (opt : string) (s : state) :
  Forall (λ a, ¬ mentions opt a) (ArgParser.m_args (ap s)) →
  parse_opt_string opt s = (Ret None, s).
Proof.
  intros H. unfold parse_opt_string.
  rewrite parse_opt_none by by apply ArgParserMore.no_mention_no_occurrence.
  by rewrite state_eta.
Qed.

Lemma parse_opt_string_pair (opt v c : string) (pre post : list string) p t :
  Forall (λ a, ¬ mentions opt a) pre → Forall (λ a, ¬ mentions opt a) post →
  parse_opt_string opt (State (ArgParser.mk (pre ++ opt :: v :: post) c) p t)
  = (Ret (Some v), State (ArgParser.mk (pre ++ post) c) p t).
Proof.
  intros Hpre Hpost. unfold parse_opt_string. cbn [ap params trace].
  rewrite ArgParserFacts.parse_opt_scan. cbn [ArgParser.m_args ArgParser.m_command].
  rewrite ArgParserMore.scan_app_skip by done.
  rewrite ArgParserFacts.scan_pair, ArgParserMore.scan_no_mention by done. done.
Qed.

Lemma positional_not_global (l : list string) :
  positional l → Forall (λ a, a ∉ global_flags) l.
Proof.
  intros Hl. eapply Forall_impl; [exact Hl|]. intros a Ha Hin. simpl in Ha.
  assert (H : Forall (λ f, is_option f = true) global_flags) by decide_closed.
  rewrite Forall_forall in H. apply H in Hin. congruence.
Qed.

Section KeyOption.
Variable atof : string → Q.
Variable short_code_init : Z → bool.
Variable run : Cmd.t → Z.
Variable VERSION : string.

Lemma have_key_one (p : gmap string value) (t : list event) (a : ArgParser.t) :
  have_key (State a (<["have_key" := VInt 1]> p) t) = 1%Z.
Proof. unfold have_key, get_int. cbn [params]. by rewrite lookup_insert_eq. Qed.

Ltac mrun :=
  repeat first [ rewrite ret_run | rewrite bind_run | progress cbv beta iota
               | progress cbn [fmap option_fmap option_map] ].

Ltac rest_quiet :=
  lazymatch goal with
  | |- ?m ?s = _ =>
      let Hq := fresh "Hq" in
      assert (Hq : quiet m ()) by quiet_go;
      apply Hq; [by apply positional_inert, Forall_app | by rewrite have_key_one]
  end.

Lemma parse_shared_options_key (K c : string) (pre post : list string) p t :
  positional pre → positional post → is_option K = false →
  get_int "have_key" p = 0%Z →
  parse_shared_options atof short_code_init
    (State (ArgParser.mk (pre ++ "--key" :: K :: post) c) p t)
  = (Ret (),
     State (ArgParser.mk (pre ++ post) c) (<["have_key" := VInt 1]> p)
           (t ++ [LoadGlobalKey K])).
Proof.
  intros Hpre Hpost HK Hk. unfold parse_shared_options, parse_opt_float.
  mrun. rewrite parse_opt_string_none; cycle 1.
  { cbn [ap ArgParser.m_args]. apply Forall_app. split; [|repeat apply Forall_cons_2].
    - by apply ArgParserMore.positional_no_mention.
    - unfold mentions. decide_closed.
    - intros Hm. apply (ArgParserMore.mentions_is_option "--strength") in Hm; [congruence|done].
    - by apply ArgParserMore.positional_no_mention. }
  mrun. rewrite parse_opt_string_pair by by apply ArgParserMore.positional_no_mention.
  mrun. unfold get_param_int at 1. cbn [params]. rewrite Hk.
  mrun. unfold set_param at 1. cbn [ap params trace].
  mrun. unfold emit at 1. cbn [ap params trace].
  cbv beta iota. rest_quiet.
Qed.

Lemma parse_shared_options_test_key (N c : string) (pre post : list string) p t :
  positional pre → positional post → is_option N = false →
  get_int "have_key" p = 0%Z →
  parse_shared_options atof short_code_init
    (State (ArgParser.mk (pre ++ "--test-key" :: N :: post) c) p t)
  = (Ret (),
     State (ArgParser.mk (pre ++ post) c) (<["have_key" := VInt 1]> p)
           (t ++ [SetGlobalTestKey (Libc.atoi N)])).
Proof.
  intros Hpre Hpost HN Hk. unfold parse_shared_options, parse_opt_float, parse_opt_int.
  assert (Hno : ∀ opt, is_option opt = true → ¬ mentions opt "--test-key" →
                Forall (λ a, ¬ mentions opt a) (pre ++ "--test-key" :: N :: post)).
  { intros opt Ho Hm. apply Forall_app. split; [|repeat apply Forall_cons_2].
    - by apply ArgParserMore.positional_no_mention.
    - done.
    - intros Hm'. apply (ArgParserMore.mentions_is_option opt) in Hm'; [congruence|done].
    - by apply ArgParserMore.positional_no_mention. }
  mrun. rewrite parse_opt_string_none
    by (apply Hno; [done | unfold mentions; decide_closed]).
  mrun. rewrite parse_opt_string_none
    by (apply Hno; [done | unfold mentions; decide_closed]).
  mrun. rewrite parse_opt_string_pair by by apply ArgParserMore.positional_no_mention.
  mrun. unfold get_param_int at 1. cbn [params]. rewrite Hk.
  mrun. unfold set_param at 1. cbn [ap params trace].
  mrun. unfold emit at 1. cbn [ap params trace].
  cbv beta iota. rest_quiet.
Qed.

(** After [parse_shared_options] has returned [shared], every command
    that parses the shared options goes on to its positional arguments. *)
Lemma main_shared_command cmd names enter opts prog p shared :
  (cmd, names, enter) ∈ command_table atof → cmd ∈ shared_commands →
  Forall (λ a, a ∉ global_flags) opts →
  parse_shared_options atof short_code_init (State (ArgParser.mk opts cmd) p []) = (Ret (), shared) →
  positional (ArgParser.m_args (ap shared)) → (have_key shared ≤ 1)%Z →
  length (ArgParser.m_args (ap shared)) = length names →
  main atof short_code_init run VERSION (prog :: cmd :: opts) p
  = (run (enter (ArgParser.m_args (ap shared))),
     State (ap shared) (params shared)
           (trace shared ++ [Run (enter (ArgParser.m_args (ap shared)))])).
Proof.
  unfold command_table, shared_commands. intros Hin Hcmd Hflags Hshared Hp Hk Hlen.
  assert (Hi : inert (ArgParser.m_args (ap shared))) by by apply positional_inert.
  unfold main, main_body.
  rewrite bind_run, (main_global_options_none VERSION); cycle 1.
  { cbn [ap ArgParser.init tail ArgParser.m_args]. apply Forall_cons. split; [|done].
    assert (Hc : is_option cmd = false) by by eapply command_table_positional.
    intros Hg.
    assert (H : Forall (λ f, is_option f = true) global_flags) by decide_closed.
    rewrite Forall_forall in H. apply H in Hg. congruence. }
  set (s0 := State (ArgParser.init (prog :: cmd :: opts)) p []).
  assert (Hs : ArgParser.m_args (ap s0) = cmd :: opts) by done.
  repeat (apply elem_of_cons in Hin as [Heq|Hin];
          [injection Heq as -> -> ->;
           first [ by (repeat (apply elem_of_cons in Hcmd as [Hcmd|Hcmd]; [discriminate Hcmd|]);
                       apply elem_of_nil in Hcmd)
                 | run_cmds Hs; cbn [params trace s0];
                   rewrite bind_run, Hshared; cbv beta iota;
                   run_quiet Hi Hk;
                   rewrite bind_run, parse_positional_ok by done;
                   by destruct shared ]|]).
  by apply elem_of_nil in Hin.
Qed.

(** X24: for every command that parses the shared options, called with
    its positional arguments and one key, given as "--key FILE" or as
    "--test-key N" at any position among them: [main] registers the key,
    counts it in [Params::have_key], and enters the command with the
    positional arguments; nothing is reported. *)
Theorem main_registers_key (cmd prog K : string) (names pre post : list string)
    (enter : list string → Cmd.t) (p : gmap string value) :
  (cmd, names, enter) ∈ command_table atof → cmd ∈ shared_commands →
  positional pre → positional post → is_option K = false →
  length (pre ++ post) = length names → get_int "have_key" p = 0%Z →
  main atof short_code_init run VERSION (prog :: cmd :: pre ++ "--key" :: K :: post) p
  = (run (enter (pre ++ post)),
     State (ArgParser.mk (pre ++ post) cmd) (<["have_key" := VInt 1]> p)
           [LoadGlobalKey K; Run (enter (pre ++ post))])
  ∧
  main atof short_code_init run VERSION (prog :: cmd :: pre ++ "--test-key" :: K :: post) p
  = (run (enter (pre ++ post)),
     State (ArgParser.mk (pre ++ post) cmd) (<["have_key" := VInt 1]> p)
           [SetGlobalTestKey (Libc.atoi K); Run (enter (pre ++ post))]).
Proof.
  intros Hin Hcmd Hpre Hpost HK Hlen Hk.
  assert (Hg : ∀ o, o ∉ global_flags → Forall (λ a, a ∉ global_flags) (pre ++ o :: K :: post)).
  { intros o Ho. apply Forall_app. split; [by apply positional_not_global|].
    apply Forall_cons. split; [done|]. by apply (positional_not_global (K :: post)), Forall_cons. }
  split.
  - rewrite (main_shared_command cmd names enter _ prog p _ Hin Hcmd
               (Hg "--key" ltac:(decide_closed))
               (parse_shared_options_key K cmd pre post p [] Hpre Hpost HK Hk)).
    + done.
    + by apply Forall_app.
    + by rewrite have_key_one.
    + done.
  - rewrite (main_shared_command cmd names enter _ prog p _ Hin Hcmd
               (Hg "--test-key" ltac:(decide_closed))
               (parse_shared_options_test_key K cmd pre post p [] Hpre Hpost HK Hk)).
    + done.
    + by apply Forall_app.
    + by rewrite have_key_one.
    + done.
Qed.

End KeyOption.

Lemma main_registers_key_witness :
  main (λ _, 0%Q) short_code_12_16_20 (λ _, 0%Z) "0.9.0"
       ("audiowmark" :: "get" :: ["in.wav"] ++ "--key" :: "7" :: []) ∅
  = (0%Z,
     State (ArgParser.mk (["in.wav"] ++ []) "get") (<["have_key" := VInt 1]> ∅)
       [LoadGlobalKey "7"; Run (Cmd.get_watermark (arg 0 (["in.wav"] ++ [])) "")])
  ∧
  main (λ _, 0%Q) short_code_12_16_20 (λ _, 0%Z) "0.9.0"
       ("audiowmark" :: "get" :: ["in.wav"] ++ "--test-key" :: "7" :: []) ∅
  = (0%Z,
     State (ArgParser.mk (["in.wav"] ++ []) "get") (<["have_key" := VInt 1]> ∅)
       [SetGlobalTestKey (Libc.atoi "7");
        Run (Cmd.get_watermark (arg 0 (["in.wav"] ++ [])) "")]).
Proof.
  apply (main_registers_key (λ _, 0%Q) short_code_12_16_20 (λ _, 0%Z) "0.9.0"
           "get" "audiowmark" "7" ["watermarked_wav"] ["in.wav"] []
           (λ args, Cmd.get_watermark (arg 0 args) "")).
  - unfold command_table. do 3 (apply elem_of_cons; right). apply elem_of_cons. left. reflexivity.
  - apply (bool_decide_unpack _). vm_compute. exact I.
  - repeat constructor.
  - constructor.
  - reflexivity.
  - reflexivity.
  - reflexivity.
Defined.

(** ** gentest *)

Section Gentest.
Variable wav_data : WavData.

(** At least one channel, and 165 seconds of values are counted in
    [int] without overflow. *)
Hypothesis channels_positive : (0 < n_channels wav_data < 2 ^ 31)%Z.
Hypothesis sample_rate_nonneg : (0 <= sample_rate wav_data)%Z.
Hypothesis count_in_int : (165 * n_channels wav_data * sample_rate wav_data < 2 ^ 31)%Z.

(** X13: [gentest] refuses an input of less than 165 seconds, with
    status 1 and before anything is saved; otherwise it hands to [save]
    exactly the first 165 seconds of the input, in the same format, and
    returns 0, or 1 when saving fails. *)
Theorem gentest_outcome (saved : option string) (infile outfile : string) :
  let n := (165 * n_channels wav_data * sample_rate wav_data)%Z in
  let banner :=
    Printf "generating test sample from '%s' to '%s'\n" [VStr infile; VStr outfile] in
  let out :=
    MkWavData (take (Z.to_nat n) (samples wav_data)) (n_channels wav_data)
              (sample_rate wav_data) (bit_depth wav_data) in
  ((n_values wav_data < n)%Z →
   gentest (inr wav_data) saved infile outfile
   = (1%Z, None, [banner; Error "audiowmark: input file %s too short\n" [VStr infile]])) ∧
  ((n <= n_values wav_data)%Z →
   gentest (inr wav_data) saved infile outfile
   = (match saved with Some _ => 1%Z | None => 0%Z end, Some out,
      banner :: match saved with
                | Some message =>
                    [Error "audiowmark: error saving %s: %s\n" [VStr outfile; VStr message]]
                | None => []
                end) ∧
   n_frames out = (165 * sample_rate wav_data)%Z).
Proof.
  intros n banner out.
  assert (Hn : (0 <= n < 2 ^ 31)%Z) by (unfold n; nia).
  assert (H0 : wrap64 (0 * n_channels wav_data * sample_rate wav_data) = 0%Z) by done.
  assert (H1 : wrap64 n = n) by (apply wrap64_small; lia).
  unfold gentest. cbv zeta. rewrite H0. fold n. rewrite H1. rewrite Z.add_0_l, H1.
  split.
  - intros Hlt. apply Z.ltb_lt in Hlt. by rewrite Hlt.
  - intros Hle. apply Z.ltb_ge in Hle. rewrite Hle.
    unfold copy_range. rewrite drop_0. fold out. split; [by destruct saved|].
    unfold n_frames, n_values, out. cbn [samples n_channels].
    rewrite wrap64_small by lia. rewrite length_take.
    apply Z.ltb_ge in Hle. unfold n_values in Hle.
    rewrite Nat.min_l by lia. rewrite Z2Nat.id by lia.
    unfold n. rewrite <- Z.mul_assoc, (Z.mul_comm (n_channels wav_data)), Z.mul_assoc.
    apply Z.div_mul. lia.
Qed.

End Gentest.

Lemma gentest_outcome_witness :
  let wav_data := MkWavData (replicate 400 (1 # 2)%Q) 2 1 16 in
  gentest (inr wav_data) None "in.wav" "out.wav"
  = (0%Z,
     Some (MkWavData (take (Z.to_nat (165 * 2 * 1)) (replicate 400 (1 # 2)%Q)) 2 1 16),
     [Printf "generating test sample from '%s' to '%s'\n" [VStr "in.wav"; VStr "out.wav"]]) ∧
  n_frames (MkWavData (take (Z.to_nat (165 * 2 * 1)) (replicate 400 (1 # 2)%Q)) 2 1 16)
  = (165 * 1)%Z.
Proof.
  intros wav_data.
  apply (gentest_outcome wav_data); first [simpl; lia | vm_compute; intros H; discriminate H].
Defined.

(** ** cut_start *)

Section CutStart.
Variable wav_data : WavData.

(** The ranges of the types: [int] for the channel count, the size of a
    vector for the number of values. *)
Hypothesis channels_range : (0 < n_channels wav_data < 2 ^ 31)%Z.
Hypothesis values_range : (n_values wav_data < 2 ^ 63)%Z.

Lemma cut_start_run (saved : option string) (infile outfile start_str : string) :
  cut_start (inr wav_data) saved infile outfile start_str
  = (match saved with Some _ => 1%Z | None => 0%Z end,
     Some (MkWavData
             (drop (Z.to_nat (wrap64 (wrap64 (Libc.atoi start_str) * n_channels wav_data)))
                   (samples wav_data))
             (n_channels wav_data) (sample_rate wav_data) (bit_depth wav_data)),
     match saved with
     | Some message =>
         [Error "audiowmark: error saving %s: %s\n" [VStr outfile; VStr message]]
     | None => []
     end).
Proof.
  unfold cut_start. cbv zeta. rewrite (wrap64_small (n_channels wav_data)) by lia.
  by destruct saved.
Qed.

(** X14: [cut_start] hands to [save] the input without its first
    [start] frames, in the same format, where [start] is the number read by
    [atoi]; a start beyond the end gives an empty signal.  A negative start
    is converted to [size_t]: it also gives an empty signal, not the whole
    input. *)
Theorem cut_start_outcome (saved : option string) (infile outfile start_str : string) :
  let start := Libc.atoi start_str in
  let result out_signal :=
    (match saved with Some _ => 1%Z | None => 0%Z end,
     Some (MkWavData out_signal
                     (n_channels wav_data) (sample_rate wav_data) (bit_depth wav_data)),
     match saved with
     | Some message =>
         [Error "audiowmark: error saving %s: %s\n" [VStr outfile; VStr message]]
     | None => []
     end) in
  ((0 <= start < 2 ^ 31)%Z →
   cut_start (inr wav_data) saved infile outfile start_str
   = result (drop (Z.to_nat (start * n_channels wav_data)) (samples wav_data))) ∧
  ((- 2 ^ 31 <= start < 0)%Z →
   cut_start (inr wav_data) saved infile outfile start_str
   = result []).
Proof.
  intros start result. rewrite cut_start_run. fold start. unfold result. split.
  - intros Hs. rewrite (wrap64_small start) by lia.
    rewrite wrap64_small by nia. done.
  - intros Hs. rewrite (wrap64_neg start) by lia.
    replace ((start + 2 ^ 64) * n_channels wav_data)%Z
      with (start * n_channels wav_data + n_channels wav_data * 2 ^ 64)%Z by lia.
    unfold wrap64 at 1. rewrite Z.mod_add by lia. fold (wrap64 (start * n_channels wav_data)).
    rewrite wrap64_neg by nia.
    rewrite drop_ge; [done|].
    unfold n_values in values_range. nia.
Qed.

(** X15: cutting [a] frames and then [b] frames from the result is
    cutting [a + b] frames. *)
Theorem cut_start_compose (saved1 saved2 saved : option string)
    (infile outfile a b ab : string) (cut : WavData) :
  (0 <= Libc.atoi a)%Z → (0 <= Libc.atoi b)%Z →
  (Libc.atoi ab = Libc.atoi a + Libc.atoi b)%Z → (Libc.atoi ab < 2 ^ 31)%Z →
  (cut_start (inr wav_data) saved1 infile outfile a).1.2 = Some cut →
  (cut_start (inr cut) saved2 infile outfile b).1.2
  = (cut_start (inr wav_data) saved infile outfile ab).1.2.
Proof.
  intros Ha Hb Hab Hlt. rewrite cut_start_run. cbn [fst snd]. intros [= <-].
  rewrite cut_start_run. cbn [fst snd].
  unfold cut_start. cbv zeta. cbn [fst snd n_channels sample_rate bit_depth samples].
  rewrite (wrap64_small (n_channels wav_data)) by lia.
  rewrite !(wrap64_small (Libc.atoi _)) by lia.
  rewrite !wrap64_small by nia.
  assert (E : Z.to_nat (Libc.atoi a * n_channels wav_data)
              + Z.to_nat (Libc.atoi b * n_channels wav_data)
              = Z.to_nat (Libc.atoi ab * n_channels wav_data)).
  { rewrite <- Z2Nat.inj_add by nia. f_equal. rewrite Hab. lia. }
  destruct saved2; cbn [fst snd]; by rewrite drop_drop, E.
Qed.

End CutStart.

Lemma cut_start_outcome_witness :
  let wav_data := MkWavData [1; 2; 3; 4; 5; 6]%Q 2 44100 16 in
  cut_start (inr wav_data) None "in.wav" "out.wav" "2"
  = (0%Z, Some (MkWavData (drop (Z.to_nat (Libc.atoi "2" * 2)) [1; 2; 3; 4; 5; 6]%Q) 2 44100 16),
     []) ∧
  cut_start (inr wav_data) None "in.wav" "out.wav" "-1"
  = (0%Z, Some (MkWavData [] 2 44100 16), []).
Proof.
  intros wav_data.
  assert (H1 : (0 < n_channels wav_data < 2 ^ 31)%Z) by (simpl; lia).
  assert (H2 : (n_values wav_data < 2 ^ 63)%Z) by (vm_compute; reflexivity).
  split.
  - apply (cut_start_outcome wav_data H1 H2 None "in.wav" "out.wav" "2").
    vm_compute. split; [discriminate | reflexivity].
  - apply (cut_start_outcome wav_data H1 H2 None "in.wav" "out.wav" "-1").
    vm_compute. split; [discriminate | reflexivity].
Defined.

Lemma cut_start_compose_witness :
  let wav_data := MkWavData [1; 2; 3; 4; 5; 6]%Q 2 44100 16 in
  (cut_start (inr (MkWavData [3; 4; 5; 6]%Q 2 44100 16)) None "in.wav" "out.wav" "1").1.2
  = (cut_start (inr wav_data) None "in.wav" "out.wav" "2").1.2.
Proof.
  intros wav_data.
  apply (cut_start_compose wav_data) with (saved1 := None) (a := "1"%string);
    first [ reflexivity
          | vm_compute; reflexivity
          | vm_compute; intros H; discriminate H
          | vm_compute; split; reflexivity ].
Defined.

(** ** test_subtract *)

Lemma single_zero (x : Q) : (x == 0)%Q → (Float.single x == 0)%Q.
Proof.
  intros Hx. unfold Float.single, Float.round.
  assert (Hle : Qle_bool 0 x = true) by (apply Qle_bool_iff; lra).
  rewrite Hle. unfold Float.round_mag.
  assert (Hr : ∀ d, Float.rne (x / d) = 0%Z).
  { intros d. rewrite (FloatFacts.rne_comp _ 0%Q); [done|].
    rewrite Hx. unfold Qdiv. apply Qmult_0_l. }
  rewrite Hr. apply Qmult_0_l.
Qed.

(** X16: on two inputs with the same number of channels, [test_subtract]
    hands to [save] the sample-wise differences, rounded to single
    precision, over the length of the shorter input and in the format of
    the first; it warns exactly when the lengths differ.  When the numbers
    of channels differ, the assertion stops it before anything is saved. *)
Theorem test_subtract_outcome (in1_data in2_data : WavData) (saved : option string)
    (infile1 infile2 outfile : string) :
  let r := test_subtract (inr in1_data) (inr in2_data) saved infile1 infile2 outfile in
  let out :=
    MkWavData (zip_with (λ x1 x2, Float.single (x1 - x2)) (samples in1_data) (samples in2_data))
              (n_channels in1_data) (sample_rate in1_data) (bit_depth in1_data) in
  (n_channels in1_data ≠ n_channels in2_data → r.1 = (Aborted, None)) ∧
  (n_channels in1_data = n_channels in2_data →
   r.1 = (Returned (match saved with Some _ => 1%Z | None => 0%Z end), Some out) ∧
   length (samples out) = length (samples in1_data) `min` length (samples in2_data)) ∧
  (Exists is_warning r.2 ↔ length (samples in1_data) ≠ length (samples in2_data)).
Proof.
  intros r out. subst r. unfold test_subtract. cbv zeta.
  assert (Hzip :
    zip_with (λ x1 x2, Float.single (x1 - x2))
      (take (Z.to_nat (Z.min (n_values in1_data) (n_values in2_data))) (samples in1_data))
      (take (Z.to_nat (Z.min (n_values in1_data) (n_values in2_data))) (samples in2_data))
    = zip_with (λ x1 x2, Float.single (x1 - x2)) (samples in1_data) (samples in2_data)).
  { apply zip_with_take_both'; unfold n_values; lia. }
  rewrite Hzip. fold out.
  split_and!.
  - intros Hne. by rewrite bool_decide_eq_false_2.
  - intros Heq. rewrite bool_decide_eq_true_2 by done.
    split; [by destruct saved|]. unfold out. cbn [samples]. apply length_zip_with.
  - assert (Hw : ∀ fmt args, ¬ is_warning (ErrorMessage fmt args)).
    { intros fmt args (f & a & H). discriminate H. }
    destruct (decide (length (samples in1_data) = length (samples in2_data))) as [Hl|Hl].
    + rewrite (bool_decide_eq_false_2 (n_values in1_data ≠ n_values in2_data))
        by (intros H; apply H; unfold n_values; by rewrite Hl).
      split; [|done]. intros H. exfalso.
      destruct (bool_decide _); [destruct saved|]; cbn [snd app] in H.
      * apply Exists_cons in H as [H|H]; [by apply Hw in H | by apply Exists_nil in H].
      * by apply Exists_nil in H.
      * by apply Exists_nil in H.
    + rewrite (bool_decide_eq_true_2 (n_values in1_data ≠ n_values in2_data))
        by (unfold n_values; lia).
      split; [done|]. intros _.
      destruct (bool_decide _); [destruct saved|]; cbn [snd app];
        apply Exists_cons_hd; by eexists _, _.
Qed.

(** X17: subtracting a signal from itself gives silence of the same
    length, without a warning. *)
Theorem test_subtract_self (in_data : WavData) (infile1 infile2 outfile : string) :
  ∃ out,
    test_subtract (inr in_data) (inr in_data) None infile1 infile2 outfile
    = (Returned 0, Some out, []) ∧
    length (samples out) = length (samples in_data) ∧
    Forall (λ x, x == 0)%Q (samples out).
Proof.
  eexists. unfold test_subtract. cbv zeta.
  rewrite (bool_decide_eq_false_2 (n_values in_data ≠ n_values in_data))
    by (intros H; by apply H).
  rewrite bool_decide_eq_true_2 by done.
  split; [reflexivity|]. cbn [samples]. rewrite Z.min_id.
  unfold n_values. rewrite Nat2Z.id, firstn_all.
  split.
  - rewrite length_zip_with. lia.
  - apply Forall_forall. intros x Hx.
    apply elem_of_lookup_zip_with in Hx as (i & a & b & -> & Ha & Hb).
    rewrite Ha in Hb. injection Hb as <-. apply single_zero. ring.
Qed.

Lemma test_subtract_outcome_witness :
  let in1_data := MkWavData [1 # 2; 1 # 4; 1 # 8]%Q 1 44100 16 in
  let in2_data := MkWavData [1 # 4; 1 # 4]%Q 1 44100 16 in
  let r := test_subtract (inr in1_data) (inr in2_data) None "a.wav" "b.wav" "c.wav" in
  let out :=
    MkWavData (zip_with (λ x1 x2, Float.single (x1 - x2)) (samples in1_data) (samples in2_data))
              1 44100 16 in
  r.1 = (Returned 0, Some out) ∧ length (samples out) = 3 `min` 2.
Proof.
  intros in1_data in2_data r out.
  apply (test_subtract_outcome in1_data in2_data None "a.wav" "b.wav" "c.wav").
  reflexivity.
Defined.

(** ** test_clip, continued *)

Module FloatMore.
Import Float FloatFacts.
Local Open Scope Q_scope.

(** An integer below 2^53 is a double. *)
Lemma double_exact (n : Z) : (0 <= n < 2 ^ 53)%Z → double (inject_Z n) == inject_Z n.
Proof.
  intros Hn. destruct (decide (n = 0%Z)) as [->|Hne]; [qeq_compute|].
  assert (Hpos : 0 < inject_Z n).
  { change 0 with (inject_Z 0). rewrite <- Zlt_Qlt. lia. }
  unfold double, round.
  assert (Hle : Qle_bool 0 (inject_Z n) = true) by (apply Qle_bool_iff; lra).
  rewrite Hle. unfold round_mag.
  set (e := quantum binary64 (inject_Z n)).
  assert (He : (e <= 0)%Z).
  { unfold e, quantum, binary64. cbn [prec emin].
    destruct (ilog2_spec _ Hpos) as [H1 _].
    assert (H2 : pow2 (ilog2 (inject_Z n)) < pow2 53).
    { eapply Qle_lt_trans; [exact H1|]. rewrite pow2_Z by lia. rewrite <- Zlt_Qlt. lia. }
    apply pow2_lt_inv in H2. lia. }
  assert (Hinv : pow2 e * pow2 (- e) == 1).
  { rewrite <- pow2_add. replace (e + - e)%Z with 0%Z by lia. reflexivity. }
  assert (Hq : pow2 (- e) == inject_Z (2 ^ (- e))) by (apply pow2_Z; lia).
  pose proof (pow2_pos e) as Hp.
  assert (Hdiv : inject_Z n / pow2 e == inject_Z (n * 2 ^ (- e))).
  { rewrite inject_Z_mult, <- Hq.
    apply Qeq_trans with (inject_Z n * pow2 (- e) * pow2 e / pow2 e).
    - apply Qdiv_comp; [|reflexivity].
      rewrite <- Qmult_assoc, (Qmult_comm (pow2 (- e))), Hinv. lra.
    - apply Qdiv_mult_l. lra. }
  rewrite (rne_comp _ _ Hdiv), rne_inject_Z.
  rewrite inject_Z_mult, <- Hq.
  rewrite <- Qmult_assoc, (Qmult_comm (pow2 (- e))), Hinv. lra.
Qed.

End FloatMore.

Section TestClipOutput.
Import Float FloatFacts.
Variable random_double : Z → nat → Q.
Variable mark_sync_frame_count mark_data_frame_count frame_size : Z.
Variable in_data : WavData.
Variable seed time_seconds : Z.

(** The generator yields values in [0, 1). *)
Hypothesis random_double_range : ∀ i, (0 <= random_double seed i < 1)%Q.
(** Twice the values of a block are counted without overflow and fit a
    double. *)
Hypothesis block_size :
  (0 <= (mark_sync_frame_count + mark_data_frame_count) * frame_size * n_channels in_data
   < 2 ^ 52)%Z.
(** The ranges of the types, and a duration that is not negative. *)
Hypothesis channels_range : (0 < n_channels in_data < 2 ^ 31)%Z.
Hypothesis sample_rate_range : (- 2 ^ 31 <= sample_rate in_data < 2 ^ 31)%Z.
Hypothesis time_seconds_range : (- 2 ^ 31 <= time_seconds < 2 ^ 31)%Z.
Hypothesis n_values_range : (n_values in_data < 2 ^ 63)%Z.
Hypothesis duration_nonneg : (0 <= time_seconds * sample_rate in_data)%Z.

Lemma block_size_62 :
  (0 <= (mark_sync_frame_count + mark_data_frame_count) * frame_size * n_channels in_data
   < 2 ^ 62)%Z.
Proof. lia. Qed.

(** The start point is at most two blocks into the input. *)
Lemma start_point_two_blocks u :
  (0 <= u < 1)%Q →
  (0 <= (clip_points mark_sync_frame_count mark_data_frame_count frame_size in_data
           time_seconds u).1
   <= 2 * ((mark_sync_frame_count + mark_data_frame_count) * frame_size))%Z.
Proof.
  intros Hu. unfold clip_points, values_per_block. cbn [fst].
  set (b := ((mark_sync_frame_count + mark_data_frame_count) * frame_size)%Z) in *.
  set (c := n_channels in_data) in *.
  rewrite (wrap64_small (b * c)) by lia.
  rewrite (wrap64_small (2 * (b * c))) by lia.
  rewrite (wrap64_small c) by lia.
  assert (Hx : (double (inject_Z (2 * (b * c))) == inject_Z (2 * (b * c)))%Q)
    by (apply FloatMore.double_exact; lia).
  set (x := double (inject_Z (2 * (b * c)))) in *.
  assert (Hx0 : (0 <= x)%Q).
  { rewrite Hx. change 0%Q with (inject_Z 0). rewrite <- Zle_Qle. lia. }
  set (y := double (x * u)).
  assert (Hy : (0 <= y <= inject_Z (2 * (b * c)))%Q).
  { split.
    - apply Qle_trans with (double 0); [qle_compute|]. apply double_mono. nra.
    - apply Qle_trans with (double (inject_Z (2 * (b * c)))).
      + apply double_mono. rewrite <- Hx. nra.
      + fold x. rewrite Hx. apply Qle_refl. }
  assert (Ht : (0 <= trunc y <= 2 * (b * c))%Z).
  { rewrite trunc_nonneg by lra. split.
    - rewrite <- (Qfloor_Z 0). apply Qfloor_resp_le. change (inject_Z 0) with 0%Q. lra.
    - rewrite <- (Qfloor_Z (2 * (b * c))). apply Qfloor_resp_le. lra. }
  rewrite (wrap64_small (trunc y)) by lia.
  split; [apply Z.div_pos; lia|].
  apply Z.div_le_upper_bound; [lia|]. nia.
Qed.

(** X18: when [test_clip] returns on a loaded input, the data handed to
    [save] is a clip of exactly [time_seconds * sample_rate] frames, cut
    from the input at a frame boundary and in the format of the input;
    the status is 0, or 1 when saving fails. *)
Theorem test_clip_output (fuel : nat) (saved : bool) (status : Z) (out : option WavData) :
  test_clip random_double mark_sync_frame_count mark_data_frame_count frame_size
            fuel (Some in_data) saved seed time_seconds = Some (status, out) →
  ∃ start_point : Z,
    (0 <= start_point)%Z ∧
    (start_point + time_seconds * sample_rate in_data < n_frames in_data)%Z ∧
    out = Some (MkWavData
                  (take (Z.to_nat (time_seconds * sample_rate in_data * n_channels in_data))
                        (drop (Z.to_nat (start_point * n_channels in_data)) (samples in_data)))
                  (n_channels in_data) (sample_rate in_data) (bit_depth in_data)) ∧
    (∀ w, out = Some w →
          n_values w = (time_seconds * sample_rate in_data * n_channels in_data)%Z ∧
          n_frames w = (time_seconds * sample_rate in_data)%Z) ∧
    status = (if saved then 0 else 1)%Z.
Proof.
  unfold test_clip.
  destruct (clip_loop _ _ _ _ _ _ _ _ _) as [[s e]|] eqn:E; [|done].
  intros [= <- <-].
  apply (clip_loop_exit _ _ _ _ _ _ _ random_double_range block_size_62 channels_range
           sample_rate_range time_seconds_range n_values_range) in E
    as (j & _ & Hp & He & Hr).
  pose proof (start_point_two_blocks _ (random_double_range j)) as Hs.
  rewrite Hp in Hs. cbn [fst] in Hs.
  set (T := (time_seconds * sample_rate in_data)%Z) in *.
  set (c := n_channels in_data) in *.
  exists s. split; [lia|]. split; [lia|].
  assert (Hslice : slice (s * c) (e * c) (samples in_data)
                   = take (Z.to_nat (T * c)) (drop (Z.to_nat (s * c)) (samples in_data))).
  { unfold slice. do 2 f_equal. lia. }
  rewrite Hslice. split; [done|]. split; [|done].
  intros w [= <-]. unfold n_frames, n_values. cbn [samples n_channels]. fold c.
  assert (Hlen : (Z.of_nat (length (take (Z.to_nat (T * c))
                                        (drop (Z.to_nat (s * c)) (samples in_data))))
                  = T * c)%Z).
  { rewrite length_take, length_drop.
    assert (Hfit : ((s + T + 1) * c <= n_values in_data)%Z).
    { unfold n_frames in Hr. fold c in Hr. rewrite (wrap64_small c) in Hr by lia.
      assert ((s + T + 1) <= n_values in_data / c)%Z by lia.
      pose proof (Z.mul_div_le (n_values in_data) c ltac:(lia)). nia. }
    unfold n_values in Hfit. nia. }
  rewrite Hlen. split; [done|].
  rewrite wrap64_small by lia. apply Z.div_mul. lia.
Qed.

(** X19: when the input is longer than two blocks and the duration,
    the loop of [test_clip] ends on the first draw, whatever it is, and
    [test_clip] returns. *)
Theorem test_clip_first_draw (fuel : nat) (saved : bool) :
  (2 * ((mark_sync_frame_count + mark_data_frame_count) * frame_size)
   + time_seconds * sample_rate in_data < n_frames in_data)%Z →
  clip_loop random_double mark_sync_frame_count mark_data_frame_count frame_size
            (S fuel) in_data seed time_seconds 0
  = Some (clip_points mark_sync_frame_count mark_data_frame_count frame_size in_data
                      time_seconds (random_double seed 0)) ∧
  ∃ out,
    test_clip random_double mark_sync_frame_count mark_data_frame_count frame_size
              (S fuel) (Some in_data) saved seed time_seconds
    = Some (if saved then 0%Z else 1%Z, Some out).
Proof.
  intros Hlong.
  pose proof (start_point_two_blocks _ (random_double_range 0)) as Hs.
  assert (E : clip_loop random_double mark_sync_frame_count mark_data_frame_count frame_size
                (S fuel) in_data seed time_seconds 0
              = Some (clip_points mark_sync_frame_count mark_data_frame_count frame_size
                        in_data time_seconds (random_double seed 0))).
  { cbn [clip_loop].
    destruct (clip_points _ _ _ _ _ _) as [s e] eqn:Ep.
    assert (He : e = wrap64 (s + time_seconds * sample_rate in_data)).
    { unfold clip_points in Ep. by injection Ep as <- <-. }
    cbn [fst] in Hs. rewrite wrap64_small in He.
    - assert (Hlt : (e <? n_frames in_data)%Z = true) by (apply Z.ltb_lt; lia).
      by rewrite Hlt.
    - pose proof (n_frames_range in_data channels_range n_values_range). lia. }
  split; [exact E|].
  unfold test_clip. rewrite E.
  destruct (clip_points _ _ _ _ _ _) as [s e]. by eexists.
Qed.

End TestClipOutput.

Lemma test_clip_output_witness :
  let in_data := MkWavData [1; 2; 3; 4; 5; 6; 7; 8]%Q 2 1 16 in
  ∃ start_point : Z,
    (0 <= start_point)%Z ∧
    (start_point + 1 * sample_rate in_data < n_frames in_data)%Z ∧
    Some (MkWavData [5; 6]%Q 2 1 16)
    = Some (MkWavData
              (take (Z.to_nat (1 * sample_rate in_data * n_channels in_data))
                    (drop (Z.to_nat (start_point * n_channels in_data)) (samples in_data)))
              (n_channels in_data) (sample_rate in_data) (bit_depth in_data)) ∧
    (∀ w, Some (MkWavData [5; 6]%Q 2 1 16) = Some w →
          n_values w = (1 * sample_rate in_data * n_channels in_data)%Z ∧
          n_frames w = (1 * sample_rate in_data)%Z) ∧
    0%Z = (if true then 0 else 1)%Z.
Proof.
  intros in_data.
  apply (test_clip_output (λ _ _, 1 # 2)%Q 1 1 1 in_data 7 1) with (fuel := 3%nat);
    try intros i; vm_compute; repeat split; first [reflexivity | discriminate].
Defined.

Lemma test_clip_first_draw_witness :
  let in_data := MkWavData [1; 2; 3; 4; 5; 6; 7; 8; 9; 10; 11; 12]%Q 2 1 16 in
  clip_loop (λ _ _, 1 # 2)%Q 1 1 1 (S 0) in_data 7 1 0
  = Some (clip_points 1 1 1 in_data 1 (1 # 2)%Q) ∧
  ∃ out,
    test_clip (λ _ _, 1 # 2)%Q 1 1 1 (S 0) (Some in_data) true 7 1
    = Some (if true then 0%Z else 1%Z, Some out).
Proof.
  intros in_data.
  apply (test_clip_first_draw (λ _ _, 1 # 2)%Q 1 1 1 in_data 7 1);
    try intros i; vm_compute; repeat split; first [reflexivity | discriminate].
Defined.
